(** * Monitoring core of the Memphis broker: a shallow embedding

    The definitions below follow [server/memphis_handlers_monitoring.go]
    and the response types of package [models].  Unsigned 64-bit counters
    are integers of [Z] with the wrap-around written out, signed 64-bit
    throughput values are integers of [Z] wrapped into the int64 range,
    Go maps are [gmap]s, slices are lists, and the calls into the message
    store are recorded in an explicit log of effects. *)

From Stdlib Require Import ZArith Lia List Ascii String PrimFloat Permutation Sorted.
From stdpp Require Import gmap strings list fin_maps.

Local Open Scope string_scope.
Local Open Scope list_scope.
Local Open Scope Z_scope.

(** ** Machine integers *)

Module Int.

Definition two64 : Z := 2 ^ 64.
Definition two63 : Z := 2 ^ 63.

(** uint64 arithmetic wraps modulo 2^64. *)
Definition wrap_u64 (z : Z) : Z := z mod two64.
Definition u64_add (x y : Z) : Z := wrap_u64 (x + y).
Definition u64_sub (x y : Z) : Z := wrap_u64 (x - y).
Definition u64_mul (x y : Z) : Z := wrap_u64 (x * y).
Definition is_u64 (z : Z) : Prop := 0 <= z < two64.

(** int64 arithmetic wraps into [-2^63, 2^63). *)
Definition wrap_i64 (z : Z) : Z := (z + two63) mod two64 - two63.
Definition i64_add (x y : Z) : Z := wrap_i64 (x + y).
Definition i64_sub (x y : Z) : Z := wrap_i64 (x - y).
Definition is_i64 (z : Z) : Prop := - two63 <= z < two63.

End Int.

Import Int.

(** ** Package [models] *)

Definition float64 : Set := float.

Record CompStats : Set := mkCompStats {
  Total : float64;
  Current : float64;
  Percentage : Z
}.

Record SysComponent : Set := mkSysComponent {
  Name : string;
  CPU : CompStats;
  Memory : CompStats;
  Storage : CompStats;
  Healthy : bool;
  Status : string
}.

Record Components : Set := mkComponents {
  UnhealthyComponents : list SysComponent;
  DangerousComponents : list SysComponent;
  RiskyComponents : list SysComponent;
  HealthyComponents : list SysComponent
}.

(** ** Health classification: buckets, padding and roll-up *)

Definition healthyStatus : string := "healthy".
Definition unhealthyStatus : string := "unhealthy".
Definition dangerousStatus : string := "dangerous".
Definition riskyStatus : string := "risky".

Definition checkCompStatus (components : Components) : string :=
  if (0 <? Z.of_nat (length (UnhealthyComponents components))) then unhealthyStatus
  else if (0 <? Z.of_nat (length (DangerousComponents components))) then dangerousStatus
  else if (0 <? Z.of_nat (length (RiskyComponents components))) then riskyStatus
  else healthyStatus.

Definition defaultSystemComp (compName : string) (healthy : bool) : SysComponent :=
  let defaultStat := mkCompStats 0%float 0%float 0 in
  let status := if negb healthy then unhealthyStatus else healthyStatus in
  mkSysComponent compName defaultStat defaultStat defaultStat healthy status.

(** [regexp.MatchString] is only used with the two patterns
    [^memphis-\d*[0-9]\d*$] and [^memphis-metadata-\d*[0-9]\d*$]: a fixed
    prefix followed by one or more ASCII digits up to the end of the text. *)
Definition is_digit (c : ascii) : bool :=
  ((48 <=? nat_of_ascii c)%nat && (nat_of_ascii c <=? 57)%nat)%bool.

Fixpoint all_digits (s : string) : bool :=
  match s with
  | EmptyString => true
  | String c s' => is_digit c && all_digits s'
  end.

Fixpoint strip_prefix (p s : string) : option string :=
  match p, s with
  | EmptyString, _ => Some s
  | String a p', String b s' => if Ascii.eqb a b then strip_prefix p' s' else None
  | String _ _, EmptyString => None
  end.

Definition match_prefix_digits (p s : string) : bool :=
  match strip_prefix p s with
  | Some EmptyString => false
  | Some rest => all_digits rest
  | None => false
  end.

(** [strings.Contains s substr]. *)
Fixpoint strings_Contains (s substr : string) : bool :=
  match strip_prefix substr s with
  | Some _ => true
  | None => match s with
            | EmptyString => false
            | String _ s' => strings_Contains s' substr
            end
  end.

(** The guard that decides whether [comp] belongs to the family [name];
    the three branches of the loop body share the same [switch]. *)
Definition family_match (name : string) (comp : SysComponent) : bool :=
  if String.eqb name "memphis" then match_prefix_digits "memphis-" (Name comp)
  else if String.eqb name "memphis-metadata" then
    match_prefix_digits "memphis-metadata-" (Name comp)
  else if (String.eqb name "memphis-rest-gateway"
           || String.eqb name "memphis-metadata-coordinator")%bool then
    strings_Contains (Name comp) name
  else false.

(** The [switch comp.Status] statement: one bucket grows by [comp]. *)
Definition bucket_add (acc : Components) (comp : SysComponent) : Components :=
  if String.eqb (Status comp) unhealthyStatus then
    mkComponents (UnhealthyComponents acc ++ [comp]) (DangerousComponents acc)
                 (RiskyComponents acc) (HealthyComponents acc)
  else if String.eqb (Status comp) dangerousStatus then
    mkComponents (UnhealthyComponents acc) (DangerousComponents acc ++ [comp])
                 (RiskyComponents acc) (HealthyComponents acc)
  else if String.eqb (Status comp) riskyStatus then
    mkComponents (UnhealthyComponents acc) (DangerousComponents acc)
                 (RiskyComponents acc ++ [comp]) (HealthyComponents acc)
  else
    mkComponents (UnhealthyComponents acc) (DangerousComponents acc)
                 (RiskyComponents acc) (HealthyComponents acc ++ [comp]).

Fixpoint bucket_loop (name : string) (components : list SysComponent)
    (acc : Components) : Components :=
  match components with
  | [] => acc
  | comp :: rest =>
      bucket_loop name rest
        (if family_match name comp then bucket_add acc comp else acc)
  end.

Definition bucket_total (c : Components) : Z :=
  Z.of_nat (length (UnhealthyComponents c)) + Z.of_nat (length (DangerousComponents c))
  + Z.of_nat (length (RiskyComponents c)) + Z.of_nat (length (HealthyComponents c)).

(** The padding loop [for i := 0; i < missingComps; i++]. *)
Fixpoint pad_loop (n : nat) (name : string) (unhealthyComps : list SysComponent)
    : list SysComponent :=
  match n with
  | O => unhealthyComps
  | S n' => pad_loop n' name (unhealthyComps ++ [defaultSystemComp name false])
  end.

(** [len(unhealthyComps) + len(dangerousComps) + len(riskyComps) + len(healthyComps)]
    in the arithmetic of [int], which is 64 bits wide on the platforms the
    broker is built for. *)
Definition bucket_lens (c : Components) : Z :=
  i64_add (i64_add (i64_add (Z.of_nat (length (UnhealthyComponents c)))
                            (Z.of_nat (length (DangerousComponents c))))
                   (Z.of_nat (length (RiskyComponents c))))
          (Z.of_nat (length (HealthyComponents c))).

(** [desired] is an [int]; the subtraction of line 1232 wraps like every
    operation on [int]. *)
Definition getRelevantComponents (name : string) (components : list SysComponent)
    (desired : Z) : Components :=
  let acc := bucket_loop name components (mkComponents [] [] [] []) in
  let missingComps := i64_sub desired (bucket_lens acc) in
  let unhealthyComps :=
    if 0 <? missingComps then pad_loop (Z.to_nat missingComps) name (UnhealthyComponents acc)
    else UnhealthyComponents acc in
  mkComponents unhealthyComps (DangerousComponents acc)
               (RiskyComponents acc) (HealthyComponents acc).

(** ** Messages, times and the throughput response types *)

(** A [time.Time]: the zero value, or an instant built by
    [time.Unix(0, nsec)]. *)
Inductive Time : Set :=
| TimeZero
| TimeUnix (nsec : Z).

(** [t.Before(u)]; the zero [Time] lies before every Unix instant that an
    int64 count of nanoseconds can reach. *)
Definition Time_Before (t u : Time) : bool :=
  match t, u with
  | TimeZero, TimeZero => false
  | TimeZero, TimeUnix _ => true
  | TimeUnix _, TimeZero => false
  | TimeUnix a, TimeUnix b => a <? b
  end.

Definition error : Set := string.

Record StoredMsg : Set := mkStoredMsg {
  msg_Subject : string;
  msg_Sequence : Z;
  msg_Data : string;
  msg_Time : Time
}.

(** The payload of a throughput sample, as the handler reads it: a broker
    name and two maps from tenant name to a byte count. *)
Record BrokerThroughput : Type := mkBrokerThroughput {
  bt_Name : string;
  bt_ReadMap : gmap string Z;
  bt_WriteMap : gmap string Z
}.

Record ThroughputReadResponse : Set := mkThroughputReadResponse {
  trr_Timestamp : Time;
  trr_Read : Z
}.

Record ThroughputWriteResponse : Set := mkThroughputWriteResponse {
  twr_Timestamp : Time;
  twr_Write : Z
}.

Record BrokerThroughputResponse : Set := mkBrokerThroughputResponse {
  btr_Name : string;
  btr_Read : list ThroughputReadResponse;
  btr_Write : list ThroughputWriteResponse
}.

(** Reading a Go map at a missing key gives the zero value. *)
Definition map_index (m : gmap string Z) (k : string) : Z := default 0 (m !! k).

Definition zero_BrokerThroughputResponse : BrokerThroughputResponse :=
  mkBrokerThroughputResponse "" [] [].

Definition btr_index (m : gmap string BrokerThroughputResponse) (k : string)
    : BrokerThroughputResponse :=
  default zero_BrokerThroughputResponse (m !! k).

(** A call either completes with a value or panics at run time. *)
Inductive Outcome (A : Type) : Type :=
| Done (a : A)
| Panic (reason : string).
Arguments Done {A} a.
Arguments Panic {A} reason.

Definition index_out_of_range : string := "index out of range".

(** ** Throughput aggregation (lines 166-216 of the handler) *)

(** The loop body of [for _, msg := range msgs] once the payload has been
    decoded into [brokerThroughput]. *)
Definition throughput_entry (tenantName : string) (ts : Time)
    (brokerThroughput : BrokerThroughput)
    (m : gmap string BrokerThroughputResponse) : gmap string BrokerThroughputResponse :=
  let name := bt_Name brokerThroughput in
  let m1 := match m !! name with
            | Some _ => m
            | None => <[name := mkBrokerThroughputResponse name [] []]> m
            end in
  let mapEntry := btr_index m1 name in
  let mapEntry' :=
    mkBrokerThroughputResponse (btr_Name mapEntry)
      (btr_Read (btr_index m1 name)
         ++ [mkThroughputReadResponse ts (map_index (bt_ReadMap brokerThroughput) tenantName)])
      (btr_Write (btr_index m1 name)
         ++ [mkThroughputWriteResponse ts (map_index (bt_WriteMap brokerThroughput) tenantName)]) in
  <[name := mapEntry']> m1.

(** The whole loop; [json_Unmarshal] is the decoder of [encoding/json] at
    type [BrokerThroughput], and a payload it rejects ends the call. *)
Fixpoint throughput_map (json_Unmarshal : string -> error + BrokerThroughput)
    (tenantName : string) (msgs : list StoredMsg)
    (m : gmap string BrokerThroughputResponse)
    : error + gmap string BrokerThroughputResponse :=
  match msgs with
  | [] => inr m
  | msg :: rest =>
      match json_Unmarshal (msg_Data msg) with
      | inl err => inl err
      | inr brokerThroughput =>
          throughput_map json_Unmarshal tenantName rest
            (throughput_entry tenantName (msg_Time msg) brokerThroughput m)
      end
  end.

(** [for i, r := range t.Read { totalRead[i].Timestamp = ...; totalRead[i].Read += ... }]
    started at index [i]; [None] is the run-time panic of an index past the
    end of [totalRead]. *)
Fixpoint total_add_read (i : nat) (rs : list ThroughputReadResponse)
    (totalRead : list ThroughputReadResponse) : option (list ThroughputReadResponse) :=
  match rs with
  | [] => Some totalRead
  | r :: rs' =>
      match totalRead !! i with
      | None => None
      | Some cur =>
          total_add_read (S i) rs'
            (<[i := mkThroughputReadResponse (trr_Timestamp r)
                      (i64_add (trr_Read cur) (trr_Read r))]> totalRead)
      end
  end.

Fixpoint total_add_write (i : nat) (ws : list ThroughputWriteResponse)
    (totalWrite : list ThroughputWriteResponse) : option (list ThroughputWriteResponse) :=
  match ws with
  | [] => Some totalWrite
  | w :: ws' =>
      match totalWrite !! i with
      | None => None
      | Some cur =>
          total_add_write (S i) ws'
            (<[i := mkThroughputWriteResponse (twr_Timestamp w)
                      (i64_add (twr_Write cur) (twr_Write w))]> totalWrite)
      end
  end.

(** [for _, t := range m] over the rows in the order the runtime yields
    them. *)
Fixpoint total_loop (rows : list BrokerThroughputResponse)
    (throughputs : list BrokerThroughputResponse)
    (totalRead : list ThroughputReadResponse) (totalWrite : list ThroughputWriteResponse)
    : option (list BrokerThroughputResponse
              * list ThroughputReadResponse * list ThroughputWriteResponse) :=
  match rows with
  | [] => Some (throughputs, totalRead, totalWrite)
  | t :: rest =>
      match total_add_read 0 (btr_Read t) totalRead with
      | None => None
      | Some totalRead' =>
          match total_add_write 0 (btr_Write t) totalWrite with
          | None => None
          | Some totalWrite' =>
              total_loop rest (throughputs ++ [t]) totalRead' totalWrite'
          end
      end
  end.

(** Lines 196-216: the rows and the synthetic [total] row in front of
    them.  [ws_updates_interval_sec] is the configured window length. *)
Definition throughput_rows (ws_updates_interval_sec : nat)
    (rows : list BrokerThroughputResponse)
    : Outcome (list BrokerThroughputResponse * option error) :=
  let totalRead := replicate ws_updates_interval_sec (mkThroughputReadResponse TimeZero 0) in
  let totalWrite := replicate ws_updates_interval_sec (mkThroughputWriteResponse TimeZero 0) in
  match total_loop rows [] totalRead totalWrite with
  | None => Panic index_out_of_range
  | Some (throughputs, totalRead', totalWrite') =>
      Done (mkBrokerThroughputResponse "total" totalRead' totalWrite' :: throughputs, None)
  end.

(** ** [sort.Slice] *)

(** [sort.Slice] lives in Go's standard library; the handler relies on it
    through its contract only, so it is taken as a parameter. *)
Definition Sorter : Type := forall A : Type, (A -> A -> bool) -> list A -> list A.

(** What the comparison function has to satisfy for the contract to apply. *)
Record less_ok {A : Type} (less : A -> A -> bool) : Prop := mk_less_ok {
  less_asym : forall x y, less x y = true -> less y x = false;
  less_cotrans : forall x y z, less y x = false -> less z y = false -> less z x = false
}.

(** No element is followed, however far away, by a smaller one. *)
Definition ordered {A : Type} (less : A -> A -> bool) (l : list A) : Prop :=
  StronglySorted (fun x y => less y x = false) l.

(** The documented contract: the slice is rearranged, and ends up in the
    order of [less].  Nothing is promised about equal elements. *)
Definition sorter_ok (sort_Slice : Sorter) : Prop :=
  forall (A : Type) (less : A -> A -> bool) (l : list A),
    Permutation (sort_Slice A less l) l
    /\ (less_ok less -> ordered less (sort_Slice A less l)).

(** One sorter that meets the contract: insertion sort, which moves an
    element only past strictly smaller ones and so keeps equal elements in
    their input order. *)
Fixpoint insert_sorted {A : Type} (less : A -> A -> bool) (x : A) (l : list A) : list A :=
  match l with
  | [] => [x]
  | h :: t => if less h x then h :: insert_sorted less x t else x :: h :: t
  end.

Fixpoint insertion_sort_aux {A : Type} (less : A -> A -> bool) (l : list A) : list A :=
  match l with
  | [] => []
  | x :: t => insert_sorted less x (insertion_sort_aux less t)
  end.

Definition insertion_sort : Sorter := fun A less l => insertion_sort_aux less l.

(** ** The message store as the handlers see it *)

Record StreamState : Set := mkStreamState {
  Msgs : Z;
  FirstSeq : Z;
  LastSeq : Z
}.

Inductive Stream : Set :=
| throughputStreamNameV1
| syslogsStreamName.

Record ConsumerConfig : Set := mkConsumerConfig {
  OptStartSeq : Z;
  Durable : string;
  FilterSubject : string
}.

(** What the world answers during one stream-read session: the next unique
    id, the replies of the three calls that can fail, and the messages that
    reach [responseChan] before the timer fires, in order of arrival. *)
Record Session : Set := mkSession {
  nuid_Next : string;
  memphisStreamInfo : error + StreamState;
  memphisAddConsumer : option error;
  subscribeOnAcc : option error;
  responseChan : list StoredMsg
}.

(** The calls a session makes on the message store, in program order. *)
Inductive Effect : Set :=
| E_memphisStreamInfo (stream : Stream)
| E_memphisAddConsumer (stream : Stream) (cc : ConsumerConfig)
| E_subscribeOnAcc (reply : string)
| E_sendInternalAccountMsgWithReply (stream : Stream) (durable reply : string) (req : Z)
| E_timer_Stop
| E_unsubscribeOnAcc (reply : string)
| E_AfterFunc_memphisRemoveConsumer (delay_ms : Z) (stream : Stream) (durable : string).

(** A computation that appends to the log of effects. *)
Definition Eff (A : Type) : Type := list Effect -> A * list Effect.

#[global] Instance Eff_ret : MRet Eff := fun A a log => (a, log).

#[global] Instance Eff_bind : MBind Eff :=
  fun A B f m log => let '(a, log') := m log in f a log'.

Definition emit (e : Effect) : Eff unit := fun log => (tt, log ++ [e]).

Definition run {A : Type} (m : Eff A) : A * list Effect := m [].

(** [for i := uint64(0); i < amount; i++ { select { ... } }]: an empty
    channel means that the timer fires first. *)
Fixpoint read_loop (responseChan : list StoredMsg) (i amount : Z)
    (msgs : list StoredMsg) : list StoredMsg :=
  match responseChan with
  | [] => msgs
  | msg :: rest =>
      if i <? amount then read_loop rest (i + 1) amount (msgs ++ [msg]) else msgs
  end.

(** The [cleanup:] label shared by both readers. *)
Definition cleanup (stream : Stream) (durableName reply : string) : Eff unit :=
  emit E_timer_Stop ;;
  emit (E_unsubscribeOnAcc reply) ;;
  emit (E_AfterFunc_memphisRemoveConsumer 500 stream durableName).

Definition msg_less (a b : StoredMsg) : bool := Time_Before (msg_Time a) (msg_Time b).

Definition GetBrokersThroughputs (ws_updates_interval_sec : nat)
    (json_Unmarshal : string -> error + BrokerThroughput) (sort_Slice : Sorter)
    (rangeMap : gmap string BrokerThroughputResponse -> list BrokerThroughputResponse)
    (env : Session) (tenantName : string)
    : Eff (Outcome (list BrokerThroughputResponse * option error)) :=
  let uid := nuid_Next env in
  let durableName := String.append "$memphis_fetch_throughput_consumer_" uid in
  emit (E_memphisStreamInfo throughputStreamNameV1) ;;
  match memphisStreamInfo env with
  | inl err => mret (Done ([], Some err))
  | inr streamInfo =>
      let amount := Msgs streamInfo in
      let startSeq := if 0 <? FirstSeq streamInfo then FirstSeq streamInfo else 1 in
      let cc := mkConsumerConfig startSeq durableName "" in
      emit (E_memphisAddConsumer throughputStreamNameV1 cc) ;;
      match memphisAddConsumer env with
      | Some err => mret (Done ([], Some err))
      | None =>
          let reply := String.append durableName "_reply" in
          emit (E_subscribeOnAcc reply) ;;
          match subscribeOnAcc env with
          | Some err => mret (Done ([], Some err))
          | None =>
              emit (E_sendInternalAccountMsgWithReply
                      throughputStreamNameV1 durableName reply amount) ;;
              let msgs := read_loop (responseChan env) 0 amount [] in
              cleanup throughputStreamNameV1 durableName reply ;;
              let msgs := sort_Slice _ msg_less msgs in
              match throughput_map json_Unmarshal tenantName msgs ∅ with
              | inl err => mret (Done ([], Some err))
              | inr m => mret (throughput_rows ws_updates_interval_sec (rangeMap m))
              end
          end
      end
  end.

(** The runtime may yield the entries of a map in any order. *)
Definition range_ok
    (rangeMap : gmap string BrokerThroughputResponse -> list BrokerThroughputResponse)
    : Prop :=
  forall m, Permutation (rangeMap m) (map snd (map_to_list m)).

Definition range_by_key (m : gmap string BrokerThroughputResponse)
    : list BrokerThroughputResponse := map snd (map_to_list m).

(** Another order in which the runtime may yield the rows. *)
Definition range_rev (m : gmap string BrokerThroughputResponse)
    : list BrokerThroughputResponse := rev (map snd (map_to_list m)).

(** ** System logs (lines 928-1085 of the handler) *)

Record Log : Set := mkLog {
  MessageSeq : Z;
  log_Type : string;
  log_Data : string;
  log_Source : string;
  TimeSent : Time
}.

Record SystemLogsResponse : Set := mkSystemLogsResponse {
  Logs : list Log
}.

Definition min_uint64 (x y : Z) : Z := if x <? y then x else y.

(** Lines 950-968: the amount to request, the start sequence of the
    consumer and the last known sequence, in that order. *)
Definition log_window (state : StreamState) (amount : Z) (fromLast : bool)
    (lastKnownSeq : Z) (getAll : bool) : Z * Z * Z :=
  let amount := min_uint64 (Msgs state) amount in
  let startSeq := u64_add (u64_sub lastKnownSeq amount) 1 in
  if getAll then (Msgs state, FirstSeq state, lastKnownSeq)
  else if fromLast then
    let startSeq := u64_add (u64_sub (LastSeq state) amount) 1 in
    let startSeq := if LastSeq state <=? amount then 1 else startSeq in
    (amount, startSeq, LastSeq state)
  else if lastKnownSeq <=? amount then (lastKnownSeq, 1, lastKnownSeq)
  else (amount, startSeq, lastKnownSeq).

(** [strings.Split(s, sep)] for a separator of one byte. *)
Fixpoint strings_Split (s : string) (sep : ascii) : list string :=
  match s with
  | EmptyString => [EmptyString]
  | String c s' =>
      if Ascii.eqb c sep then EmptyString :: strings_Split s' sep
      else match strings_Split s' sep with
           | [] => [String c EmptyString]
           | tok :: toks => String c tok :: toks
           end
  end.

(** The body of [for _, msg := range msgs]; [None] is the panic of an
    index past the end of [splittedSubj]. *)
Definition log_of_msg (tsep : ascii) (msg : StoredMsg) : option Log :=
  let splittedSubj := strings_Split (msg_Subject msg) tsep in
  let '(logSource, logType) :=
    if Nat.eqb (length splittedSubj) 2 then (Some "broker", splittedSubj !! 1%nat)
    else if Nat.eqb (length splittedSubj) 3 then (splittedSubj !! 1%nat, splittedSubj !! 2%nat)
    else (splittedSubj !! 1%nat, splittedSubj !! 3%nat) in
  match logSource, logType with
  | Some logSource, Some logType =>
      Some (mkLog (wrap_i64 (msg_Sequence msg)) logType (msg_Data msg) logSource (msg_Time msg))
  | _, _ => None
  end.

Fixpoint logs_loop (tsep : ascii) (msgs : list StoredMsg) (resMsgs : list Log)
    : option (list Log) :=
  match msgs with
  | [] => Some resMsgs
  | msg :: rest =>
      match log_of_msg tsep msg with
      | None => None
      | Some l => logs_loop tsep rest (resMsgs ++ [l])
      end
  end.

(** Lines 1070-1082: the final order and the cap of one hundred. *)
Definition logs_order (sort_Slice : Sorter) (getAll : bool) (resMsgs : list Log) : list Log :=
  if getAll then sort_Slice _ (fun a b => MessageSeq a <? MessageSeq b) resMsgs
  else
    let resMsgs := sort_Slice _ (fun a b => MessageSeq b <? MessageSeq a) resMsgs in
    if (100 <? length resMsgs)%nat then take 100 resMsgs else resMsgs.

(** The test in front of the recursive call of line 1036. *)
Definition refetch (msgs : list StoredMsg) (amount : Z) (state : StreamState)
    (startSeq : Z) : bool :=
  (Z.of_nat (length msgs) <? amount) && (amount <? Msgs state) && (FirstSeq state <? startSeq).

(** One session is used up by every call, the nested ones included; the
    result is [None] when the recursion outlives the sessions supplied. *)
Fixpoint GetSystemLogs (tsep : ascii) (sort_Slice : Sorter) (envs : list Session)
    (amount : Z) (timeout : Z) (fromLast : bool) (lastKnownSeq : Z)
    (filterSubject : string) (getAll : bool)
    : Eff (option (Outcome (SystemLogsResponse * option error))) :=
  match envs with
  | [] => mret None
  | env :: envs' =>
      let uid := nuid_Next env in
      let durableName := String.append "$memphis_fetch_logs_consumer_" uid in
      emit (E_memphisStreamInfo syslogsStreamName) ;;
      match memphisStreamInfo env with
      | inl err => mret (Some (Done (mkSystemLogsResponse [], Some err)))
      | inr state =>
          let '(amount, startSeq, lastKnownSeq) :=
            log_window state amount fromLast lastKnownSeq getAll in
          let cc := mkConsumerConfig startSeq durableName
                      (if String.eqb filterSubject "" then "" else filterSubject) in
          emit (E_memphisAddConsumer syslogsStreamName cc) ;;
          match memphisAddConsumer env with
          | Some err => mret (Some (Done (mkSystemLogsResponse [], Some err)))
          | None =>
              let reply := String.append durableName "_reply" in
              emit (E_subscribeOnAcc reply) ;;
              match subscribeOnAcc env with
              | Some err => mret (Some (Done (mkSystemLogsResponse [], Some err)))
              | None =>
                  emit (E_sendInternalAccountMsgWithReply
                          syslogsStreamName durableName reply amount) ;;
                  let msgs := read_loop (responseChan env) 0 amount [] in
                  cleanup syslogsStreamName durableName reply ;;
                  if refetch msgs amount state startSeq then
                    GetSystemLogs tsep sort_Slice envs' (u64_mul amount 2) timeout false
                      lastKnownSeq filterSubject getAll
                  else
                    match logs_loop tsep msgs [] with
                    | None => mret (Some (Panic index_out_of_range))
                    | Some resMsgs =>
                        mret (Some (Done (mkSystemLogsResponse
                                            (logs_order sort_Slice getAll resMsgs), None)))
                    end
              end
          end
      end
  end.

(** How many calls of [GetSystemLogs] a log of effects records: each call
    asks for the stream state exactly once, before anything else. *)
Definition is_call (e : Effect) : bool :=
  match e with
  | E_memphisStreamInfo _ => true
  | _ => false
  end.

Definition calls_of (log : list Effect) : nat := length (List.filter is_call log).

(** ** The main overview (lines 219-281 of the handler) *)

Record SystemComponents : Set := mkSystemComponents {
  sc_Name : string;
  sc_Components : Components;
  sc_Status : string;
  sc_Ports : list Z;
  sc_DesiredPods : Z;
  sc_ActualPods : Z;
  sc_Hosts : list string
}.

Section Overview.

(** [models.ExtendedStation] is declared outside the files at hand. *)
Variable ExtendedStation : Type.

Record MainOverviewData : Type := mkMainOverviewData {
  TotalStations : Z;
  TotalMessages : Z;
  TotalDlsMessages : Z;
  mo_SystemComponents : list SystemComponents;
  Stations : list ExtendedStation;
  K8sEnv : bool;
  BrokersThroughput : list BrokerThroughputResponse;
  MetricsEnabled : bool
}.

Definition zero_MainOverviewData : MainOverviewData :=
  mkMainOverviewData 0 0 0 [] [] false [] false.

(** What the three sub-queries give back to their goroutines. *)
Record TaskResults : Type := mkTaskResults {
  GetAllStationsDetails : list ExtendedStation * Z * Z * option error;
  GetSystemComponents : list SystemComponents * bool * option error;
  BrokersThroughputs : list BrokerThroughputResponse * option error
}.

Inductive Task : Set :=
| StationsTask
| ComponentsTask
| ThroughputTask.

(** The memory the goroutines share with the caller: the wait group's
    counter, the payload under construction, the error cell, the tasks
    that have run to their [wg.Done()], and what the caller has returned. *)
Record Shared : Type := mkShared {
  wg : Z;
  mainOverviewData : MainOverviewData;
  generalErr : option error;
  finished : list Task;
  returned : option (MainOverviewData * option error)
}.

Definition init_Shared : Shared :=
  mkShared 3 zero_MainOverviewData None [] None.

(** The body of one goroutine, from its query to [wg.Done()]. *)
Definition run_task (r : TaskResults) (t : Task) (s : Shared) : Shared :=
  let d := mainOverviewData s in
  match t with
  | StationsTask =>
      let '(stations, totalMessages, totalDlsMsgs, err) := GetAllStationsDetails r in
      match err with
      | Some e => mkShared (wg s - 1) d (Some e) (t :: finished s) (returned s)
      | None =>
          mkShared (wg s - 1)
            (mkMainOverviewData (Z.of_nat (length stations)) totalMessages totalDlsMsgs
               (mo_SystemComponents d) stations (K8sEnv d) (BrokersThroughput d)
               (MetricsEnabled d))
            (generalErr s) (t :: finished s) (returned s)
      end
  | ComponentsTask =>
      let '(systemComponents, metricsEnabled, err) := GetSystemComponents r in
      match err with
      | Some e => mkShared (wg s - 1) d (Some e) (t :: finished s) (returned s)
      | None =>
          mkShared (wg s - 1)
            (mkMainOverviewData (TotalStations d) (TotalMessages d) (TotalDlsMessages d)
               systemComponents (Stations d) (K8sEnv d) (BrokersThroughput d) metricsEnabled)
            (generalErr s) (t :: finished s) (returned s)
      end
  | ThroughputTask =>
      let '(brokersThroughputs, err) := BrokersThroughputs r in
      match err with
      | Some e => mkShared (wg s - 1) d (Some e) (t :: finished s) (returned s)
      | None =>
          mkShared (wg s - 1)
            (mkMainOverviewData (TotalStations d) (TotalMessages d) (TotalDlsMessages d)
               (mo_SystemComponents d) (Stations d) (K8sEnv d) brokersThroughputs
               (MetricsEnabled d))
            (generalErr s) (t :: finished s) (returned s)
      end
  end.

(** What the caller does once [wg.Wait()] lets it through; [k8sEnv] is
    the value lines 275-278 compute from the configuration. *)
Definition after_Wait (k8sEnv : bool) (s : Shared) : Shared :=
  let d := mainOverviewData s in
  match generalErr s with
  | Some e => mkShared (wg s) d (generalErr s) (finished s) (Some (zero_MainOverviewData, Some e))
  | None =>
      let d' := mkMainOverviewData (TotalStations d) (TotalMessages d) (TotalDlsMessages d)
                  (mo_SystemComponents d) (Stations d) k8sEnv (BrokersThroughput d)
                  (MetricsEnabled d) in
      mkShared (wg s) d' (generalErr s) (finished s) (Some (d', None))
  end.

Definition Task_eqb (a b : Task) : bool :=
  match a, b with
  | StationsTask, StationsTask | ComponentsTask, ComponentsTask
  | ThroughputTask, ThroughputTask => true
  | _, _ => false
  end.

Definition has_run (t : Task) (s : Shared) : bool := existsb (Task_eqb t) (finished s).

(** The scheduler: any goroutine that has not run yet may run next, and the
    caller leaves [wg.Wait()] only when the counter is zero. *)
Inductive step (r : TaskResults) (k8sEnv : bool) : Shared -> Shared -> Prop :=
| step_task (t : Task) (s : Shared) :
    has_run t s = false -> step r k8sEnv s (run_task r t s)
| step_return (s : Shared) :
    wg s = 0 -> returned s = None -> step r k8sEnv s (after_Wait k8sEnv s).

Inductive steps (r : TaskResults) (k8sEnv : bool) : Shared -> Shared -> Prop :=
| steps_refl (s : Shared) : steps r k8sEnv s s
| steps_more (s1 s2 s3 : Shared) :
    steps r k8sEnv s1 s2 -> step r k8sEnv s2 s3 -> steps r k8sEnv s1 s3.

(** The same under a given schedule of the goroutines. *)
Definition getMainOverviewDataDetails (r : TaskResults) (k8sEnv : bool)
    (schedule : list Task) : option (MainOverviewData * option error) :=
  let s := fold_left (fun s t => if has_run t s then s else run_task r t s)
             schedule init_Shared in
  if wg s =? 0 then returned (after_Wait k8sEnv s) else None.

Definition task_failed (r : TaskResults) (t : Task) : option error :=
  match t with
  | StationsTask => snd (GetAllStationsDetails r)
  | ComponentsTask => snd (GetSystemComponents r)
  | ThroughputTask => snd (BrokersThroughputs r)
  end.

End Overview.

Arguments zero_MainOverviewData {ExtendedStation}.
Arguments init_Shared {ExtendedStation}.
Arguments run_task {ExtendedStation} r t s.
Arguments after_Wait {ExtendedStation} k8sEnv s.
Arguments has_run {ExtendedStation} t s.
Arguments step {ExtendedStation} r k8sEnv _ _.
Arguments steps {ExtendedStation} r k8sEnv _ _.
Arguments getMainOverviewDataDetails {ExtendedStation} r k8sEnv schedule.
Arguments task_failed {ExtendedStation} r t.
Arguments wg {ExtendedStation} _.
Arguments mainOverviewData {ExtendedStation} _.
Arguments generalErr {ExtendedStation} _.
Arguments finished {ExtendedStation} _.
Arguments returned {ExtendedStation} _.
Arguments mkTaskResults {ExtendedStation} _ _ _.

(** The start-sequence table as the specification words it, over the
    integers: the amount is capped by the message count first; then
    [all] starts at the first sequence and asks for every message, the
    tail mode starts at [max(1, last_seq - amount + 1)], and the mode
    counting back from a known sequence starts at
    [max(1, last_known_seq - amount + 1)] with the amount reduced to
    [last_known_seq] when it is not below it. *)
Definition log_window_table (state : StreamState) (amount : Z) (fromLast : bool)
    (lastKnownSeq : Z) (getAll : bool) : Z * Z :=
  let capped := Z.min (Msgs state) amount in
  if getAll then (Msgs state, FirstSeq state)
  else if fromLast then (capped, Z.max 1 (LastSeq state - capped + 1))
  else (if lastKnownSeq <=? capped then lastKnownSeq else capped,
        Z.max 1 (lastKnownSeq - capped + 1)).

(** The four status classes of the [switch] in [getRelevantComponents]. *)
Definition is_unhealthy (c : SysComponent) : bool := String.eqb (Status c) unhealthyStatus.

Definition is_dangerous (c : SysComponent) : bool :=
  negb (is_unhealthy c) && String.eqb (Status c) dangerousStatus.

Definition is_risky (c : SysComponent) : bool :=
  negb (is_unhealthy c) && negb (is_dangerous c) && String.eqb (Status c) riskyStatus.

Definition is_healthy (c : SysComponent) : bool :=
  negb (is_unhealthy c) && negb (is_dangerous c) && negb (is_risky c).

(** ** Vocabulary for the throughput properties *)

Definition fetched (env : Session) (amount : Z) : list StoredMsg :=
  read_loop (responseChan env) 0 amount [].

Definition decoded (json_Unmarshal : string -> error + BrokerThroughput)
    (msg : StoredMsg) : option BrokerThroughput :=
  match json_Unmarshal (msg_Data msg) with
  | inr b => Some b
  | inl _ => None
  end.

(** The sample [msg] comes from the broker called [name]. *)
Definition from_broker (json_Unmarshal : string -> error + BrokerThroughput)
    (name : string) (msg : StoredMsg) : bool :=
  match decoded json_Unmarshal msg with
  | Some b => String.eqb (bt_Name b) name
  | None => false
  end.

Definition read_entry (json_Unmarshal : string -> error + BrokerThroughput)
    (tenantName : string) (msg : StoredMsg) : ThroughputReadResponse :=
  mkThroughputReadResponse (msg_Time msg)
    (match decoded json_Unmarshal msg with
     | Some b => map_index (bt_ReadMap b) tenantName
     | None => 0
     end).

Definition write_entry (json_Unmarshal : string -> error + BrokerThroughput)
    (tenantName : string) (msg : StoredMsg) : ThroughputWriteResponse :=
  mkThroughputWriteResponse (msg_Time msg)
    (match decoded json_Unmarshal msg with
     | Some b => map_index (bt_WriteMap b) tenantName
     | None => 0
     end).

(** A row [e] with the samples [msgs] of its broker appended. *)
Definition extend_row (json_Unmarshal : string -> error + BrokerThroughput)
    (tenantName : string) (e : BrokerThroughputResponse) (msgs : list StoredMsg)
    : BrokerThroughputResponse :=
  mkBrokerThroughputResponse (btr_Name e)
    (btr_Read e ++ map (read_entry json_Unmarshal tenantName) msgs)
    (btr_Write e ++ map (write_entry json_Unmarshal tenantName) msgs).

(** The exact sum, over the integers, of the values the rows hold at
    index [i]; a row that is shorter contributes 0. *)
Fixpoint read_sum (rows : list BrokerThroughputResponse) (i : nat) : Z :=
  match rows with
  | [] => 0
  | t :: rest => default 0 (trr_Read <$> btr_Read t !! i) + read_sum rest i
  end.

Fixpoint write_sum (rows : list BrokerThroughputResponse) (i : nat) : Z :=
  match rows with
  | [] => 0
  | t :: rest => default 0 (twr_Write <$> btr_Write t !! i) + write_sum rest i
  end.

(** The same sums in the arithmetic of the program: int64 additions in
    the order of the rows, starting from 0. *)
Fixpoint read_sum_i64 (rows : list BrokerThroughputResponse) (i : nat) (acc : Z) : Z :=
  match rows with
  | [] => acc
  | t :: rest => read_sum_i64 rest i (i64_add acc (default 0 (trr_Read <$> btr_Read t !! i)))
  end.

Fixpoint write_sum_i64 (rows : list BrokerThroughputResponse) (i : nat) (acc : Z) : Z :=
  match rows with
  | [] => acc
  | t :: rest => write_sum_i64 rest i (i64_add acc (default 0 (twr_Write <$> btr_Write t !! i)))
  end.



(** The key under which two samples collide: broker and time. *)
Definition sample_key (json_Unmarshal : string -> error + BrokerThroughput)
    (msg : StoredMsg) : option string * Time :=
  (bt_Name <$> decoded json_Unmarshal msg, msg_Time msg).

(** Two outcomes that differ at most in the order of the rows after the
    first. *)
Definition same_up_to_rows
    (o1 o2 : Outcome (list BrokerThroughputResponse * option error)) : Prop :=
  match o1, o2 with
  | Done (t1 :: rows1, e1), Done (t2 :: rows2, e2) =>
      t1 = t2 /\ Permutation rows1 rows2 /\ e1 = e2
  | Done ([], e1), Done ([], e2) => e1 = e2
  | Panic r1, Panic r2 => r1 = r2
  | _, _ => False
  end.

(** Two outcomes that differ at most in what the iteration order of the
    map of rows decides: the order of the rows after the first, and the
    times that the first row carries. *)
Definition same_up_to_iteration
    (o1 o2 : Outcome (list BrokerThroughputResponse * option error)) : Prop :=
  match o1, o2 with
  | Done (t1 :: rows1, e1), Done (t2 :: rows2, e2) =>
      btr_Name t1 = btr_Name t2
      /\ map trr_Read (btr_Read t1) = map trr_Read (btr_Read t2)
      /\ map twr_Write (btr_Write t1) = map twr_Write (btr_Write t2)
      /\ Permutation rows1 rows2 /\ e1 = e2
  | Done ([], e1), Done ([], e2) => e1 = e2
  | Panic r1, Panic r2 => r1 = r2
  | _, _ => False
  end.

(** ** Vocabulary for the sessions *)

(** The row of the broker [name] after the loop over [msgs], when the map
    held [old] for it before. *)
Definition row_of (json_Unmarshal : string -> error + BrokerThroughput)
    (tenantName name : string) (old : option BrokerThroughputResponse)
    (msgs : list StoredMsg) : option BrokerThroughputResponse :=
  match old, List.filter (from_broker json_Unmarshal name) msgs with
  | None, [] => None
  | None, l => Some (extend_row json_Unmarshal tenantName
                       (mkBrokerThroughputResponse name [] []) l)
  | Some e, l => Some (extend_row json_Unmarshal tenantName e l)
  end.

(** The log of a throughput session that reaches [cleanup:]. *)
Definition throughput_effects (env : Session) (state : StreamState) : list Effect :=
  let durableName := String.append "$memphis_fetch_throughput_consumer_" (nuid_Next env) in
  let reply := String.append durableName "_reply" in
  [ E_memphisStreamInfo throughputStreamNameV1;
    E_memphisAddConsumer throughputStreamNameV1
      (mkConsumerConfig (if 0 <? FirstSeq state then FirstSeq state else 1) durableName "");
    E_subscribeOnAcc reply;
    E_sendInternalAccountMsgWithReply throughputStreamNameV1 durableName reply (Msgs state);
    E_timer_Stop;
    E_unsubscribeOnAcc reply;
    E_AfterFunc_memphisRemoveConsumer 500 throughputStreamNameV1 durableName ].

(** The log of one call of [GetSystemLogs] that reaches [cleanup:]. *)
Definition logs_effects (env : Session) (amount startSeq : Z) (filterSubject : string)
    : list Effect :=
  let durableName := String.append "$memphis_fetch_logs_consumer_" (nuid_Next env) in
  let reply := String.append durableName "_reply" in
  [ E_memphisStreamInfo syslogsStreamName;
    E_memphisAddConsumer syslogsStreamName
      (mkConsumerConfig startSeq durableName
         (if String.eqb filterSubject "" then "" else filterSubject));
    E_subscribeOnAcc reply;
    E_sendInternalAccountMsgWithReply syslogsStreamName durableName reply amount;
    E_timer_Stop;
    E_unsubscribeOnAcc reply;
    E_AfterFunc_memphisRemoveConsumer 500 syslogsStreamName durableName ].

(** A snapshot of a stream that holds messages has a first sequence of at
    least 1. *)
Definition snapshot_sane (env : Session) : Prop :=
  match memphisStreamInfo env with
  | inr state => 1 <= FirstSeq state \/ Msgs state = 0
  | inl _ => True
  end.

(** The amounts asked of the store, one per fetch request, in order. *)
Fixpoint requests_of (log : list Effect) : list Z :=
  match log with
  | [] => []
  | E_sendInternalAccountMsgWithReply _ _ _ req :: rest => req :: requests_of rest
  | _ :: rest => requests_of rest
  end.

(** The amounts of [n] calls in a row, each made by the one before it at
    line 1036 with [amount*2]. *)
Fixpoint doubling (amount : Z) (n : nat) : list Z :=
  match n with
  | O => []
  | S n' => amount :: doubling (u64_mul amount 2) n'
  end.

(** What a log of effects says about the durable consumer. *)
Definition created (log : list Effect) (durable : string) : bool :=
  existsb (fun e => match e with
                    | E_memphisAddConsumer _ cc => String.eqb (Durable cc) durable
                    | _ => false
                    end) log.

Definition unsubscribed (log : list Effect) : bool :=
  existsb (fun e => match e with E_unsubscribeOnAcc _ => true | _ => false end) log.

Definition removal_scheduled (log : list Effect) (durable : string) : bool :=
  existsb (fun e => match e with
                    | E_AfterFunc_memphisRemoveConsumer _ _ d => String.eqb d durable
                    | _ => false
                    end) log.

(** What holds in every state the scheduler of the overview can reach. *)
Record overview_inv {ExtendedStation : Type} (r : TaskResults ExtendedStation)
    (s : Shared ExtendedStation) : Prop := mk_overview_inv {
  inv_wg : wg s = 3 - Z.of_nat (length (finished s));
  inv_once : NoDup (finished s);
  inv_err_from : forall e, generalErr s = Some e ->
    exists t, In t (finished s) /\ task_failed r t = Some e;
  inv_err_set : forall t e, In t (finished s) -> task_failed r t = Some e ->
    generalErr s <> None;
  inv_returned : forall d e, returned s = Some (d, e) ->
    wg s = 0 /\ e = generalErr s /\ (e <> None -> d = zero_MainOverviewData)
}.

(** ** More of the health pipeline (lines 1246-1273 and 1341-1382) *)

Definition checkPodStatus (cpu memory storage : Z) : string :=
  if (99 <? cpu) || (99 <? memory) || (99 <? storage) then unhealthyStatus
  else if (94 <? cpu) || (94 <? memory) || (94 <? storage) then dangerousStatus
  else if (84 <? cpu) || (84 <? memory) || (84 <? storage) then riskyStatus
  else healthyStatus.

(** The buckets left out of a composite literal are nil slices, which the
    lists here do not tell apart from empty ones. *)
Definition getComponentsStructByOneComp (comp : SysComponent) : Components :=
  if String.eqb (Status comp) unhealthyStatus then mkComponents [comp] [] [] []
  else if String.eqb (Status comp) dangerousStatus then mkComponents [] [comp] [] []
  else if String.eqb (Status comp) riskyStatus then mkComponents [] [] [comp] []
  else mkComponents [] [] [] [comp].

(** How severe a status label is; any other label counts as healthy, as
    in the [default] branch of the [switch]. *)
Definition severity (status : string) : Z :=
  if String.eqb status unhealthyStatus then 3
  else if String.eqb status dangerousStatus then 2
  else if String.eqb status riskyStatus then 1
  else 0.

(** The guard of [getRelevantPorts] on one key of [portsMap]; the pattern
    is a constant that compiles, so [regexp.MatchString] returns no
    error. *)
Definition port_match (name key : string) : bool :=
  if String.eqb name "memphis" then match_prefix_digits "memphis-" key
  else strings_Contains key name.

(** [for _, port := range ports { if !mPorts[port] { ... } }]. *)
Fixpoint ports_inner (ports : list Z) (mPorts : gmap Z bool) (res : list Z)
    : gmap Z bool * list Z :=
  match ports with
  | [] => (mPorts, res)
  | port :: rest =>
      if negb (default false (mPorts !! port))
      then ports_inner rest (<[port := true]> mPorts) (res ++ [port])
      else ports_inner rest mPorts res
  end.

(** [for key, ports := range portsMap], over the entries in the order the
    runtime yields them. *)
Fixpoint ports_loop (name : string) (entries : list (string * list Z))
    (mPorts : gmap Z bool) (res : list Z) : gmap Z bool * list Z :=
  match entries with
  | [] => (mPorts, res)
  | (key, ports) :: rest =>
      if port_match name key then
        let '(mPorts', res') := ports_inner ports mPorts res in
        ports_loop name rest mPorts' res'
      else ports_loop name rest mPorts res
  end.

Definition getRelevantPorts (name : string) (entries : list (string * list Z)) : list Z :=
  snd (ports_loop name entries ∅ []).

(** [checkIsMinikube] over the keys of [labels] in the order the runtime
    yields them; [strings_ToLower] is [strings.ToLower]. *)
Fixpoint checkIsMinikube (strings_ToLower : string -> string) (keys : list string) : bool :=
  match keys with
  | [] => false
  | key :: rest =>
      if strings_Contains (strings_ToLower key) "minikube" then true
      else checkIsMinikube strings_ToLower rest
  end.

(** What [mPorts] and [res] have in common while the loops of
    [getRelevantPorts] run. *)
Definition ports_seen (mPorts : gmap Z bool) (res : list Z) : Prop :=
  NoDup res /\ forall p, default false (mPorts !! p) = true <-> In p res.

(** How often the byte [c] occurs in [s]. *)
Fixpoint count_char (c : ascii) (s : string) : nat :=
  match s with
  | EmptyString => 0
  | String a s' => (if Ascii.eqb a c then 1 else 0) + count_char c s'
  end.

(** The two orders of lines 1070-1082 on the sequence numbers. *)
Definition seq_asc (a b : Log) : bool := MessageSeq a <? MessageSeq b.
Definition seq_desc (a b : Log) : bool := MessageSeq b <? MessageSeq a.

(** A row whose two series go together: as long as each other, not
    empty, and with the same time at every index. *)
Definition row_aligned (t : BrokerThroughputResponse) : Prop :=
  length (btr_Read t) = length (btr_Write t)
  /\ (0 < length (btr_Read t))%nat
  /\ forall i r w, btr_Read t !! i = Some r -> btr_Write t !! i = Some w ->
       trr_Timestamp r = twr_Timestamp w.

(** A row whose times never go back. *)
Definition row_ascending (t : BrokerThroughputResponse) : Prop :=
  StronglySorted (fun a b => Time_Before (trr_Timestamp b) (trr_Timestamp a) = false)
    (btr_Read t).

(** The number of samples that the rows hold. *)
Fixpoint samples_in (rows : list BrokerThroughputResponse) : nat :=
  match rows with
  | [] => 0
  | t :: rest => length (btr_Read t) + samples_in rest
  end.

(** ** The payload of the main overview *)

(** What the overview holds once the sub-queries whose flag is set have
    written their part. *)
Definition partial_overview {ExtendedStation : Type} (r : TaskResults ExtendedStation)
    (stations_done components_done throughput_done : bool)
    : MainOverviewData ExtendedStation :=
  let '(stations, totalMessages, totalDlsMsgs, _) := GetAllStationsDetails _ r in
  let '(systemComponents, metricsEnabled, _) := GetSystemComponents _ r in
  let '(brokersThroughputs, _) := BrokersThroughputs _ r in
  mkMainOverviewData ExtendedStation
    (if stations_done then Z.of_nat (length stations) else 0)
    (if stations_done then totalMessages else 0)
    (if stations_done then totalDlsMsgs else 0)
    (if components_done then systemComponents else [])
    (if stations_done then stations else [])
    false
    (if throughput_done then brokersThroughputs else [])
    (if components_done then metricsEnabled else false).

(** The payload made of the three results and the environment flag. *)
Definition composite_overview {ExtendedStation : Type} (r : TaskResults ExtendedStation)
    (k8sEnv : bool) : MainOverviewData ExtendedStation :=
  let '(stations, totalMessages, totalDlsMsgs, _) := GetAllStationsDetails _ r in
  let '(systemComponents, metricsEnabled, _) := GetSystemComponents _ r in
  let '(brokersThroughputs, _) := BrokersThroughputs _ r in
  mkMainOverviewData ExtendedStation (Z.of_nat (length stations)) totalMessages totalDlsMsgs
    systemComponents stations k8sEnv brokersThroughputs metricsEnabled.

(** ** Validation of schemas (lines 1450-1492) *)

Definition validateSchemaType (schemaType : string) : option error :=
  if String.eqb schemaType "protobuf" then None
  else if String.eqb schemaType "avro" || String.eqb schemaType "json"
  then Some "Json/Avro types are not supported at this time"
  else Some "unsupported schema type".

(** [pbparser_Parse] is the parser of the protobuf library, reduced to
    the error it returns. *)
Definition validateProtobufContent (pbparser_Parse : string -> option error)
    (schemaContent : string) : option error :=
  match pbparser_Parse schemaContent with
  | Some err => Some (String.append "Your Proto file is invalid: " err)
  | None => None
  end.

Definition validateSchemaContent (pbparser_Parse : string -> option error)
    (schemaContent schemaType : string) : option error :=
  if String.eqb schemaType "protobuf" then
    match validateProtobufContent pbparser_Parse schemaContent with
    | Some err => Some err
    | None => None
    end
  else None.

(** Kinds of effects, for counting them in a log. *)
Definition is_create (e : Effect) : bool :=
  match e with E_memphisAddConsumer _ _ => true | _ => false end.

Definition is_request (e : Effect) : bool :=
  match e with E_sendInternalAccountMsgWithReply _ _ _ _ => true | _ => false end.

Definition is_unsubscribe (e : Effect) : bool :=
  match e with E_unsubscribeOnAcc _ => true | _ => false end.

Definition is_removal (e : Effect) : bool :=
  match e with E_AfterFunc_memphisRemoveConsumer _ _ _ => true | _ => false end.

Definition count_effects (p : Effect -> bool) (log : list Effect) : nat :=
  length (List.filter p log).

(** The time that the total takes at index [i] when the rows are visited
    in the order given: that of the last row that reaches [i], and
    [start] when there is none. *)
Fixpoint read_time (rows : list BrokerThroughputResponse) (i : nat) (start : Time) : Time :=
  match rows with
  | [] => start
  | t :: rest =>
      read_time rest i (match btr_Read t !! i with
                        | Some r => trr_Timestamp r
                        | None => start
                        end)
  end.

(** ** Fixtures for the examples *)

Module Fixtures.

(** A decoder for a handful of payloads, enough to run the handler. *)
Definition json_Unmarshal (data : string) : error + BrokerThroughput :=
  if String.eqb data "b1:t1=10/1" then
    inr (mkBrokerThroughput "b1" {["t1" := 10]} {["t1" := 1]})
  else if String.eqb data "b1:t1=20/2" then
    inr (mkBrokerThroughput "b1" {["t1" := 20]} {["t1" := 2]})
  else if String.eqb data "b2:t1=5/2" then
    inr (mkBrokerThroughput "b2" {["t1" := 5]} {["t1" := 2]})
  else if String.eqb data "b1:t1=10/1,t2=7/7" then
    inr (mkBrokerThroughput "b1" {["t1" := 10; "t2" := 7]} {["t1" := 1; "t2" := 7]})
  else if String.eqb data "b2:t2=9/9" then
    inr (mkBrokerThroughput "b2" {["t2" := 9]} {["t2" := 9]})
  else if String.eqb data "b2:t2=1/1" then
    inr (mkBrokerThroughput "b2" {["t2" := 1]} {["t2" := 1]})
  else inl "invalid character".

Definition sample (data : string) (nsec : Z) : StoredMsg :=
  mkStoredMsg "$memphis_ws_pubs.throughput" 1 data (TimeUnix nsec).

Definition session (state : StreamState) (chan : list StoredMsg) : Session :=
  mkSession "uid" (inr state) None None chan.

Definition log_msg (subject : string) (seq : Z) : StoredMsg :=
  mkStoredMsg subject seq "line" (TimeUnix seq).

End Fixtures.

(** * Properties *)

(** ** Machine integers *)

Lemma two64_pos : 0 < two64.
Proof. reflexivity. Qed.

Lemma wrap_u64_range z : is_u64 (wrap_u64 z).
Proof. unfold is_u64, wrap_u64. apply Z.mod_pos_bound, two64_pos. Qed.

Lemma wrap_u64_small z : is_u64 z -> wrap_u64 z = z.
Proof. unfold is_u64, wrap_u64. intros H. apply Z.mod_small, H. Qed.

Lemma wrap_i64_range z : is_i64 (wrap_i64 z).
Proof.
  unfold is_i64, wrap_i64.
  pose proof (Z.mod_pos_bound (z + two63) two64 two64_pos) as H.
  change two64 with (2 * two63) in *. lia.
Qed.

Lemma wrap_i64_small z : is_i64 z -> wrap_i64 z = z.
Proof.
  unfold is_i64, wrap_i64. intros H.
  rewrite Z.mod_small; [lia|]. change two64 with (2 * two63). lia.
Qed.

Lemma wrap_i64_add_l x y : wrap_i64 (wrap_i64 x + y) = wrap_i64 (x + y).
Proof.
  unfold wrap_i64.
  replace ((x + two63) mod two64 - two63 + y + two63)
    with ((x + two63) mod two64 + y) by lia.
  rewrite Zplus_mod_idemp_l. f_equal. f_equal. lia.
Qed.

Lemma wrap_i64_add_r x y : wrap_i64 (x + wrap_i64 y) = wrap_i64 (x + y).
Proof. rewrite Z.add_comm, wrap_i64_add_l. f_equal. lia. Qed.

(** ** Health classification *)

Lemma bucket_loop_filter name l acc :
  bucket_loop name l acc =
  let matched := List.filter (family_match name) l in
  mkComponents (UnhealthyComponents acc ++ List.filter is_unhealthy matched)
               (DangerousComponents acc ++ List.filter is_dangerous matched)
               (RiskyComponents acc ++ List.filter is_risky matched)
               (HealthyComponents acc ++ List.filter is_healthy matched).
Proof.
  revert acc. induction l as [|c l IH]; intros acc; cbn.
  - rewrite !app_nil_r. by destruct acc.
  - rewrite IH. destruct (family_match name c) eqn:Hm; cbn; [|done].
    unfold bucket_add, is_healthy, is_risky, is_dangerous, is_unhealthy.
    destruct (String.eqb (Status c) unhealthyStatus) eqn:Hu; cbn.
    { by rewrite <- !app_assoc. }
    destruct (String.eqb (Status c) dangerousStatus) eqn:Hd; cbn.
    { by rewrite <- !app_assoc. }
    destruct (String.eqb (Status c) riskyStatus) eqn:Hr; cbn;
      by rewrite <- !app_assoc.
Qed.

Lemma pad_loop_replicate n name u :
  pad_loop n name u = u ++ replicate n (defaultSystemComp name false).
Proof.
  revert u. induction n as [|n IH]; intros u; cbn.
  - by rewrite app_nil_r.
  - rewrite IH, <- app_assoc. done.
Qed.

Lemma status_classes_partition (l : list SysComponent) :
  Permutation
    (List.filter is_unhealthy l ++ List.filter is_dangerous l
     ++ List.filter is_risky l ++ List.filter is_healthy l) l.
Proof.
  induction l as [|c l IH]; cbn; [done|].
  unfold is_healthy, is_risky, is_dangerous.
  destruct (is_unhealthy c) eqn:Hu; cbn.
  { by constructor. }
  fold (is_dangerous c).
  destruct (String.eqb (Status c) dangerousStatus) eqn:Hd; cbn.
  { rewrite <- Permutation_middle. by constructor. }
  destruct (String.eqb (Status c) riskyStatus) eqn:Hr; cbn.
  - rewrite (app_assoc (List.filter is_unhealthy l)), <- Permutation_middle.
    rewrite <- app_assoc. by constructor.
  - rewrite !app_assoc, <- Permutation_middle. rewrite <- !app_assoc. by constructor.
Qed.

Lemma status_classes_length (l : list SysComponent) :
  (length (List.filter is_unhealthy l) + length (List.filter is_dangerous l)
   + length (List.filter is_risky l) + length (List.filter is_healthy l))%nat = length l.
Proof.
  rewrite <- (Permutation_length (status_classes_partition l)).
  rewrite !length_app. lia.
Qed.

Lemma wrap_i64_sub_r x y : wrap_i64 (x - wrap_i64 y) = wrap_i64 (x - y).
Proof.
  unfold wrap_i64.
  assert (H64 : two64 = 2 * two63) by reflexivity.
  f_equal.
  replace (x - ((y + two63) mod two64 - two63) + two63)
    with (x + two64 - (y + two63) mod two64).
  - rewrite Zminus_mod_idemp_r. f_equal. lia.
  - set (M := (y + two63) mod two64). clearbody M. lia.
Qed.

(** The sum of the four lengths, wrapped or not, gives the same number of
    missing components. *)
Lemma missing_wrap desired c :
  i64_sub desired (bucket_lens c) = wrap_i64 (desired - bucket_total c).
Proof.
  unfold i64_sub, bucket_lens, bucket_total, i64_add.
  rewrite wrap_i64_add_l, <- Z.add_assoc, wrap_i64_add_l, Z.add_assoc.
  apply wrap_i64_sub_r.
Qed.

(** What [getRelevantComponents] returns, bucket by bucket. *)
Lemma getRelevantComponents_eq name components desired
    (matched := List.filter (family_match name) components) :
  getRelevantComponents name components desired
  = mkComponents
      (List.filter is_unhealthy matched
       ++ replicate (Z.to_nat (wrap_i64 (desired - Z.of_nat (length matched))))
            (defaultSystemComp name false))
      (List.filter is_dangerous matched) (List.filter is_risky matched)
      (List.filter is_healthy matched).
Proof.
  unfold getRelevantComponents. cbv zeta. rewrite missing_wrap.
  assert (Hacc : bucket_total (bucket_loop name components (mkComponents [] [] [] []))
                 = Z.of_nat (length matched)).
  { rewrite bucket_loop_filter. unfold bucket_total. cbn.
    fold matched. rewrite <- (status_classes_length matched). lia. }
  rewrite Hacc, bucket_loop_filter. cbn. fold matched. f_equal.
  destruct (Z.ltb_spec 0 (wrap_i64 (desired - Z.of_nat (length matched)))) as [Hlt|Hge].
  - apply pad_loop_replicate.
  - replace (Z.to_nat (wrap_i64 (desired - Z.of_nat (length matched)))) with 0%nat by lia.
    cbn. by rewrite app_nil_r.
Qed.

(** C8.  For a desired count that is an [int],
    [getRelevantComponents name components desired] puts every component
    that matches the family into the one bucket of its status (the four
    buckets are the four status classes of the matched components, in
    input order, and together they are a rearrangement of the matched
    components); when [desired] exceeds the number of matched components,
    exactly the difference in placeholders, named after the family,
    unhealthy and with all statistics zero, follows in the unhealthy
    bucket; when it does not, no placeholder is added as long as the
    subtraction of line 1232 stays above the least [int], and in every
    case the number of placeholders is the wrapped difference when that
    is positive; and [checkCompStatus] of the result is the label of the
    most severe bucket that is not empty. *)
Theorem getRelevantComponents_buckets (name : string) (components : list SysComponent)
    (desired : Z) :
  is_i64 desired ->
  let res := getRelevantComponents name components desired in
  let matched := List.filter (family_match name) components in
  let placeholder :=
    mkSysComponent name (mkCompStats 0%float 0%float 0) (mkCompStats 0%float 0%float 0)
      (mkCompStats 0%float 0%float 0) false "unhealthy" in
  (Z.of_nat (length matched) < desired ->
   UnhealthyComponents res =
     List.filter is_unhealthy matched
     ++ replicate (Z.to_nat (desired - Z.of_nat (length matched))) placeholder)
  /\ (desired <= Z.of_nat (length matched) ->
      - two63 <= desired - Z.of_nat (length matched) ->
      UnhealthyComponents res = List.filter is_unhealthy matched)
  /\ UnhealthyComponents res =
       List.filter is_unhealthy matched
       ++ replicate (Z.to_nat (wrap_i64 (desired - Z.of_nat (length matched)))) placeholder
  /\ DangerousComponents res = List.filter is_dangerous matched
  /\ RiskyComponents res = List.filter is_risky matched
  /\ HealthyComponents res = List.filter is_healthy matched
  /\ Permutation
       (List.filter is_unhealthy matched ++ DangerousComponents res
        ++ RiskyComponents res ++ HealthyComponents res) matched
  /\ checkCompStatus res =
       match UnhealthyComponents res, DangerousComponents res, RiskyComponents res with
       | _ :: _, _, _ => "unhealthy"
       | [], _ :: _, _ => "dangerous"
       | [], [], _ :: _ => "risky"
       | [], [], [] => "healthy"
       end.
Proof.
  intros Hd res matched placeholder.
  subst res. rewrite getRelevantComponents_eq. fold matched. cbn.
  change (defaultSystemComp name false) with placeholder.
  unfold is_i64 in Hd.
  split; [|split; [|split; [done|split; [done|split; [done|split; [done|split]]]]]].
  - intros Hlt. rewrite wrap_i64_small; [done|]. unfold is_i64. lia.
  - intros Hle Hlow. rewrite wrap_i64_small by (unfold is_i64; lia).
    replace (Z.to_nat (desired - Z.of_nat (length matched))) with 0%nat by lia.
    cbn. by rewrite app_nil_r.
  - apply status_classes_partition.
  - unfold checkCompStatus. cbn.
    destruct (List.filter is_unhealthy matched
              ++ replicate (Z.to_nat (wrap_i64 (desired - Z.of_nat (length matched))))
                   placeholder);
      cbn; [|done].
    destruct (List.filter is_dangerous matched); cbn; [|done].
    by destruct (List.filter is_risky matched).
Qed.

Lemma getRelevantComponents_buckets_witness :
  let stat := mkCompStats 0%float 0%float 10 in
  let broker n := mkSysComponent n stat stat stat true "healthy" in
  UnhealthyComponents
    (getRelevantComponents "memphis"
       [broker "memphis-0"; broker "memphis-1"; broker "memphis-metadata-0"] 3)
  = [defaultSystemComp "memphis" false].
Proof.
  intros stat broker.
  assert (Hd : is_i64 3) by (by vm_compute).
  destruct (getRelevantComponents_buckets "memphis"
              [broker "memphis-0"; broker "memphis-1"; broker "memphis-metadata-0"] 3 Hd)
    as [H _].
  apply H. vm_compute. reflexivity.
Defined.

(** Where the subtraction wraps: one healthy broker and a desired count of
    [-2^63] give [2^63 - 1] missing components, so the family is padded
    and rolled up as unhealthy although no more brokers are desired than
    there are. *)
Example getRelevantComponents_wraps :
  let stat := mkCompStats 0%float 0%float 10 in
  let res := getRelevantComponents "memphis"
               [mkSysComponent "memphis-0" stat stat stat true "healthy"] (- two63) in
  Z.of_nat (length (UnhealthyComponents res)) = two63 - 1
  /\ checkCompStatus res = "unhealthy".
Proof.
  cbv zeta.
  set (comp := mkSysComponent "memphis-0" _ _ _ true "healthy").
  rewrite getRelevantComponents_eq.
  assert (Hm : List.filter (family_match "memphis") [comp] = [comp]) by reflexivity.
  rewrite Hm.
  assert (Hu : List.filter is_unhealthy [comp] = []) by reflexivity.
  rewrite Hu.
  assert (Hw : wrap_i64 (- two63 - Z.of_nat (length [comp])) = two63 - 1) by reflexivity.
  rewrite Hw. unfold checkCompStatus. cbn [UnhealthyComponents app].
  rewrite length_replicate, Z2Nat.id by (by vm_compute). split; reflexivity.
Qed.

Example getRelevantComponents_padding :
  let stat := mkCompStats 0%float 0%float 10 in
  let broker n := mkSysComponent n stat stat stat true "healthy" in
  let res := getRelevantComponents "memphis"
               [broker "memphis-0"; broker "memphis-1"; broker "memphis-metadata-0"] 3 in
  UnhealthyComponents res = [defaultSystemComp "memphis" false]
  /\ HealthyComponents res = [broker "memphis-0"; broker "memphis-1"]
  /\ checkCompStatus res = "unhealthy".
Proof. cbv zeta. repeat split; reflexivity. Qed.

(** ** The window of a log query *)

(** C5, as amended.  For unsigned 64-bit inputs for which the start
    sequence of the table fits in 64 bits, the amount and the start
    sequence that [GetSystemLogs] computes are those of the
    start-sequence table: the amount is first capped by the message
    count; [getAll] starts at the first sequence with the amount set to
    the message count; [fromLast] starts at
    [max(1, last_seq - amount + 1)], which is 1 when the amount is not
    below [last_seq]; otherwise the start is
    [max(1, last_known_seq - amount + 1)], and when the amount is not
    below [last_known_seq] the start is 1 and the amount becomes
    [last_known_seq]. *)
Theorem log_window_start_sequence (state : StreamState) (amount lastKnownSeq : Z)
    (fromLast getAll : bool) :
  is_u64 (Msgs state) -> is_u64 (FirstSeq state) -> is_u64 (LastSeq state) ->
  is_u64 amount -> is_u64 lastKnownSeq ->
  snd (log_window_table state amount fromLast lastKnownSeq getAll) < two64 ->
  fst (log_window state amount fromLast lastKnownSeq getAll)
  = log_window_table state amount fromLast lastKnownSeq getAll.
Proof.
  unfold is_u64. intros HM HF HL Ha Hk.
  unfold log_window, log_window_table, min_uint64, u64_add, u64_sub, wrap_u64.
  change two64 with 18446744073709551616 in *.
  assert (Hmin : (if Msgs state <? amount then Msgs state else amount)
                 = Z.min (Msgs state) amount).
  { destruct (Z.ltb_spec (Msgs state) amount); lia. }
  rewrite Hmin. set (capped := Z.min (Msgs state) amount).
  assert (Hc : 0 <= capped < 18446744073709551616) by (subst capped; lia).
  clearbody capped. clear Hmin.
  destruct getAll; [done|]. destruct fromLast; cbn; intros Hfit.
  - destruct (Z.leb_spec (LastSeq state) capped) as [Hle|Hlt].
    + f_equal. lia.
    + f_equal. rewrite (Z.mod_small (LastSeq state - capped)) by lia.
      rewrite Z.mod_small by lia. lia.
  - destruct (Z.leb_spec lastKnownSeq capped) as [Hle|Hlt]; cbn.
    + f_equal. lia.
    + f_equal. rewrite (Z.mod_small (lastKnownSeq - capped)) by lia.
      rewrite Z.mod_small by lia. lia.
Qed.

Lemma log_window_start_sequence_witness :
  fst (log_window (mkStreamState 250 1 250) 50 true 0 false) = (50, 201)
  /\ fst (log_window (mkStreamState 250 1 250) 50 true 0 false)
     = log_window_table (mkStreamState 250 1 250) 50 true 0 false.
Proof.
  split; [reflexivity|].
  apply (log_window_start_sequence (mkStreamState 250 1 250) 50 0 true false);
    unfold is_u64, two64; cbn; lia.
Defined.

(** C5 as first stated fails at the top of the unsigned range: with no
    message to ask for and a last known sequence of [2^64 - 1], the
    [+ 1] wraps and the consumer starts at sequence 0, where the table
    says [max(1, 2^64)]. *)
Lemma log_window_wraps_at_max :
  is_u64 (two64 - 1)
  /\ fst (log_window (mkStreamState 0 0 0) 0 false (two64 - 1) false) = (0, 0)
  /\ log_window_table (mkStreamState 0 0 0) 0 false (two64 - 1) false = (0, two64)
  /\ fst (log_window (mkStreamState 0 0 0) 0 false (two64 - 1) false)
     <> log_window_table (mkStreamState 0 0 0) 0 false (two64 - 1) false.
Proof.
  repeat split; try reflexivity; try discriminate.
Qed.

(** ** Throughput aggregation *)

Lemma wrap_i64_idem z : wrap_i64 (wrap_i64 z) = wrap_i64 z.
Proof. apply wrap_i64_small, wrap_i64_range. Qed.

(** The induction behind both inner loops: entry [j] of the total grows
    by what the series holds at [j - i], and the loop panics exactly when
    the series runs past the end of the total. *)
Lemma total_add_read_spec rs : forall i totalRead,
  (i + length rs <= length totalRead)%nat ->
  (forall j c, totalRead !! j = Some c -> is_i64 (trr_Read c)) ->
  exists totalRead',
    total_add_read i rs totalRead = Some totalRead'
    /\ length totalRead' = length totalRead
    /\ (forall j c, totalRead' !! j = Some c -> is_i64 (trr_Read c))
    /\ (forall j c, totalRead !! j = Some c ->
          exists c', totalRead' !! j = Some c'
            /\ trr_Read c' =
               wrap_i64 (trr_Read c
                         + if (i <=? j)%nat then default 0 (trr_Read <$> rs !! (j - i)%nat)
                           else 0)).
Proof.
  induction rs as [|r rs IH]; intros i totalRead Hlen Hrange; cbn.
  - exists totalRead. split; [done|]. split; [done|]. split; [done|].
    intros j c Hj. exists c. split; [done|].
    rewrite lookup_nil. cbn. destruct (i <=? j)%nat; rewrite Z.add_0_r;
      symmetry; apply wrap_i64_small; eauto.
  - cbn in Hlen.
    destruct (lookup_lt_is_Some_2 totalRead i ltac:(lia)) as [cur Hcur].
    rewrite Hcur.
    set (new := mkThroughputReadResponse (trr_Timestamp r)
                  (i64_add (trr_Read cur) (trr_Read r))).
    destruct (IH (S i) (<[i:=new]> totalRead)) as (t' & Ht' & Hl' & Hr' & Hv').
    { rewrite length_insert. lia. }
    { intros j c Hj. destruct (decide (i = j)) as [->|Hne].
      - rewrite list_lookup_insert_eq in Hj by lia. inversion Hj; subst c.
        apply wrap_i64_range.
      - rewrite list_lookup_insert_ne in Hj by done. eauto. }
    exists t'. split; [done|]. split; [by rewrite Hl', length_insert|].
    split; [done|]. intros j c Hj.
    destruct (decide (i = j)) as [->|Hne].
    + destruct (Hv' j new) as (c' & Hc' & Hval).
      { rewrite list_lookup_insert_eq; [done|lia]. }
      exists c'. split; [done|]. rewrite Hval.
      rewrite Hcur in Hj. inversion Hj; subst c.
      replace (S j <=? j)%nat with false by (symmetry; apply Nat.leb_gt; lia).
      rewrite Nat.leb_refl, Nat.sub_diag. cbn.
      rewrite Z.add_0_r. unfold i64_add. apply wrap_i64_idem.
    + destruct (Hv' j c) as (c' & Hc' & Hval).
      { by rewrite list_lookup_insert_ne. }
      exists c'. split; [done|]. rewrite Hval. f_equal. f_equal.
      destruct (Nat.leb_spec (S i) j) as [Hle|Hgt].
      * replace (i <=? j)%nat with true by (symmetry; apply Nat.leb_le; lia).
        replace (j - i)%nat with (S (j - S i)) by lia. done.
      * replace (i <=? j)%nat with false by (symmetry; apply Nat.leb_gt; lia). done.
Qed.

Lemma total_add_read_panics rs : forall i totalRead,
  (length totalRead < i + length rs)%nat -> (i <= length totalRead)%nat ->
  total_add_read i rs totalRead = None.
Proof.
  induction rs as [|r rs IH]; intros i totalRead Hlen Hi; cbn in *; [lia|].
  destruct (totalRead !! i) as [cur|] eqn:Hcur; [|done].
  apply lookup_lt_Some in Hcur.
  apply IH; rewrite length_insert; lia.
Qed.

Lemma total_add_write_spec ws : forall i totalWrite,
  (i + length ws <= length totalWrite)%nat ->
  (forall j c, totalWrite !! j = Some c -> is_i64 (twr_Write c)) ->
  exists totalWrite',
    total_add_write i ws totalWrite = Some totalWrite'
    /\ length totalWrite' = length totalWrite
    /\ (forall j c, totalWrite' !! j = Some c -> is_i64 (twr_Write c))
    /\ (forall j c, totalWrite !! j = Some c ->
          exists c', totalWrite' !! j = Some c'
            /\ twr_Write c' =
               wrap_i64 (twr_Write c
                         + if (i <=? j)%nat then default 0 (twr_Write <$> ws !! (j - i)%nat)
                           else 0)).
Proof.
  induction ws as [|w ws IH]; intros i totalWrite Hlen Hrange; cbn.
  - exists totalWrite. split; [done|]. split; [done|]. split; [done|].
    intros j c Hj. exists c. split; [done|].
    rewrite lookup_nil. cbn. destruct (i <=? j)%nat; rewrite Z.add_0_r;
      symmetry; apply wrap_i64_small; eauto.
  - cbn in Hlen.
    destruct (lookup_lt_is_Some_2 totalWrite i ltac:(lia)) as [cur Hcur].
    rewrite Hcur.
    set (new := mkThroughputWriteResponse (twr_Timestamp w)
                  (i64_add (twr_Write cur) (twr_Write w))).
    destruct (IH (S i) (<[i:=new]> totalWrite)) as (t' & Ht' & Hl' & Hr' & Hv').
    { rewrite length_insert. lia. }
    { intros j c Hj. destruct (decide (i = j)) as [->|Hne].
      - rewrite list_lookup_insert_eq in Hj by lia. inversion Hj; subst c.
        apply wrap_i64_range.
      - rewrite list_lookup_insert_ne in Hj by done. eauto. }
    exists t'. split; [done|]. split; [by rewrite Hl', length_insert|].
    split; [done|]. intros j c Hj.
    destruct (decide (i = j)) as [->|Hne].
    + destruct (Hv' j new) as (c' & Hc' & Hval).
      { rewrite list_lookup_insert_eq; [done|lia]. }
      exists c'. split; [done|]. rewrite Hval.
      rewrite Hcur in Hj. inversion Hj; subst c.
      replace (S j <=? j)%nat with false by (symmetry; apply Nat.leb_gt; lia).
      rewrite Nat.leb_refl, Nat.sub_diag. cbn.
      rewrite Z.add_0_r. unfold i64_add. apply wrap_i64_idem.
    + destruct (Hv' j c) as (c' & Hc' & Hval).
      { by rewrite list_lookup_insert_ne. }
      exists c'. split; [done|]. rewrite Hval. f_equal. f_equal.
      destruct (Nat.leb_spec (S i) j) as [Hle|Hgt].
      * replace (i <=? j)%nat with true by (symmetry; apply Nat.leb_le; lia).
        replace (j - i)%nat with (S (j - S i)) by lia. done.
      * replace (i <=? j)%nat with false by (symmetry; apply Nat.leb_gt; lia). done.
Qed.


Lemma total_add_write_panics ws : forall i totalWrite,
  (length totalWrite < i + length ws)%nat -> (i <= length totalWrite)%nat ->
  total_add_write i ws totalWrite = None.
Proof.
  induction ws as [|w ws IH]; intros i totalWrite Hlen Hi; cbn in *; [lia|].
  destruct (totalWrite !! i) as [cur|] eqn:Hcur; [|done].
  apply lookup_lt_Some in Hcur.
  apply IH; rewrite length_insert; lia.
Qed.

Lemma total_add_read_length rs : forall i totalRead totalRead',
  total_add_read i rs totalRead = Some totalRead' -> length totalRead' = length totalRead.
Proof.
  induction rs as [|r rs IH]; intros i totalRead totalRead' H; cbn in H.
  - by inversion H.
  - destruct (totalRead !! i); [|done]. apply IH in H. by rewrite length_insert in H.
Qed.

Lemma total_add_write_length ws : forall i totalWrite totalWrite',
  total_add_write i ws totalWrite = Some totalWrite' -> length totalWrite' = length totalWrite.
Proof.
  induction ws as [|w ws IH]; intros i totalWrite totalWrite' H; cbn in H.
  - by inversion H.
  - destruct (totalWrite !! i); [|done]. apply IH in H. by rewrite length_insert in H.
Qed.

Lemma read_sum_i64_exact rows i : forall acc,
  is_i64 acc -> read_sum_i64 rows i acc = wrap_i64 (acc + read_sum rows i).
Proof.
  induction rows as [|t rows IH]; intros acc Hacc; cbn.
  - rewrite Z.add_0_r. symmetry. by apply wrap_i64_small.
  - rewrite IH by apply wrap_i64_range.
    unfold i64_add. rewrite wrap_i64_add_l. f_equal. lia.
Qed.

Lemma write_sum_i64_exact rows i : forall acc,
  is_i64 acc -> write_sum_i64 rows i acc = wrap_i64 (acc + write_sum rows i).
Proof.
  induction rows as [|t rows IH]; intros acc Hacc; cbn.
  - rewrite Z.add_0_r. symmetry. by apply wrap_i64_small.
  - rewrite IH by apply wrap_i64_range.
    unfold i64_add. rewrite wrap_i64_add_l. f_equal. lia.
Qed.

(** The outer loop when every row fits into the total. *)
Lemma total_loop_spec rows : forall throughputs totalRead totalWrite,
  Forall (fun t => (length (btr_Read t) <= length totalRead)%nat
                   /\ (length (btr_Write t) <= length totalWrite)%nat) rows ->
  (forall j c, totalRead !! j = Some c -> is_i64 (trr_Read c)) ->
  (forall j c, totalWrite !! j = Some c -> is_i64 (twr_Write c)) ->
  exists totalRead' totalWrite',
    total_loop rows throughputs totalRead totalWrite
      = Some (throughputs ++ rows, totalRead', totalWrite')
    /\ length totalRead' = length totalRead
    /\ length totalWrite' = length totalWrite
    /\ (forall j c, totalRead !! j = Some c ->
          exists c', totalRead' !! j = Some c'
            /\ trr_Read c' = wrap_i64 (trr_Read c + read_sum rows j))
    /\ (forall j c, totalWrite !! j = Some c ->
          exists c', totalWrite' !! j = Some c'
            /\ twr_Write c' = wrap_i64 (twr_Write c + write_sum rows j)).
Proof.
  induction rows as [|t rows IH]; intros thr tR tW Hfit HR HW; cbn.
  - exists tR, tW. rewrite app_nil_r. split; [done|]. split; [done|]. split; [done|].
    split; intros j c Hj; exists c; (split; [done|]); rewrite Z.add_0_r;
      symmetry; apply wrap_i64_small; eauto.
  - inversion Hfit as [|? ? [HtR HtW] Hrest]; subst.
    destruct (total_add_read_spec (btr_Read t) 0 tR) as (tR1 & E1 & L1 & R1 & V1);
      [cbn; lia|done|].
    destruct (total_add_write_spec (btr_Write t) 0 tW) as (tW1 & E2 & L2 & R2 & V2);
      [cbn; lia|done|].
    rewrite E1, E2.
    destruct (IH (thr ++ [t]) tR1 tW1) as (tR' & tW' & E & LR & LW & VR & VW);
      [by rewrite L1, L2|done|done|].
    exists tR', tW'. rewrite E, <- app_assoc. split; [done|].
    split; [congruence|]. split; [congruence|]. split.
    + intros j c Hj. destruct (V1 j c Hj) as (c1 & Hc1 & Hv1).
      destruct (VR j c1 Hc1) as (c' & Hc' & Hv'). exists c'. split; [done|].
      rewrite Hv', Hv1. cbn. rewrite Nat.sub_0_r, wrap_i64_add_l. f_equal. lia.
    + intros j c Hj. destruct (V2 j c Hj) as (c1 & Hc1 & Hv1).
      destruct (VW j c1 Hc1) as (c' & Hc' & Hv'). exists c'. split; [done|].
      rewrite Hv', Hv1. cbn. rewrite Nat.sub_0_r, wrap_i64_add_l. f_equal. lia.
Qed.

(** The outer loop when some row is longer than the total. *)
Lemma total_loop_panics rows : forall throughputs totalRead totalWrite,
  Exists (fun t => (length totalRead < length (btr_Read t))%nat
                   \/ (length totalWrite < length (btr_Write t))%nat) rows ->
  total_loop rows throughputs totalRead totalWrite = None.
Proof.
  induction rows as [|t rows IH]; intros thr tR tW Hex; [by inversion Hex|].
  cbn. destruct (total_add_read 0 (btr_Read t) tR) as [tR1|] eqn:E1; [|done].
  destruct (total_add_write 0 (btr_Write t) tW) as [tW1|] eqn:E2; [|done].
  pose proof (total_add_read_length _ _ _ _ E1) as L1.
  pose proof (total_add_write_length _ _ _ _ E2) as L2.
  inversion Hex as [? ? [Hlong|Hlong]|? ? Hrest]; subst.
  - rewrite total_add_read_panics in E1; [done|cbn; lia|lia].
  - rewrite total_add_write_panics in E2; [done|cbn; lia|lia].
  - apply IH. rewrite L1, L2. done.
Qed.

(** ** The map of rows *)

Lemma throughput_entry_lookup tenantName ts bt m k :
  throughput_entry tenantName ts bt m !! k =
  if decide (k = bt_Name bt) then
    let base := default (mkBrokerThroughputResponse (bt_Name bt) [] []) (m !! bt_Name bt) in
    Some (mkBrokerThroughputResponse (btr_Name base)
            (btr_Read base
               ++ [mkThroughputReadResponse ts (map_index (bt_ReadMap bt) tenantName)])
            (btr_Write base
               ++ [mkThroughputWriteResponse ts (map_index (bt_WriteMap bt) tenantName)]))
  else m !! k.
Proof.
  unfold throughput_entry, btr_index. case_decide as Hk.
  - subst k. rewrite lookup_insert_eq. cbn.
    destruct (m !! bt_Name bt) as [e|] eqn:He.
    + by rewrite He.
    + by rewrite lookup_insert_eq.
  - rewrite lookup_insert_ne by done.
    destruct (m !! bt_Name bt); [done|]. by rewrite lookup_insert_ne.
Qed.

(** After the loop, the row of a broker holds the samples of that broker,
    in the order of the messages. *)
Lemma throughput_map_lookup json_Unmarshal tenantName msgs : forall m,
  Forall (fun msg => is_Some (decoded json_Unmarshal msg)) msgs ->
  exists m',
    throughput_map json_Unmarshal tenantName msgs m = inr m'
    /\ forall name, m' !! name = row_of json_Unmarshal tenantName name (m !! name) msgs.
Proof.
  induction msgs as [|msg msgs IH]; intros m Hdec; cbn.
  - exists m. split; [done|]. intros name. unfold row_of, extend_row. cbn.
    destruct (m !! name) as [[n r w]|]; [|done]. cbn. by rewrite !app_nil_r.
  - inversion Hdec as [|? ? [bt Hbt] Hrest]; subst.
    unfold decoded in Hbt.
    destruct (json_Unmarshal (msg_Data msg)) as [err|bt'] eqn:Hjson; [done|].
    inversion Hbt; subst bt'.
    destruct (IH (throughput_entry tenantName (msg_Time msg) bt m) Hrest) as (m' & E & Hm').
    exists m'. split; [done|]. intros name. rewrite Hm', throughput_entry_lookup.
    assert (Hfb : from_broker json_Unmarshal name msg = String.eqb (bt_Name bt) name).
    { unfold from_broker, decoded. by rewrite Hjson. }
    unfold row_of. cbn [List.filter]. rewrite Hfb.
    case_decide as Hname.
    + subst name. rewrite String.eqb_refl. cbv zeta.
      assert (Hre : read_entry json_Unmarshal tenantName msg
                    = mkThroughputReadResponse (msg_Time msg)
                        (map_index (bt_ReadMap bt) tenantName)).
      { unfold read_entry, decoded. by rewrite Hjson. }
      assert (Hwe : write_entry json_Unmarshal tenantName msg
                    = mkThroughputWriteResponse (msg_Time msg)
                        (map_index (bt_WriteMap bt) tenantName)).
      { unfold write_entry, decoded. by rewrite Hjson. }
      destruct (m !! bt_Name bt) as [e|]; unfold extend_row; cbn;
        rewrite Hre, Hwe, <- ?app_assoc; done.
    + assert (Hneq : String.eqb (bt_Name bt) name = false).
      { apply String.eqb_neq. congruence. }
      rewrite Hneq. done.
Qed.

Lemma filter_Permutation_bool {A : Type} (f : A -> bool) (l l' : list A) :
  Permutation l l' -> Permutation (List.filter f l) (List.filter f l').
Proof.
  induction 1 as [|x l l' _ IH|x y l|l l' l'' _ IH1 _ IH2]; cbn.
  - done.
  - destruct (f x); [by constructor|done].
  - destruct (f x), (f y); try done. apply perm_swap.
  - by etransitivity.
Qed.

(** ** The samples that the rows hold *)

Lemma concat_map_perm {A B : Type} (f : A -> list B) (l l' : list A) :
  Permutation l l' -> Permutation (concat (map f l)) (concat (map f l')).
Proof.
  induction 1 as [|x l l' _ IH|x y l|l l' l'' _ IH1 _ IH2]; cbn.
  - done.
  - by apply Permutation_app_head.
  - rewrite !app_assoc. apply Permutation_app_tail, Permutation_app_comm.
  - by etransitivity.
Qed.

(** The entries of the rows of a map, with the row of one key in front. *)
Lemma rows_lookup {B : Type} (f : BrokerThroughputResponse -> list B)
    (m : gmap string BrokerThroughputResponse) name :
  Permutation (concat (map f (map snd (map_to_list m))))
    (match m !! name with Some e => f e | None => [] end
     ++ concat (map f (map snd (map_to_list (delete name m))))).
Proof.
  destruct (m !! name) as [e|] eqn:He.
  - rewrite (concat_map_perm f _ (map snd ((name, e) :: map_to_list (delete name m)))).
    + done.
    + apply Permutation_map. symmetry. by apply map_to_list_delete.
  - by rewrite delete_id.
Qed.

Lemma throughput_entry_delete tenantName ts bt m :
  delete (bt_Name bt) (throughput_entry tenantName ts bt m) = delete (bt_Name bt) m.
Proof.
  apply map_eq. intros k. destruct (decide (k = bt_Name bt)) as [->|Hne].
  - by rewrite !lookup_delete_eq.
  - rewrite !lookup_delete_ne by done. rewrite throughput_entry_lookup.
    by rewrite decide_False.
Qed.

(** One pass of the loop adds one entry to the rows, and keeps the rest. *)
Lemma throughput_entry_reads tenantName ts bt m :
  Permutation
    (concat (map btr_Read (map snd (map_to_list (throughput_entry tenantName ts bt m)))))
    (mkThroughputReadResponse ts (map_index (bt_ReadMap bt) tenantName)
     :: concat (map btr_Read (map snd (map_to_list m)))).
Proof.
  rewrite (rows_lookup btr_Read (throughput_entry tenantName ts bt m) (bt_Name bt)).
  rewrite (rows_lookup btr_Read m (bt_Name bt)).
  rewrite throughput_entry_lookup, decide_True by done. cbv zeta.
  rewrite throughput_entry_delete.
  destruct (m !! bt_Name bt) as [e|]; cbn; [|done].
  rewrite <- app_assoc. cbn. symmetry. apply Permutation_middle.
Qed.

Lemma throughput_entry_writes tenantName ts bt m :
  Permutation
    (concat (map btr_Write (map snd (map_to_list (throughput_entry tenantName ts bt m)))))
    (mkThroughputWriteResponse ts (map_index (bt_WriteMap bt) tenantName)
     :: concat (map btr_Write (map snd (map_to_list m)))).
Proof.
  rewrite (rows_lookup btr_Write (throughput_entry tenantName ts bt m) (bt_Name bt)).
  rewrite (rows_lookup btr_Write m (bt_Name bt)).
  rewrite throughput_entry_lookup, decide_True by done. cbv zeta.
  rewrite throughput_entry_delete.
  destruct (m !! bt_Name bt) as [e|]; cbn; [|done].
  rewrite <- app_assoc. cbn. symmetry. apply Permutation_middle.
Qed.

(** The loop adds the entry of every message, with its time and the
    values of the tenant, and nothing else. *)
Lemma throughput_map_entries json_Unmarshal tenantName msgs : forall m m',
  throughput_map json_Unmarshal tenantName msgs m = inr m' ->
  Permutation (concat (map btr_Read (map snd (map_to_list m'))))
    (concat (map btr_Read (map snd (map_to_list m)))
     ++ map (read_entry json_Unmarshal tenantName) msgs)
  /\ Permutation (concat (map btr_Write (map snd (map_to_list m'))))
       (concat (map btr_Write (map snd (map_to_list m)))
        ++ map (write_entry json_Unmarshal tenantName) msgs).
Proof.
  induction msgs as [|msg msgs IH]; intros m m' H; cbn in H.
  - inversion H; subst. cbn. by rewrite !app_nil_r.
  - destruct (json_Unmarshal (msg_Data msg)) as [err|bt] eqn:Hj; [done|].
    destruct (IH _ _ H) as [HR HW]. cbn [map].
    assert (Hre : read_entry json_Unmarshal tenantName msg
                  = mkThroughputReadResponse (msg_Time msg)
                      (map_index (bt_ReadMap bt) tenantName)).
    { unfold read_entry, decoded. by rewrite Hj. }
    assert (Hwe : write_entry json_Unmarshal tenantName msg
                  = mkThroughputWriteResponse (msg_Time msg)
                      (map_index (bt_WriteMap bt) tenantName)).
    { unfold write_entry, decoded. by rewrite Hj. }
    rewrite Hre, Hwe. split.
    + rewrite HR, throughput_entry_reads. cbn. apply Permutation_middle.
    + rewrite HW, throughput_entry_writes. cbn. apply Permutation_middle.
Qed.

(** ** Running a throughput session *)

Ltac run_eff :=
  unfold run, cleanup, emit, mbind, Eff_bind, mret, Eff_ret; cbn.

(** A session whose three calls succeed reads, cleans up and aggregates. *)
Lemma GetBrokersThroughputs_reads W json_Unmarshal sort_Slice rangeMap env tenantName state :
  memphisStreamInfo env = inr state ->
  memphisAddConsumer env = None ->
  subscribeOnAcc env = None ->
  run (GetBrokersThroughputs W json_Unmarshal sort_Slice rangeMap env tenantName)
  = (match throughput_map json_Unmarshal tenantName
             (sort_Slice _ msg_less (fetched env (Msgs state))) ∅ with
     | inl err => Done ([], Some err)
     | inr m => throughput_rows W (rangeMap m)
     end,
     throughput_effects env state).
Proof.
  intros H1 H2 H3. unfold GetBrokersThroughputs. run_eff.
  rewrite H1. cbn. rewrite H2. cbn. rewrite H3. cbn. unfold fetched.
  by destruct (throughput_map json_Unmarshal tenantName
                 (sort_Slice StoredMsg msg_less
                    (read_loop (responseChan env) 0 (Msgs state) [])) ∅).
Qed.

(** The rows with the total in front, when every row fits the window. *)
Lemma throughput_rows_spec W rows :
  Forall (fun t => (length (btr_Read t) <= W)%nat /\ (length (btr_Write t) <= W)%nat) rows ->
  exists total,
    throughput_rows W rows = Done (total :: rows, None)
    /\ btr_Name total = "total"
    /\ length (btr_Read total) = W
    /\ length (btr_Write total) = W
    /\ (forall i, (i < W)%nat ->
          trr_Read <$> btr_Read total !! i = Some (wrap_i64 (read_sum rows i))
          /\ twr_Write <$> btr_Write total !! i = Some (wrap_i64 (write_sum rows i))).
Proof.
  intros Hfit. unfold throughput_rows.
  set (zr := replicate W (mkThroughputReadResponse TimeZero 0)).
  set (zw := replicate W (mkThroughputWriteResponse TimeZero 0)).
  assert (Hzr : forall j c, zr !! j = Some c -> c = mkThroughputReadResponse TimeZero 0).
  { intros j c Hj. apply lookup_replicate in Hj. tauto. }
  assert (Hzw : forall j c, zw !! j = Some c -> c = mkThroughputWriteResponse TimeZero 0).
  { intros j c Hj. apply lookup_replicate in Hj. tauto. }
  destruct (total_loop_spec rows [] zr zw) as (tR & tW & E & LR & LW & VR & VW).
  - subst zr zw. by rewrite !length_replicate.
  - intros j c Hj. rewrite (Hzr j c Hj). cbn. by vm_compute.
  - intros j c Hj. rewrite (Hzw j c Hj). cbn. by vm_compute.
  - rewrite E. cbn. eexists. split; [done|]. cbn.
    subst zr zw. rewrite length_replicate in LR. rewrite length_replicate in LW.
    split; [done|]. split; [done|]. split; [done|].
    intros i Hi. split.
    + destruct (VR i (mkThroughputReadResponse TimeZero 0)) as (c' & Hc' & Hv).
      { apply lookup_replicate. auto. }
      rewrite Hc'. cbn. by rewrite Hv.
    + destruct (VW i (mkThroughputWriteResponse TimeZero 0)) as (c' & Hc' & Hv).
      { apply lookup_replicate. auto. }
      rewrite Hc'. cbn. by rewrite Hv.
Qed.

Lemma throughput_rows_panics W rows :
  Exists (fun t => (W < length (btr_Read t))%nat \/ (W < length (btr_Write t))%nat) rows ->
  throughput_rows W rows = Panic index_out_of_range.
Proof.
  intros Hex. unfold throughput_rows. rewrite total_loop_panics; [done|].
  by rewrite !length_replicate.
Qed.

(** ** Insertion sort meets the contract of [sort.Slice] *)

Section InsertionSort.

Context {A : Type} (less : A -> A -> bool).

Lemma insert_sorted_perm x l : Permutation (insert_sorted less x l) (x :: l).
Proof.
  induction l as [|h t IH]; cbn; [done|].
  destruct (less h x); [|done].
  rewrite IH. apply perm_swap.
Qed.

Lemma insertion_sort_aux_perm l : Permutation (insertion_sort_aux less l) l.
Proof.
  induction l as [|x t IH]; cbn; [done|].
  rewrite insert_sorted_perm. by constructor.
Qed.

Lemma insert_sorted_ordered x l :
  less_ok less -> ordered less l -> ordered less (insert_sorted less x l).
Proof.
  intros [Hasym Hco]. unfold ordered. induction 1 as [|h t Hs IH Hall]; cbn.
  - repeat constructor.
  - destruct (less h x) eqn:Hhx.
    + constructor; [done|].
      eapply Permutation_Forall; [symmetry; apply insert_sorted_perm|].
      constructor; [by apply Hasym|done].
    + constructor; [by constructor|].
      constructor; [done|].
      eapply Forall_impl; [exact Hall|]. cbn. intros y Hy. by apply (Hco x h y).
Qed.

Lemma insertion_sort_aux_ordered l : less_ok less -> ordered less (insertion_sort_aux less l).
Proof.
  intros Hok. induction l as [|x t IH]; cbn; [constructor|].
  by apply insert_sorted_ordered.
Qed.

End InsertionSort.

Lemma insertion_sort_ok : sorter_ok insertion_sort.
Proof.
  intros A less l. unfold insertion_sort. split.
  - apply insertion_sort_aux_perm.
  - apply insertion_sort_aux_ordered.
Qed.


Lemma range_by_key_ok : range_ok range_by_key.
Proof. intros m. done. Qed.

Lemma msg_less_ok : less_ok msg_less.
Proof.
  unfold msg_less. split.
  - intros x y. destruct (msg_Time x), (msg_Time y); cbn; try done. lia.
  - intros x y z. destruct (msg_Time x), (msg_Time y), (msg_Time z); cbn; try done. lia.
Qed.

(** ** The ways in which a throughput query ends *)

Lemma throughput_map_inl json_Unmarshal tenantName msgs : forall m e,
  throughput_map json_Unmarshal tenantName msgs m = inl e ->
  exists msg, In msg msgs /\ json_Unmarshal (msg_Data msg) = inl e.
Proof.
  induction msgs as [|msg msgs IH]; intros m e H; cbn in H; [done|].
  destruct (json_Unmarshal (msg_Data msg)) as [err|bt] eqn:Hj.
  - inversion H; subst. exists msg. split; [by left|done].
  - destruct (IH _ _ H) as (msg' & Hin & Hm). exists msg'. split; [by right|done].
Qed.

Lemma throughput_map_inr json_Unmarshal tenantName msgs : forall m m',
  throughput_map json_Unmarshal tenantName msgs m = inr m' ->
  Forall (fun msg => is_Some (decoded json_Unmarshal msg)) msgs.
Proof.
  induction msgs as [|msg msgs IH]; intros m m' H; cbn in H; [constructor|].
  destruct (json_Unmarshal (msg_Data msg)) as [err|bt] eqn:Hj; [done|].
  constructor; [|by eapply IH]. unfold decoded. rewrite Hj. by eexists.
Qed.

Lemma total_loop_shape rows : forall throughputs totalRead totalWrite thr' tR' tW',
  total_loop rows throughputs totalRead totalWrite = Some (thr', tR', tW') ->
  thr' = throughputs ++ rows
  /\ length tR' = length totalRead /\ length tW' = length totalWrite.
Proof.
  induction rows as [|t rows IH]; intros thr tR tW thr' tR' tW' H; cbn in H.
  - inversion H; subst. by rewrite app_nil_r.
  - destruct (total_add_read 0 (btr_Read t) tR) as [tR1|] eqn:E1; [|done].
    destruct (total_add_write 0 (btr_Write t) tW) as [tW1|] eqn:E2; [|done].
    apply IH in H as (-> & HR & HW).
    rewrite <- app_assoc, HR, HW.
    rewrite (total_add_read_length _ _ _ _ E1), (total_add_write_length _ _ _ _ E2). done.
Qed.

(** Every way in which a throughput query can end. *)
Lemma GetBrokersThroughputs_result W json_Unmarshal sort_Slice rangeMap env tenantName :
  let result :=
    fst (run (GetBrokersThroughputs W json_Unmarshal sort_Slice rangeMap env tenantName)) in
  (exists e,
      result = Done ([], Some e)
      /\ (memphisStreamInfo env = inl e \/ memphisAddConsumer env = Some e
          \/ subscribeOnAcc env = Some e
          \/ exists state msg,
               memphisStreamInfo env = inr state
               /\ In msg (sort_Slice _ msg_less (fetched env (Msgs state)))
               /\ json_Unmarshal (msg_Data msg) = inl e))
  \/ (exists state m,
        memphisStreamInfo env = inr state
        /\ throughput_map json_Unmarshal tenantName
             (sort_Slice _ msg_less (fetched env (Msgs state))) ∅ = inr m
        /\ (result = Panic index_out_of_range
            \/ exists total,
                 result = Done (total :: rangeMap m, None)
                 /\ btr_Name total = "total"
                 /\ length (btr_Read total) = W /\ length (btr_Write total) = W)).
Proof.
  cbv zeta.
  destruct (memphisStreamInfo env) as [err|state] eqn:Hinfo.
  { left. exists err. unfold GetBrokersThroughputs. run_eff. rewrite Hinfo. cbn. tauto. }
  destruct (memphisAddConsumer env) as [err|] eqn:Hadd.
  { left. exists err. unfold GetBrokersThroughputs. run_eff. rewrite Hinfo. cbn.
    rewrite Hadd. cbn. tauto. }
  destruct (subscribeOnAcc env) as [err|] eqn:Hsub.
  { left. exists err. unfold GetBrokersThroughputs. run_eff. rewrite Hinfo. cbn.
    rewrite Hadd. cbn. rewrite Hsub. cbn. tauto. }
  rewrite (GetBrokersThroughputs_reads _ _ _ _ _ _ state) by done. cbn [fst].
  destruct (throughput_map json_Unmarshal tenantName
              (sort_Slice _ msg_less (fetched env (Msgs state))) ∅) as [err|m] eqn:E.
  - left. exists err. split; [done|]. do 3 right.
    destruct (throughput_map_inl _ _ _ _ _ E) as (msg & Hin & Hm). by exists state, msg.
  - right. exists state, m. split; [done|]. split; [done|].
    unfold throughput_rows.
    destruct (total_loop (rangeMap m) [] _ _) as [[[thr tR] tW]|] eqn:El; [|by left].
    right. apply total_loop_shape in El as (-> & HR & HW).
    rewrite length_replicate in HR. rewrite length_replicate in HW.
    eexists. split; [done|]. done.
Qed.

(** What the rows after the total are, in a query that returns rows. *)
Lemma GetBrokersThroughputs_rows W json_Unmarshal sort_Slice rangeMap env tenantName
    total rows :
  range_ok rangeMap ->
  fst (run (GetBrokersThroughputs W json_Unmarshal sort_Slice rangeMap env tenantName))
  = Done (total :: rows, None) ->
  exists state m,
    memphisStreamInfo env = inr state
    /\ rows = rangeMap m
    /\ Forall (fun msg => is_Some (decoded json_Unmarshal msg))
         (sort_Slice _ msg_less (fetched env (Msgs state)))
    /\ throughput_map json_Unmarshal tenantName
         (sort_Slice _ msg_less (fetched env (Msgs state))) ∅ = inr m
    /\ forall t, In t rows ->
         exists name x l,
           m !! name = Some t
           /\ List.filter (from_broker json_Unmarshal name)
                (sort_Slice _ msg_less (fetched env (Msgs state))) = x :: l
           /\ t = extend_row json_Unmarshal tenantName
                    (mkBrokerThroughputResponse name [] []) (x :: l).
Proof.
  intros Hrange Hres.
  destruct (GetBrokersThroughputs_result W json_Unmarshal sort_Slice rangeMap env tenantName)
    as [(e & He & _)|(state & m & Hinfo & Hm & [Hp|(total' & Ht & _)])];
    cbv zeta in *; rewrite Hres in *; try done.
  inversion Ht; subst. exists state, m. split; [done|]. split; [done|].
  pose proof (throughput_map_inr _ _ _ _ _ Hm) as Hdec. split; [done|]. split; [done|].
  destruct (throughput_map_lookup json_Unmarshal tenantName _ ∅ Hdec) as (m2 & E & Hl).
  rewrite Hm in E. inversion E; subst m2.
  intros t Hin. apply (Permutation_in _ (Hrange m)) in Hin.
  apply in_map_iff in Hin as ([name t'] & Ht' & Hin). cbn in Ht'. subst t'.
  apply list_elem_of_In, elem_of_map_to_list in Hin.
  pose proof Hin as Hin'. rewrite Hl, lookup_empty in Hin'. unfold row_of in Hin'.
  destruct (List.filter (from_broker json_Unmarshal name)
              (sort_Slice _ msg_less (fetched env (Msgs state)))) as [|x l] eqn:Hf; [done|].
  exists name, x, l. split; [done|]. split; [done|]. by inversion Hin'.
Qed.

(** The rows after the total are the rows of the brokers with a fetched
    sample, one for each. *)
Lemma GetBrokersThroughputs_rows_iff W json_Unmarshal sort_Slice rangeMap env tenantName
    total rows :
  range_ok rangeMap ->
  fst (run (GetBrokersThroughputs W json_Unmarshal sort_Slice rangeMap env tenantName))
  = Done (total :: rows, None) ->
  exists state,
    memphisStreamInfo env = inr state
    /\ memphisAddConsumer env = None
    /\ subscribeOnAcc env = None
    /\ Forall (fun msg => is_Some (decoded json_Unmarshal msg))
         (sort_Slice _ msg_less (fetched env (Msgs state)))
    /\ NoDup (map btr_Name rows)
    /\ forall t, In t rows <->
         exists name,
           row_of json_Unmarshal tenantName name None
             (sort_Slice _ msg_less (fetched env (Msgs state))) = Some t.
Proof.
  intros Hrange Hres.
  destruct (GetBrokersThroughputs_rows _ _ _ _ _ _ _ _ Hrange Hres)
    as (state & m & Hinfo & -> & Hdec & Hmap & _).
  exists state. split; [done|].
  assert (Hadd : memphisAddConsumer env = None).
  { destruct (memphisAddConsumer env) as [err|] eqn:Hadd; [|done].
    revert Hres. unfold GetBrokersThroughputs. run_eff. rewrite Hinfo. cbn.
    rewrite Hadd. done. }
  assert (Hsub : subscribeOnAcc env = None).
  { destruct (subscribeOnAcc env) as [err|] eqn:Hsub; [|done].
    revert Hres. unfold GetBrokersThroughputs. run_eff. rewrite Hinfo. cbn.
    rewrite Hadd. cbn. rewrite Hsub. done. }
  split; [done|]. split; [done|]. split; [done|].
  destruct (throughput_map_lookup json_Unmarshal tenantName _ ∅ Hdec) as (m2 & E & Hl).
  assert (m2 = m) as -> by congruence.
  assert (Hin : forall t, In t (rangeMap m) <-> exists name, m !! name = Some t).
  { intros t. split.
    - intros Hin. apply (Permutation_in _ (Hrange m)) in Hin.
      apply in_map_iff in Hin as ([name t'] & Ht' & Hin). cbn in Ht'. subst t'.
      apply list_elem_of_In, elem_of_map_to_list in Hin. by exists name.
    - intros [name Hname].
      apply (Permutation_in _ (Permutation_sym (Hrange m))).
      apply in_map_iff. exists (name, t). split; [done|].
      by apply list_elem_of_In, elem_of_map_to_list. }
  split.
  - assert (Hkeyed : forall kv, In kv (map_to_list m) -> btr_Name (snd kv) = fst kv).
    { intros [k t] Hk. apply list_elem_of_In, elem_of_map_to_list in Hk. cbn.
      rewrite Hl, lookup_empty in Hk. unfold row_of in Hk.
      destruct (List.filter (from_broker json_Unmarshal k) _) as [|y l2]; [done|].
      by inversion Hk. }
    eapply NoDup_Permutation_proper.
    { apply Permutation_map. apply (Hrange m). }
    rewrite map_map.
    rewrite (map_ext_in _ fst); [apply NoDup_fst_map_to_list|].
    intros kv Hk. by apply Hkeyed.
  - intros t. rewrite Hin. split; intros [name Hname]; exists name.
    + by rewrite Hl, lookup_empty in Hname.
    + by rewrite Hl, lookup_empty.
Qed.


(** ** What the iteration order of the rows decides *)

Lemma range_rev_ok : range_ok range_rev.
Proof. intros m. unfold range_rev. symmetry. apply Permutation_rev. Qed.

Lemma read_sum_perm rows rows' i :
  Permutation rows rows' -> read_sum rows i = read_sum rows' i.
Proof.
  induction 1 as [|x l l' _ IH|x y l|l l' l'' _ IH1 _ IH2]; cbn; lia.
Qed.

Lemma write_sum_perm rows rows' i :
  Permutation rows rows' -> write_sum rows i = write_sum rows' i.
Proof.
  induction 1 as [|x l l' _ IH|x y l|l l' l'' _ IH1 _ IH2]; cbn; lia.
Qed.

(** Visiting the same rows in another order gives the same panic or the
    same rows in that order, under a total with the same values. *)
Lemma throughput_rows_perm W rows1 rows2 :
  Permutation rows1 rows2 ->
  same_up_to_iteration (throughput_rows W rows1) (throughput_rows W rows2).
Proof.
  intros Hperm.
  set (fits := fun t => (length (btr_Read t) <= W)%nat /\ (length (btr_Write t) <= W)%nat).
  set (long := fun t => (W < length (btr_Read t))%nat \/ (W < length (btr_Write t))%nat).
  assert (Hdec : forall t, {fits t} + {long t}).
  { intros t. unfold fits, long.
    destruct (le_lt_dec (length (btr_Read t)) W); [|by right; left].
    destruct (le_lt_dec (length (btr_Write t)) W); [by left|by right; right]. }
  destruct (Forall_Exists_dec fits long Hdec rows1) as [Hfit|Hlong].
  - assert (Hfit2 : Forall fits rows2).
    { eapply Permutation_Forall; [exact Hperm|done]. }
    destruct (throughput_rows_spec W rows1 Hfit) as (t1 & E1 & N1 & LR1 & LW1 & V1).
    destruct (throughput_rows_spec W rows2 Hfit2) as (t2 & E2 & N2 & LR2 & LW2 & V2).
    rewrite E1, E2. cbn. split; [congruence|].
    split; [|split; [|done]].
    + change (trr_Read <$> btr_Read t1 = trr_Read <$> btr_Read t2).
      apply list_eq. intros i. rewrite !list_lookup_fmap.
      destruct (decide (i < W)%nat) as [Hi|Hi].
      * rewrite (proj1 (V1 i Hi)), (proj1 (V2 i Hi)).
        by rewrite (read_sum_perm _ _ i Hperm).
      * rewrite !lookup_ge_None_2 by lia. done.
    + change (twr_Write <$> btr_Write t1 = twr_Write <$> btr_Write t2).
      apply list_eq. intros i. rewrite !list_lookup_fmap.
      destruct (decide (i < W)%nat) as [Hi|Hi].
      * rewrite (proj2 (V1 i Hi)), (proj2 (V2 i Hi)).
        by rewrite (write_sum_perm _ _ i Hperm).
      * rewrite !lookup_ge_None_2 by lia. done.
  - assert (Hlong2 : Exists long rows2).
    { apply List.Exists_exists. apply List.Exists_exists in Hlong as (t & Hin & Ht).
      exists t. split; [|done]. by eapply Permutation_in. }
    rewrite (throughput_rows_panics W rows1 Hlong), (throughput_rows_panics W rows2 Hlong2).
    done.
Qed.


(** ** The rows of a run *)

Section Aggregation.

Variable json_Unmarshal : string -> error + BrokerThroughput.
Variable sort_Slice : Sorter.
Variable rangeMap : gmap string BrokerThroughputResponse -> list BrokerThroughputResponse.
Hypothesis sort_Slice_ok : sorter_ok sort_Slice.
Hypothesis rangeMap_ok : range_ok rangeMap.

Lemma sorted_samples_map tenantName msgs :
  Forall (fun msg => is_Some (decoded json_Unmarshal msg)) msgs ->
  exists m,
    throughput_map json_Unmarshal tenantName (sort_Slice _ msg_less msgs) ∅ = inr m
    /\ (forall name,
          m !! name = row_of json_Unmarshal tenantName name None
                        (sort_Slice _ msg_less msgs))
    /\ (forall t, In t (rangeMap m) ->
          exists name,
            m !! name = Some t
            /\ length (btr_Read t)
               = length (List.filter (from_broker json_Unmarshal name) msgs)
            /\ length (btr_Write t)
               = length (List.filter (from_broker json_Unmarshal name) msgs)).
Proof.
  intros Hdec. destruct (sort_Slice_ok _ msg_less msgs) as [Hperm _].
  assert (Hdec' : Forall (fun msg => is_Some (decoded json_Unmarshal msg))
                    (sort_Slice _ msg_less msgs)).
  { eapply Permutation_Forall; [symmetry; exact Hperm|done]. }
  destruct (throughput_map_lookup json_Unmarshal tenantName _ ∅ Hdec') as (m & E & Hl).
  exists m. split; [done|]. split.
  { intros name. by rewrite Hl, lookup_empty. }
  intros t Hin. apply (Permutation_in _ (rangeMap_ok m)) in Hin.
  apply in_map_iff in Hin as ([name t'] & Ht & Hin). cbn in Ht. subst t'.
  apply list_elem_of_In, elem_of_map_to_list in Hin.
  exists name. split; [done|].
  rewrite Hl, lookup_empty in Hin. unfold row_of in Hin.
  pose proof (Permutation_length
                (filter_Permutation_bool (from_broker json_Unmarshal name) _ _ Hperm)) as Hlen.
  destruct (List.filter (from_broker json_Unmarshal name) (sort_Slice _ msg_less msgs))
    as [|x l] eqn:Hf; [done|].
  inversion Hin; subst t. unfold extend_row. cbn [btr_Read btr_Write app].
  rewrite !length_map. done.
Qed.

End Aggregation.

Section ThroughputRuns.

Variable W : nat.
Variable json_Unmarshal : string -> error + BrokerThroughput.
Variable sort_Slice : Sorter.
Variable rangeMap : gmap string BrokerThroughputResponse -> list BrokerThroughputResponse.
Hypothesis sort_Slice_ok : sorter_ok sort_Slice.
Hypothesis rangeMap_ok : range_ok rangeMap.

Variable env : Session.
Variable tenantName : string.
Variable state : StreamState.
Hypothesis streamInfo_ok : memphisStreamInfo env = inr state.
Hypothesis addConsumer_ok : memphisAddConsumer env = None.
Hypothesis subscribe_ok : subscribeOnAcc env = None.
Hypothesis payloads_ok :
  Forall (fun msg => is_Some (decoded json_Unmarshal msg)) (fetched env (Msgs state)).

Let samples_of (name : string) : nat :=
  length (List.filter (from_broker json_Unmarshal name) (fetched env (Msgs state))).

Let result : Outcome (list BrokerThroughputResponse * option error) :=
  fst (run (GetBrokersThroughputs W json_Unmarshal sort_Slice rangeMap env tenantName)).

(** C10.  The two totals are slices of length [W] indexed by the position
    in each broker's series without a bounds check: when no broker
    contributes more than [W] samples every access is in range and the
    call returns its rows; when some broker contributes more than [W]
    samples the index reaches [W] and the call panics with an index out of
    range. *)
Theorem total_row_index_bounds :
  ((forall name, (samples_of name <= W)%nat) ->
   exists rows, result = Done (rows, None))
  /\ ((exists name, (W < samples_of name)%nat) ->
      result = Panic index_out_of_range).
Proof.
  subst result samples_of. cbv beta.
  rewrite (GetBrokersThroughputs_reads _ _ _ _ _ _ state) by done. cbn [fst].
  destruct (sorted_samples_map json_Unmarshal sort_Slice rangeMap sort_Slice_ok
              rangeMap_ok tenantName _ payloads_ok) as (m & E & Hm & Hrows).
  rewrite E. split.
  - intros Hfit.
    destruct (throughput_rows_spec W (rangeMap m)) as (total & Et & _).
    { apply List.Forall_forall. intros t Hin.
      destruct (Hrows t Hin) as (name & _ & HR & HW). rewrite HR, HW. split; apply Hfit. }
    eauto.
  - intros [name Hlong]. apply throughput_rows_panics.
    destruct (sort_Slice_ok _ msg_less (fetched env (Msgs state))) as [Hperm _].
    pose proof (Permutation_length
                  (filter_Permutation_bool (from_broker json_Unmarshal name) _ _ Hperm))
      as Hlen.
    specialize (Hm name). unfold row_of in Hm.
    destruct (List.filter (from_broker json_Unmarshal name)
                (sort_Slice _ msg_less (fetched env (Msgs state)))) as [|x l] eqn:Hf.
    { cbn in Hlen. lia. }
    set (t := extend_row json_Unmarshal tenantName
                (mkBrokerThroughputResponse name [] []) (x :: l)) in Hm.
    assert (Hin : In t (rangeMap m)).
    { apply (Permutation_in _ (Permutation_sym (rangeMap_ok m))).
      apply in_map_iff. exists (name, t). split; [done|].
      apply list_elem_of_In, elem_of_map_to_list. done. }
    apply List.Exists_exists. exists t. split; [done|]. left.
    subst t. unfold extend_row. cbn [btr_Read app]. rewrite length_map. lia.
Qed.

End ThroughputRuns.

Lemma filter_length_bound {A : Type} (f : A -> bool) (l : list A) :
  (length (List.filter f l) <= length l)%nat.
Proof. induction l as [|x l IH]; cbn; [done|]. destruct (f x); cbn; lia. Qed.

(** ** The total row *)

(** C1, as amended.  In every run in which every broker contributes at
    most [W] samples the call does not panic.  Either it returns an
    empty list with the error of the stream lookup, of the creation of
    the consumer, of the subscription or of the decoder on a fetched
    payload; or the three calls succeed, every fetched payload decodes,
    and it returns with a nil error a list that starts with the row
    named "total", whose two series have length [W], followed by one row
    for each broker with a fetched sample, holding the samples of that
    broker in the order of the sorted messages.  At every index the
    total then holds the sum of what these rows hold there, a shorter
    row counting for 0, as the int64 additions of the program compute it,
    which is the exact sum whenever that fits in 64 bits; and the same
    for the written bytes. *)
Theorem total_row_is_sum (W : nat)
    (json_Unmarshal : string -> error + BrokerThroughput) (sort_Slice : Sorter)
    (rangeMap : gmap string BrokerThroughputResponse -> list BrokerThroughputResponse)
    (env : Session) (tenantName : string) :
  sorter_ok sort_Slice -> range_ok rangeMap ->
  (forall state name,
     memphisStreamInfo env = inr state ->
     (length (List.filter (from_broker json_Unmarshal name) (fetched env (Msgs state)))
      <= W)%nat) ->
  let result :=
    fst (run (GetBrokersThroughputs W json_Unmarshal sort_Slice rangeMap env tenantName)) in
  (exists e,
     result = Done ([], Some e)
     /\ (memphisStreamInfo env = inl e \/ memphisAddConsumer env = Some e
         \/ subscribeOnAcc env = Some e
         \/ exists state msg,
              memphisStreamInfo env = inr state
              /\ In msg (fetched env (Msgs state))
              /\ json_Unmarshal (msg_Data msg) = inl e))
  \/ (exists state total rows,
        memphisStreamInfo env = inr state
        /\ memphisAddConsumer env = None
        /\ subscribeOnAcc env = None
        /\ Forall (fun msg => is_Some (decoded json_Unmarshal msg))
             (fetched env (Msgs state))
        /\ result = Done (total :: rows, None)
        /\ btr_Name total = "total"
        /\ length (btr_Read total) = W
        /\ length (btr_Write total) = W
        /\ NoDup (map btr_Name rows)
        /\ (forall t, In t rows <->
              exists name,
                row_of json_Unmarshal tenantName name None
                  (sort_Slice _ msg_less (fetched env (Msgs state))) = Some t)
        /\ forall i, (i < W)%nat ->
             trr_Read <$> btr_Read total !! i = Some (read_sum_i64 rows i 0)
             /\ twr_Write <$> btr_Write total !! i = Some (write_sum_i64 rows i 0)
             /\ (is_i64 (read_sum rows i) ->
                 trr_Read <$> btr_Read total !! i = Some (read_sum rows i))
             /\ (is_i64 (write_sum rows i) ->
                 twr_Write <$> btr_Write total !! i = Some (write_sum rows i))).
Proof.
  intros Hsort Hrange Hfit result. subst result.
  destruct (memphisStreamInfo env) as [err|state] eqn:Hinfo.
  { left. exists err. unfold GetBrokersThroughputs. run_eff. rewrite Hinfo. cbn. tauto. }
  destruct (memphisAddConsumer env) as [err|] eqn:Hadd.
  { left. exists err. unfold GetBrokersThroughputs. run_eff. rewrite Hinfo. cbn.
    rewrite Hadd. cbn. tauto. }
  destruct (subscribeOnAcc env) as [err|] eqn:Hsub.
  { left. exists err. unfold GetBrokersThroughputs. run_eff. rewrite Hinfo. cbn.
    rewrite Hadd. cbn. rewrite Hsub. cbn. tauto. }
  pose proof (GetBrokersThroughputs_reads W json_Unmarshal sort_Slice rangeMap env
                tenantName state Hinfo Hadd Hsub) as Hrun.
  apply (f_equal fst) in Hrun. cbn [fst] in Hrun.
  destruct (Hsort _ msg_less (fetched env (Msgs state))) as [Hperm _].
  destruct (throughput_map json_Unmarshal tenantName
              (sort_Slice _ msg_less (fetched env (Msgs state))) ∅) as [err|m] eqn:E.
  - left. exists err. split; [done|]. do 3 right.
    destruct (throughput_map_inl _ _ _ _ _ E) as (msg & Hin & Hm).
    exists state, msg. split; [done|]. split; [|done]. by eapply Permutation_in.
  - right.
    assert (Hdec : Forall (fun msg => is_Some (decoded json_Unmarshal msg))
                     (fetched env (Msgs state))).
    { eapply Permutation_Forall; [exact Hperm|]. by eapply throughput_map_inr. }
    destruct (sorted_samples_map json_Unmarshal sort_Slice rangeMap Hsort Hrange
                tenantName _ Hdec) as (m' & E' & _ & Hrows).
    assert (m' = m) as -> by congruence.
    destruct (throughput_rows_spec W (rangeMap m)) as (total & Et & Hn & HlR & HlW & Hv).
    { apply List.Forall_forall. intros t Hin.
      destruct (Hrows t Hin) as (name & _ & HR & HW). rewrite HR, HW.
      split; by apply Hfit. }
    rewrite Et in Hrun.
    destruct (GetBrokersThroughputs_rows_iff _ _ _ _ _ _ _ _ Hrange Hrun)
      as (state' & Hinfo' & _ & _ & _ & Hnd & Hiff).
    assert (state' = state) as -> by congruence.
    exists state, total, (rangeMap m).
    split; [done|]. split; [done|]. split; [done|]. split; [done|]. split; [done|].
    split; [done|]. split; [done|]. split; [done|]. split; [done|]. split; [done|].
    intros i Hi. destruct (Hv i Hi) as [HvR HvW].
    assert (H0 : is_i64 0) by (by vm_compute).
    rewrite (read_sum_i64_exact _ _ 0 H0), (write_sum_i64_exact _ _ 0 H0). cbn.
    split; [done|]. split; [done|]. split; intros Hex.
    + by rewrite HvR, wrap_i64_small.
    + by rewrite HvW, wrap_i64_small.
Qed.

Lemma total_row_is_sum_witness :
  exists total rows,
    fst (run (GetBrokersThroughputs 3 Fixtures.json_Unmarshal insertion_sort range_by_key
                (Fixtures.session (mkStreamState 2 1 2)
                   [Fixtures.sample "b1:t1=10/1" 7; Fixtures.sample "b2:t1=5/2" 7]) "t1"))
    = Done (total :: rows, None)
    /\ map btr_Name rows = ["b1"; "b2"]
    /\ trr_Read <$> btr_Read total !! 0%nat = Some (read_sum_i64 rows 0 0)
    /\ read_sum_i64 rows 0 0 = 15.
Proof.
  destruct (total_row_is_sum 3 Fixtures.json_Unmarshal insertion_sort range_by_key
              (Fixtures.session (mkStreamState 2 1 2)
                 [Fixtures.sample "b1:t1=10/1" 7; Fixtures.sample "b2:t1=5/2" 7])
              "t1" insertion_sort_ok range_by_key_ok)
    as [(e & He & _)|(state & total & rows & _ & _ & _ & _ & E & _ & _ & _ & _ & _ & Hv)].
  - intros state name [= <-]. etransitivity; [apply filter_length_bound|].
    vm_compute. lia.
  - vm_compute in He. discriminate He.
  - exists total, rows. split; [exact E|].
    pose proof (Hv 0%nat ltac:(lia)) as (Hsum & _).
    vm_compute in E. injection E as <- <-. split; [reflexivity|]. split; [exact Hsum|].
    reflexivity.
Defined.

(** C1 as first stated fails in the runs that end with an error: no
    broker contributes more than [W] samples, and the list returned is
    empty, so that nothing is at index 0. *)
Lemma total_row_absent_on_error :
  let lookup_fails := mkSession "uid" (inl "stream not found") None None [] in
  let payload_fails :=
    Fixtures.session (mkStreamState 2 1 2)
      [Fixtures.sample "b1:t1=10/1" 7; Fixtures.sample "?" 8] in
  let result env :=
    fst (run (GetBrokersThroughputs 3 Fixtures.json_Unmarshal insertion_sort range_by_key
                env "t1")) in
  (forall env state name,
     In env [lookup_fails; payload_fails] ->
     memphisStreamInfo env = inr state ->
     (length (List.filter (from_broker Fixtures.json_Unmarshal name)
                (fetched env (Msgs state))) <= 3)%nat)
  /\ result lookup_fails = Done ([], Some "stream not found")
  /\ result payload_fails = Done ([], Some "invalid character").
Proof.
  cbv zeta. split; [|split; vm_compute; reflexivity].
  intros env state name [<-|[<-|[]]] Hinfo; [discriminate Hinfo|].
  injection Hinfo as <-. etransitivity; [apply filter_length_bound|].
  vm_compute. lia.
Qed.

Example GetBrokersThroughputs_two_brokers :
  fst (run (GetBrokersThroughputs 3 Fixtures.json_Unmarshal insertion_sort range_by_key
              (Fixtures.session (mkStreamState 2 1 2)
                 [Fixtures.sample "b1:t1=10/1" 7; Fixtures.sample "b2:t1=5/2" 7]) "t1"))
  = Done ([mkBrokerThroughputResponse "total"
             [mkThroughputReadResponse (TimeUnix 7) 15;
              mkThroughputReadResponse TimeZero 0; mkThroughputReadResponse TimeZero 0]
             [mkThroughputWriteResponse (TimeUnix 7) 3;
              mkThroughputWriteResponse TimeZero 0; mkThroughputWriteResponse TimeZero 0];
           mkBrokerThroughputResponse "b1" [mkThroughputReadResponse (TimeUnix 7) 10]
             [mkThroughputWriteResponse (TimeUnix 7) 1];
           mkBrokerThroughputResponse "b2" [mkThroughputReadResponse (TimeUnix 7) 5]
             [mkThroughputWriteResponse (TimeUnix 7) 2]], None).
Proof. vm_compute. reflexivity. Qed.

Example GetBrokersThroughputs_overflows_window :
  fst (run (GetBrokersThroughputs 1 Fixtures.json_Unmarshal insertion_sort range_by_key
              (Fixtures.session (mkStreamState 2 1 2)
                 [Fixtures.sample "b1:t1=10/1" 7; Fixtures.sample "b1:t1=20/2" 8]) "t1"))
  = Panic index_out_of_range.
Proof. vm_compute. reflexivity. Qed.

Lemma total_row_index_bounds_witness :
  fst (run (GetBrokersThroughputs 1 Fixtures.json_Unmarshal insertion_sort range_by_key
              (Fixtures.session (mkStreamState 2 1 2)
                 [Fixtures.sample "b1:t1=10/1" 7; Fixtures.sample "b1:t1=20/2" 8]) "t1"))
  = Panic index_out_of_range.
Proof.
  apply (total_row_index_bounds 1 Fixtures.json_Unmarshal insertion_sort range_by_key
           insertion_sort_ok range_by_key_ok
           (Fixtures.session (mkStreamState 2 1 2)
              [Fixtures.sample "b1:t1=10/1" 7; Fixtures.sample "b1:t1=20/2" 8])
           "t1" (mkStreamState 2 1 2) eq_refl eq_refl eq_refl).
  - repeat constructor; by eexists.
  - exists "b1". vm_compute. lia.
Defined.

(** ** What the reader takes from the channel *)

(** The loop keeps the first [amount - i] messages that arrive before
    the timer fires. *)
Lemma read_loop_take chan : forall i amount msgs,
  read_loop chan i amount msgs = msgs ++ take (Z.to_nat (amount - i)) chan.
Proof.
  induction chan as [|msg chan IH]; intros i amount msgs; cbn.
  - by rewrite take_nil, app_nil_r.
  - destruct (Z.ltb_spec i amount) as [Hlt|Hge].
    + rewrite IH, <- app_assoc. cbn.
      replace (Z.to_nat (amount - i)) with (S (Z.to_nat (amount - (i + 1)))) by lia.
      done.
    + replace (Z.to_nat (amount - i)) with 0%nat by lia. cbn. by rewrite app_nil_r.
Qed.

Lemma fetched_take env amount :
  fetched env amount = take (Z.to_nat amount) (responseChan env).
Proof. unfold fetched. rewrite read_loop_take, Z.sub_0_r. done. Qed.

(** ** Tenant isolation *)





(** ** Order of the fetched samples *)

Lemma ordered_filter {A : Type} (less : A -> A -> bool) (f : A -> bool) (l : list A) :
  ordered less l -> ordered less (List.filter f l).
Proof.
  unfold ordered. induction 1 as [|x l Hs IH Hall]; cbn; [constructor|].
  destruct (f x); [|done]. constructor; [done|].
  apply List.Forall_forall. intros y Hy. apply List.filter_In in Hy as [Hy _].
  rewrite List.Forall_forall in Hall. by apply Hall.
Qed.

Lemma Time_Before_tie (t u : Time) :
  Time_Before t u = false -> Time_Before u t = false -> t = u.
Proof.
  destruct t as [|a], u as [|b]; cbn; try done.
  intros H1 H2. f_equal. lia.
Qed.

(** A list whose times are pairwise distinct has one ordered
    rearrangement only. *)
Lemma ordered_unique (l1 : list StoredMsg) : forall l2,
  ordered msg_less l1 -> ordered msg_less l2 -> Permutation l1 l2 ->
  NoDup (map msg_Time l1) -> l1 = l2.
Proof.
  unfold ordered. induction l1 as [|a l1 IH]; intros l2 H1 H2 Hperm Hnd.
  - by apply Permutation_nil in Hperm.
  - destruct l2 as [|b l2].
    { symmetry in Hperm. by apply Permutation_nil in Hperm. }
    inversion H1 as [|? ? Hs1 Hall1]; subst.
    inversion H2 as [|? ? Hs2 Hall2]; subst.
    inversion Hnd as [|? ? Hnotin Hnd']; subst.
    assert (Hab : a = b).
    { assert (Ha : In a (b :: l2)) by (eapply Permutation_in; [exact Hperm|by left]).
      assert (Hb : In b (a :: l1)).
      { eapply Permutation_in; [symmetry; exact Hperm|by left]. }
      destruct Ha as [Ha|Ha]; [done|]. destruct Hb as [Hb|Hb]; [done|].
      rewrite List.Forall_forall in Hall1, Hall2.
      pose proof (Hall1 b Hb) as Hba. pose proof (Hall2 a Ha) as Hab.
      unfold msg_less in Hba, Hab.
      exfalso. apply Hnotin. rewrite (Time_Before_tie _ _ Hab Hba).
      by apply list_elem_of_In, in_map. }
    subst b. f_equal. apply IH; try done. by apply Permutation_cons_inv in Hperm.
Qed.

Lemma NoDup_map_filter {A B : Type} (g : A -> B) (f : A -> bool) (l : list A) :
  NoDup (map g l) -> NoDup (map g (List.filter f l)).
Proof.
  induction l as [|x l IH]; cbn; [done|].
  intros Hnd. inversion Hnd as [|? ? Hnotin Hnd']; subst.
  destruct (f x); cbn; [|by apply IH].
  constructor; [|by apply IH].
  intros Hin. apply Hnotin. apply list_elem_of_In, in_map_iff in Hin as (y & Hy & Hin).
  apply List.filter_In in Hin as [Hin _]. rewrite <- Hy. by apply list_elem_of_In, in_map.
Qed.

(** Among the samples of one broker, distinct keys mean distinct times. *)
Lemma broker_times_distinct json_Unmarshal name (l : list StoredMsg) :
  NoDup (map (sample_key json_Unmarshal) l) ->
  NoDup (map msg_Time (List.filter (from_broker json_Unmarshal name) l)).
Proof.
  intros Hnd. apply (NoDup_map_filter _ (from_broker json_Unmarshal name)) in Hnd.
  assert (Hall : Forall (fun msg => sample_key json_Unmarshal msg
                                    = (Some name, msg_Time msg))
                   (List.filter (from_broker json_Unmarshal name) l)).
  { apply List.Forall_forall. intros msg Hin. apply List.filter_In in Hin as [_ Hfb].
    unfold from_broker in Hfb. unfold sample_key.
    destruct (decoded json_Unmarshal msg) as [b|]; [|done].
    apply String.eqb_eq in Hfb. cbn. by rewrite Hfb. }
  induction Hall as [|x l' Hx Hall IH]; cbn in *; [constructor|].
  inversion Hnd as [|? ? Hnotin Hnd']; subst. constructor; [|by apply IH].
  intros Hin. apply Hnotin. apply list_elem_of_In, in_map_iff in Hin as (y & Hy & Hin).
  rewrite List.Forall_forall in Hall. rewrite Hx, <- Hy, <- (Hall y Hin).
  by apply list_elem_of_In, in_map.
Qed.

(** C9, as amended.  When all fetched payloads decode and no two fetched
    samples of one broker carry the same time, the aggregation does not
    depend on the order of arrival, with any sorter that orders by time,
    stable or not: two runs whose fetched samples are rearrangements of
    each other return the same result when the runtime yields the rows
    in the same order in both, and otherwise end with the same panic or
    return the same rows of brokers up to their order under totals with
    the same values, the times of the total being decided by the
    iteration order. *)
Theorem aggregation_order_invariant (W : nat)
    (json_Unmarshal : string -> error + BrokerThroughput) (sort_Slice : Sorter)
    (rangeMap1 rangeMap2
       : gmap string BrokerThroughputResponse -> list BrokerThroughputResponse)
    (env1 env2 : Session) (tenantName : string) (state : StreamState) :
  sorter_ok sort_Slice -> range_ok rangeMap1 -> range_ok rangeMap2 ->
  memphisStreamInfo env1 = inr state -> memphisStreamInfo env2 = inr state ->
  memphisAddConsumer env1 = None -> memphisAddConsumer env2 = None ->
  subscribeOnAcc env1 = None -> subscribeOnAcc env2 = None ->
  Permutation (fetched env1 (Msgs state)) (fetched env2 (Msgs state)) ->
  Forall (fun msg => is_Some (decoded json_Unmarshal msg)) (fetched env1 (Msgs state)) ->
  NoDup (map (sample_key json_Unmarshal) (fetched env1 (Msgs state))) ->
  let run1 :=
    fst (run (GetBrokersThroughputs W json_Unmarshal sort_Slice rangeMap1 env1
                tenantName)) in
  let run2 :=
    fst (run (GetBrokersThroughputs W json_Unmarshal sort_Slice rangeMap2 env2
                tenantName)) in
  (rangeMap1 = rangeMap2 -> run1 = run2)
  /\ same_up_to_iteration run1 run2.
Proof.
  intros Hsort Hr1 Hr2 Hi1 Hi2 Ha1 Ha2 Hs1 Hs2 Hperm Hdec Hnd run1 run2.
  subst run1 run2.
  rewrite (GetBrokersThroughputs_reads _ _ _ _ env1 _ state) by done.
  rewrite (GetBrokersThroughputs_reads _ _ _ _ env2 _ state) by done.
  cbn [fst].
  set (l1 := fetched env1 (Msgs state)) in *.
  set (l2 := fetched env2 (Msgs state)) in *.
  destruct (Hsort _ msg_less l1) as [Hp1 Ho1].
  destruct (Hsort _ msg_less l2) as [Hp2 Ho2].
  specialize (Ho1 msg_less_ok). specialize (Ho2 msg_less_ok).
  set (s1 := sort_Slice _ msg_less l1) in *.
  set (s2 := sort_Slice _ msg_less l2) in *.
  assert (Hp12 : Permutation s1 s2).
  { rewrite Hp1, Hp2. done. }
  assert (Hdec1 : Forall (fun msg => is_Some (decoded json_Unmarshal msg)) s1).
  { eapply Permutation_Forall; [symmetry; exact Hp1|done]. }
  assert (Hdec2 : Forall (fun msg => is_Some (decoded json_Unmarshal msg)) s2).
  { eapply Permutation_Forall; [exact Hp12|done]. }
  assert (Hnd1 : NoDup (map (sample_key json_Unmarshal) s1)).
  { eapply NoDup_Permutation_proper; [|exact Hnd]. by apply Permutation_map. }
  destruct (throughput_map_lookup json_Unmarshal tenantName s1 ∅ Hdec1) as (m1 & E1 & L1).
  destruct (throughput_map_lookup json_Unmarshal tenantName s2 ∅ Hdec2) as (m2 & E2 & L2).
  rewrite E1, E2.
  assert (Hm : m2 = m1).
  { apply map_eq. intros name. rewrite L1, L2, lookup_empty. unfold row_of.
    replace (List.filter (from_broker json_Unmarshal name) s2)
      with (List.filter (from_broker json_Unmarshal name) s1); [done|].
    apply ordered_unique.
    - by apply ordered_filter.
    - by apply ordered_filter.
    - by apply filter_Permutation_bool.
    - by apply broker_times_distinct. }
  rewrite Hm. split.
  - by intros <-.
  - apply throughput_rows_perm. by rewrite (Hr1 m1), (Hr2 m1).
Qed.

Lemma aggregation_order_invariant_witness :
  same_up_to_iteration
    (fst (run (GetBrokersThroughputs 3 Fixtures.json_Unmarshal insertion_sort range_by_key
                 (Fixtures.session (mkStreamState 2 1 2)
                    [Fixtures.sample "b1:t1=10/1" 7; Fixtures.sample "b2:t1=5/2" 7]) "t1")))
    (fst (run (GetBrokersThroughputs 3 Fixtures.json_Unmarshal insertion_sort range_rev
                 (Fixtures.session (mkStreamState 2 1 2)
                    [Fixtures.sample "b2:t1=5/2" 7; Fixtures.sample "b1:t1=10/1" 7]) "t1"))).
Proof.
  apply (aggregation_order_invariant 3 Fixtures.json_Unmarshal insertion_sort
           range_by_key range_rev
           (Fixtures.session (mkStreamState 2 1 2)
              [Fixtures.sample "b1:t1=10/1" 7; Fixtures.sample "b2:t1=5/2" 7])
           (Fixtures.session (mkStreamState 2 1 2)
              [Fixtures.sample "b2:t1=5/2" 7; Fixtures.sample "b1:t1=10/1" 7])
           "t1" (mkStreamState 2 1 2) insertion_sort_ok range_by_key_ok range_rev_ok
           eq_refl eq_refl eq_refl eq_refl eq_refl eq_refl).
  - apply perm_swap.
  - repeat constructor; by eexists.
  - vm_compute. repeat constructor; rewrite ?list_elem_of_In; cbn; intuition congruence.
Defined.

(** C9 as first stated fails when one broker has two samples with the
    same time: with a stable sorter they stay in their order of arrival,
    so swapping them swaps two entries of that broker's series. *)
Lemma aggregation_depends_on_arrival :
  let run_on chan :=
    fst (run (GetBrokersThroughputs 3 Fixtures.json_Unmarshal insertion_sort range_by_key
                (Fixtures.session (mkStreamState 2 1 2) chan) "t1")) in
  let a := Fixtures.sample "b1:t1=10/1" 7 in
  let b := Fixtures.sample "b1:t1=20/2" 7 in
  Permutation [a; b] [b; a]
  /\ insertion_sort _ msg_less [a; b] = [a; b]
  /\ insertion_sort _ msg_less [b; a] = [b; a]
  /\ ~ same_up_to_rows (run_on [a; b]) (run_on [b; a]).
Proof.
  cbv zeta. split; [apply perm_swap|]. split; [reflexivity|]. split; [reflexivity|].
  vm_compute. intros [H _]. discriminate H.
Qed.

(** ** Running a log session *)

(** One call whose three calls into the store succeed: it reads, cleans
    up, and either hands over to the nested call or converts what it
    read. *)
Lemma GetSystemLogs_session tsep sort_Slice env envs amount timeout fromLast lastKnownSeq
    filterSubject getAll state log :
  memphisStreamInfo env = inr state ->
  memphisAddConsumer env = None ->
  subscribeOnAcc env = None ->
  GetSystemLogs tsep sort_Slice (env :: envs) amount timeout fromLast lastKnownSeq
    filterSubject getAll log
  = let '(amount', startSeq, lastKnownSeq') :=
      log_window state amount fromLast lastKnownSeq getAll in
    let log' := log ++ logs_effects env amount' startSeq filterSubject in
    if refetch (fetched env amount') amount' state startSeq then
      GetSystemLogs tsep sort_Slice envs (u64_mul amount' 2) timeout false lastKnownSeq'
        filterSubject getAll log'
    else
      (match logs_loop tsep (fetched env amount') [] with
       | None => Some (Panic index_out_of_range)
       | Some resMsgs =>
           Some (Done (mkSystemLogsResponse (logs_order sort_Slice getAll resMsgs), None))
       end, log').
Proof.
  intros H1 H2 H3. cbn [GetSystemLogs]. run_eff. rewrite H1.
  destruct (log_window state amount fromLast lastKnownSeq getAll)
    as [[amount' startSeq] lastKnownSeq'].
  cbn. rewrite H2. cbn. rewrite H3. cbn. unfold fetched, logs_effects.
  rewrite <- !app_assoc. cbn.
  destruct (refetch _ _ _ _); [done|].
  by destruct (logs_loop tsep _ []).
Qed.

Lemma calls_of_app log1 log2 : calls_of (log1 ++ log2) = (calls_of log1 + calls_of log2)%nat.
Proof. unfold calls_of. by rewrite List.filter_app, length_app. Qed.

Example GetSystemLogs_tail :
  let chan := map (Fixtures.log_msg "$memphis_syslogs.broker.info") [201; 202; 203] in
  fst (run (GetSystemLogs "." insertion_sort
              [mkSession "uid" (inr (mkStreamState 250 1 250)) None None chan]
              3 1000 true 0 "" false))
  = Some (Done (mkSystemLogsResponse
                  [mkLog 203 "info" "line" "broker" (TimeUnix 203);
                   mkLog 202 "info" "line" "broker" (TimeUnix 202);
                   mkLog 201 "info" "line" "broker" (TimeUnix 201)], None)).
Proof. vm_compute. reflexivity. Qed.

(** ** How often the log query starts over *)

(** When the test of line 1035 passes, the amount in force is the one the
    caller asked for, so the nested call asks for twice that. *)
Lemma refetch_keeps_amount state amount fromLast lastKnownSeq getAll msgs
    amount' startSeq lastKnownSeq' :
  log_window state amount fromLast lastKnownSeq getAll = (amount', startSeq, lastKnownSeq') ->
  1 <= FirstSeq state \/ Msgs state = 0 ->
  refetch msgs amount' state startSeq = true ->
  amount' = amount /\ 0 < amount.
Proof.
  unfold log_window, refetch, min_uint64. intros Hw Hsane Hre.
  apply andb_prop in Hre as [Hre H3]. apply andb_prop in Hre as [H1 H2].
  apply Z.ltb_lt in H1, H2, H3.
  destruct getAll.
  { inversion Hw; subst. lia. }
  destruct fromLast.
  - destruct (Z.ltb_spec (Msgs state) amount); inversion Hw; subst; lia.
  - destruct (Z.ltb_spec (Msgs state) amount).
    + destruct (Z.leb_spec lastKnownSeq (Msgs state)); inversion Hw; subst; lia.
    + destruct (Z.leb_spec lastKnownSeq amount); inversion Hw; subst; lia.
Qed.

Section RefetchBound.

Variable tsep : ascii.
Variable sort_Slice : Sorter.
Variable timeout : Z.
Variable filterSubject : string.
Variable getAll : bool.

Lemma requests_of_app log1 log2 :
  requests_of (log1 ++ log2) = requests_of log1 ++ requests_of log2.
Proof.
  induction log1 as [|e log1 IH]; cbn; [done|].
  destruct e; cbn; by rewrite IH.
Qed.

(** While the calls nest, each of them sends a request for the amount it
    was called with and calls the next with twice that amount; with [n]
    doublings left before the amount wraps to 0, at most [n] calls
    follow the first. *)
Lemma GetSystemLogs_bounded (n : nat) : forall envs amount fromLast lastKnownSeq log,
  is_u64 amount ->
  (amount * 2 ^ Z.of_nat n) mod two64 = 0 ->
  Forall snapshot_sane envs ->
  (n < length envs)%nat ->
  exists out extra,
    GetSystemLogs tsep sort_Slice envs amount timeout fromLast lastKnownSeq
      filterSubject getAll log = (Some out, log ++ extra)
    /\ (1 <= calls_of extra <= S n)%nat
    /\ (length (requests_of extra) <= calls_of extra)%nat
    /\ take (calls_of extra - 1) (requests_of extra) = doubling amount (calls_of extra - 1).
Proof.
  induction n as [|n IH]; intros envs amount fromLast lastKnownSeq log Hu Hpow Hsane Hlen.
  all: destruct envs as [|env envs]; [cbn in Hlen; lia|].
  all: inversion Hsane as [|? ? Henv Hsane']; subst; unfold snapshot_sane in Henv.
  all: destruct (memphisStreamInfo env) as [err|state] eqn:Hinfo.
  all: try (cbn [GetSystemLogs]; run_eff; rewrite Hinfo; cbn;
            eexists _, _; split; [done|]; cbn; split; [lia|]; split; [lia|done]).
  all: destruct (memphisAddConsumer env) as [err|] eqn:Hadd.
  all: try (cbn [GetSystemLogs]; run_eff; rewrite Hinfo;
            destruct (log_window state amount fromLast lastKnownSeq getAll) as [[? ?] ?];
            cbn; rewrite Hadd; cbn; rewrite <- app_assoc;
            eexists _, _; split; [done|]; cbn; split; [lia|]; split; [lia|done]).
  all: destruct (subscribeOnAcc env) as [err|] eqn:Hsub.
  all: try (cbn [GetSystemLogs]; run_eff; rewrite Hinfo;
            destruct (log_window state amount fromLast lastKnownSeq getAll) as [[? ?] ?];
            cbn; rewrite Hadd; cbn; rewrite Hsub; cbn; rewrite <- !app_assoc;
            eexists _, _; split; [done|]; cbn; split; [lia|]; split; [lia|done]).
  all: rewrite (GetSystemLogs_session _ _ _ _ _ _ _ _ _ _ state) by done.
  all: destruct (log_window state amount fromLast lastKnownSeq getAll)
         as [[amount' startSeq] lastKnownSeq'] eqn:Hw.
  all: destruct (refetch (fetched env amount') amount' state startSeq) eqn:Hre.
  all: try (destruct (logs_loop tsep (fetched env amount') []);
            eexists _, _; (split; [done|]); cbn; (split; [lia|]); (split; [lia|done])).
  - destruct (refetch_keeps_amount _ _ _ _ _ _ _ _ _ Hw Henv Hre) as [-> Hpos].
    exfalso. rewrite Z.mul_1_r in Hpow. unfold is_u64 in Hu.
    rewrite Z.mod_small in Hpow by done. lia.
  - destruct (refetch_keeps_amount _ _ _ _ _ _ _ _ _ Hw Henv Hre) as [-> Hpos].
    destruct (IH envs (u64_mul amount 2) false lastKnownSeq'
                (log ++ logs_effects env amount startSeq filterSubject))
      as (out & extra & E & Hcalls & Hlen' & Hreq).
    + apply wrap_u64_range.
    + unfold u64_mul, wrap_u64. rewrite Z.mul_mod_idemp_l by done.
      rewrite <- Hpow. f_equal. rewrite Nat2Z.inj_succ, Z.pow_succ_r by lia. lia.
    + done.
    + cbn in Hlen. lia.
    + exists out, (logs_effects env amount startSeq filterSubject ++ extra).
      rewrite app_assoc. split; [done|].
      rewrite calls_of_app, requests_of_app.
      change (calls_of (logs_effects env amount startSeq filterSubject)) with 1%nat.
      change (requests_of (logs_effects env amount startSeq filterSubject)) with [amount].
      cbn [app length Nat.add]. split; [lia|]. split; [lia|].
      replace (S (calls_of extra) - 1)%nat with (S (calls_of extra - 1)) by lia.
      cbn [take doubling]. by rewrite Hreq.
Qed.

End RefetchBound.

(** C4, as amended.  The refetch is a nested call of [GetSystemLogs] that
    applies the same test again, so one top-level call can start over
    more than once.  When every snapshot of a stream that holds messages
    has a first sequence of at least 1, a top-level call returns after at
    most 65 calls in all, which is at most 64 refetches; every call sends
    at most one request; and every call that starts over has sent a
    request for exactly the amount it was called with and calls the next
    with twice that amount modulo 2^64, so that the requests of the
    calls before the last are the amount of the top-level call doubled
    again and again. *)
Theorem GetSystemLogs_refetch_bound (tsep : ascii) (sort_Slice : Sorter)
    (envs : list Session) (amount timeout : Z) (fromLast : bool) (lastKnownSeq : Z)
    (filterSubject : string) (getAll : bool) :
  is_u64 amount ->
  Forall snapshot_sane envs ->
  (64 < length envs)%nat ->
  exists out log,
    run (GetSystemLogs tsep sort_Slice envs amount timeout fromLast lastKnownSeq
           filterSubject getAll) = (Some out, log)
    /\ (1 <= calls_of log <= 65)%nat
    /\ (length (requests_of log) <= calls_of log)%nat
    /\ take (calls_of log - 1) (requests_of log) = doubling amount (calls_of log - 1).
Proof.
  intros Hu Hsane Hlen.
  destruct (GetSystemLogs_bounded tsep sort_Slice timeout filterSubject getAll 64
              envs amount fromLast lastKnownSeq [] Hu) as (out & log & E & Hcalls);
    try done.
  - change (2 ^ Z.of_nat 64) with two64. apply Z_mod_mult.
  - exists out, log. split; [done|]. done.
Qed.

Lemma GetSystemLogs_refetch_bound_witness :
  exists out log,
    run (GetSystemLogs "." insertion_sort
           (replicate 65 (mkSession "uid" (inr (mkStreamState 100 1 100)) None None []))
           10 1000 false 100 "" false) = (Some out, log)
    /\ (1 <= calls_of log <= 65)%nat
    /\ (length (requests_of log) <= calls_of log)%nat
    /\ take (calls_of log - 1) (requests_of log) = doubling 10 (calls_of log - 1).
Proof.
  apply (GetSystemLogs_refetch_bound "." insertion_sort
           (replicate 65 (mkSession "uid" (inr (mkStreamState 100 1 100)) None None []))
           10 1000 false 100 "" false).
  - unfold is_u64, two64. cbn. lia.
  - apply List.Forall_forall. intros env Hin.
    apply list_elem_of_In, elem_of_replicate in Hin as [-> _].
    unfold snapshot_sane. cbn. lia.
  - rewrite length_replicate. lia.
Defined.

(** C4 as first stated fails when few messages match: from a stream of
    100 messages, none of which arrives, a request for 10 is followed by
    requests for 20, 40, 80 and 100, four refetches in one top-level
    call. *)
Lemma GetSystemLogs_refetches_four_times :
  let env := mkSession "uid" (inr (mkStreamState 100 1 100)) None None [] in
  let r := run (GetSystemLogs "." insertion_sort (replicate 5 env)
                  10 1000 false 100 "" false) in
  fst r = Some (Done (mkSystemLogsResponse [], None))
  /\ requests_of (snd r) = [10; 20; 40; 80; 100]
  /\ calls_of (snd r) = 5%nat
  /\ ~ (calls_of (snd r) <= 2)%nat.
Proof.
  cbv zeta. split; [by vm_compute|]. split; [by vm_compute|]. split; [by vm_compute|].
  vm_compute. lia.
Qed.

(** ** Release of the consumer *)

(** Past the subscription, both readers reach [cleanup:], whether the
    timer fires or every requested record arrives. *)
Lemma throughput_session_released env state :
  let durable := String.append "$memphis_fetch_throughput_consumer_" (nuid_Next env) in
  created (throughput_effects env state) durable = true
  /\ unsubscribed (throughput_effects env state) = true
  /\ removal_scheduled (throughput_effects env state) durable = true.
Proof. cbn. by rewrite !String.eqb_refl. Qed.

Lemma logs_session_released env amount startSeq filterSubject :
  let durable := String.append "$memphis_fetch_logs_consumer_" (nuid_Next env) in
  created (logs_effects env amount startSeq filterSubject) durable = true
  /\ unsubscribed (logs_effects env amount startSeq filterSubject) = true
  /\ removal_scheduled (logs_effects env amount startSeq filterSubject) durable = true.
Proof. cbn. by rewrite !String.eqb_refl. Qed.

(** C3 at the exit it misses.  When [subscribeOnAcc] fails, both readers
    return its error right after the consumer has been created: the log
    of the call holds the creation of the durable consumer and ends with
    the failed subscription, with no unsubscription and no removal
    scheduled. *)
Theorem subscribe_error_leaks_consumer (W : nat)
    (json_Unmarshal : string -> error + BrokerThroughput) (sort_Slice : Sorter)
    (rangeMap : gmap string BrokerThroughputResponse -> list BrokerThroughputResponse)
    (tsep : ascii) (uid : string) (state : StreamState) (err : error)
    (chan : list StoredMsg) (envs : list Session) (tenantName : string)
    (amount timeout : Z) (fromLast : bool) (lastKnownSeq : Z) (filterSubject : string)
    (getAll : bool) :
  let env := mkSession uid (inr state) None (Some err) chan in
  let throughput :=
    run (GetBrokersThroughputs W json_Unmarshal sort_Slice rangeMap env tenantName) in
  let logs :=
    run (GetSystemLogs tsep sort_Slice (env :: envs) amount timeout fromLast lastKnownSeq
           filterSubject getAll) in
  let throughput_durable := String.append "$memphis_fetch_throughput_consumer_" uid in
  let logs_durable := String.append "$memphis_fetch_logs_consumer_" uid in
  fst throughput = Done ([], Some err)
  /\ created (snd throughput) throughput_durable = true
  /\ unsubscribed (snd throughput) = false
  /\ removal_scheduled (snd throughput) throughput_durable = false
  /\ fst logs = Some (Done (mkSystemLogsResponse [], Some err))
  /\ created (snd logs) logs_durable = true
  /\ unsubscribed (snd logs) = false
  /\ removal_scheduled (snd logs) logs_durable = false.
Proof.
  cbv zeta. unfold GetBrokersThroughputs. cbn [GetSystemLogs]. run_eff.
  destruct (log_window state amount fromLast lastKnownSeq getAll) as [[amount' startSeq] lk].
  cbn. rewrite !String.eqb_refl. done.
Qed.

Example subscribe_error_leaks_consumer_example :
  snd (run (GetSystemLogs "." insertion_sort
              [mkSession "uid" (inr (mkStreamState 250 1 250)) None (Some "no responders") []]
              50 1000 true 0 "" false))
  = [ E_memphisStreamInfo syslogsStreamName;
      E_memphisAddConsumer syslogsStreamName
        (mkConsumerConfig 201 "$memphis_fetch_logs_consumer_uid" "");
      E_subscribeOnAcc "$memphis_fetch_logs_consumer_uid_reply" ].
Proof. vm_compute. reflexivity. Qed.

(** ** Converting the fetched messages *)

Lemma strings_Split_length s sep :
  length (strings_Split s sep) = S (count_char sep s).
Proof.
  induction s as [|c s IH]; cbn; [done|].
  destruct (Ascii.eqb c sep); cbn; [by rewrite IH|].
  destruct (strings_Split s sep) as [|tok toks]; cbn in *; lia.
Qed.

(** A subject that holds a separator has the two tokens the conversion
    reads, whatever its length. *)
Lemma log_of_msg_is_Some tsep msg :
  count_char tsep (msg_Subject msg) <> 0%nat -> is_Some (log_of_msg tsep msg).
Proof.
  unfold log_of_msg.
  pose proof (strings_Split_length (msg_Subject msg) tsep) as Hlen.
  destruct (strings_Split (msg_Subject msg) tsep) as [|t0 [|t1 [|t2 [|t3 rest]]]];
    cbn in *; intros Hsep; try lia; by eexists.
Qed.

(** The conversion loop converts the messages one by one, in order, and
    panics at the first that cannot be converted. *)
Lemma logs_loop_converts tsep msgs : forall resMsgs,
  Forall (fun msg => count_char tsep (msg_Subject msg) <> 0%nat) msgs ->
  exists converted,
    Forall2 (fun msg l => log_of_msg tsep msg = Some l) msgs converted
    /\ logs_loop tsep msgs resMsgs = Some (resMsgs ++ converted).
Proof.
  induction msgs as [|msg msgs IH]; intros resMsgs Hsep; cbn.
  - exists []. split; [constructor|]. by rewrite app_nil_r.
  - inversion Hsep as [|? ? Hmsg Hrest]; subst.
    destruct (log_of_msg_is_Some tsep msg Hmsg) as [l Hl]. rewrite Hl.
    destruct (IH (resMsgs ++ [l]) Hrest) as (converted & Hconv & E).
    exists (l :: converted). split; [by constructor|].
    rewrite E, <- app_assoc. done.
Qed.

(** ** Timeouts *)

Lemma take_all {A : Type} (l : list A) (n : Z) :
  Z.of_nat (length l) <= n -> take (Z.to_nat n) l = l.
Proof. intros H. apply take_ge. lia. Qed.

(** C7, as amended.  When the timer fires before the requested number of
    records has arrived, both readers stop reading, run the cleanup
    (timer stopped, subscription ended, removal of the consumer
    scheduled) and go on with exactly the records received.
    [GetBrokersThroughputs] aggregates them: a payload that does not
    decode gives the error of the decoder, and when all payloads decode
    and no broker has more than [W] of them the call returns, with a nil
    error, rows that hold exactly the received samples.
    [GetSystemLogs], when the refetch test fails, converts them, orders
    them and, outside [getAll], keeps the first hundred, with a nil error,
    unless the conversion panics, which it does not when every received
    subject holds a separator; when the refetch test passes it drops them
    and returns what the nested call for twice the amount returns. *)
Theorem timeout_keeps_received (W : nat)
    (json_Unmarshal : string -> error + BrokerThroughput) (sort_Slice : Sorter)
    (rangeMap : gmap string BrokerThroughputResponse -> list BrokerThroughputResponse)
    (tsep : ascii) (env : Session) (envs : list Session) (state : StreamState)
    (tenantName : string) (amount timeout : Z) (fromLast : bool) (lastKnownSeq : Z)
    (filterSubject : string) (getAll : bool) :
  sorter_ok sort_Slice -> range_ok rangeMap ->
  memphisStreamInfo env = inr state ->
  memphisAddConsumer env = None ->
  subscribeOnAcc env = None ->
  let received := responseChan env in
  let '(amount', startSeq, lastKnownSeq') :=
    log_window state amount fromLast lastKnownSeq getAll in
  let throughput :=
    run (GetBrokersThroughputs W json_Unmarshal sort_Slice rangeMap env tenantName) in
  let logs :=
    GetSystemLogs tsep sort_Slice (env :: envs) amount timeout fromLast lastKnownSeq
      filterSubject getAll in
  (Z.of_nat (length received) < Msgs state ->
   throughput
   = (match throughput_map json_Unmarshal tenantName
              (sort_Slice _ msg_less received) ∅ with
      | inl err => Done ([], Some err)
      | inr m => throughput_rows W (rangeMap m)
      end, throughput_effects env state)
   /\ unsubscribed (snd throughput) = true
   /\ removal_scheduled (snd throughput)
        (String.append "$memphis_fetch_throughput_consumer_" (nuid_Next env)) = true
   /\ (Forall (fun msg => is_Some (decoded json_Unmarshal msg)) received ->
       (forall name,
          (length (List.filter (from_broker json_Unmarshal name) received) <= W)%nat) ->
       exists total rows,
         fst throughput = Done (total :: rows, None)
         /\ Permutation (concat (map btr_Read rows))
              (map (read_entry json_Unmarshal tenantName) received)
         /\ Permutation (concat (map btr_Write rows))
              (map (write_entry json_Unmarshal tenantName) received)))
  /\ (Z.of_nat (length received) < amount' ->
      (refetch received amount' state startSeq = false ->
       run logs
       = (match logs_loop tsep received [] with
          | None => Some (Panic index_out_of_range)
          | Some resMsgs =>
              Some (Done (mkSystemLogsResponse (logs_order sort_Slice getAll resMsgs), None))
          end, logs_effects env amount' startSeq filterSubject)
       /\ unsubscribed (snd (run logs)) = true
       /\ removal_scheduled (snd (run logs))
            (String.append "$memphis_fetch_logs_consumer_" (nuid_Next env)) = true
       /\ (Forall (fun msg => count_char tsep (msg_Subject msg) <> 0%nat) received ->
           exists resMsgs,
             Forall2 (fun msg l => log_of_msg tsep msg = Some l) received resMsgs
             /\ fst (run logs)
                = Some (Done (mkSystemLogsResponse
                                (logs_order sort_Slice getAll resMsgs), None))))
      /\ (refetch received amount' state startSeq = true ->
          run logs
          = GetSystemLogs tsep sort_Slice envs (u64_mul amount' 2) timeout false
              lastKnownSeq' filterSubject getAll
              (logs_effects env amount' startSeq filterSubject))).
Proof.
  intros Hsort Hrange H1 H2 H3 received.
  destruct (log_window state amount fromLast lastKnownSeq getAll)
    as [[amount' startSeq] lastKnownSeq'] eqn:Hw.
  intros throughput logs. split.
  - intros Htimer.
    assert (Hf : fetched env (Msgs state) = received).
    { rewrite fetched_take. apply take_all. subst received. lia. }
    subst throughput.
    rewrite (GetBrokersThroughputs_reads _ _ _ _ _ _ state) by done.
    cbn [fst snd]. rewrite Hf. split; [done|].
    destruct (throughput_session_released env state) as (_ & Hu & Hr).
    split; [done|]. split; [done|]. intros Hdec Hfit.
    destruct (sorted_samples_map json_Unmarshal sort_Slice rangeMap Hsort Hrange
                tenantName received Hdec) as (m & E & _ & Hrows).
    rewrite E.
    destruct (throughput_rows_spec W (rangeMap m)) as (total & Et & _).
    { apply List.Forall_forall. intros t Hin.
      destruct (Hrows t Hin) as (name & _ & HR & HW). rewrite HR, HW. split; apply Hfit. }
    exists total, (rangeMap m). split; [done|].
    destruct (throughput_map_entries _ _ _ _ _ E) as [HR HW].
    rewrite map_to_list_empty in HR, HW. cbn in HR, HW.
    destruct (Hsort _ msg_less received) as [Hperm _].
    split.
    + rewrite (concat_map_perm _ _ _ (Hrange m)), HR. by apply Permutation_map.
    + rewrite (concat_map_perm _ _ _ (Hrange m)), HW. by apply Permutation_map.
  - intros Htimer.
    assert (Hf : fetched env amount' = received).
    { rewrite fetched_take. apply take_all. subst received. lia. }
    subst logs. unfold run.
    rewrite (GetSystemLogs_session _ _ _ _ _ _ _ _ _ _ state) by done.
    rewrite Hw, Hf. cbn [app]. split.
    + intros ->. split; [done|]. cbn [snd].
      destruct (logs_session_released env amount' startSeq filterSubject) as (_ & Hu & Hr).
      split; [done|]. split; [done|]. intros Hsep.
      destruct (logs_loop_converts tsep received [] Hsep) as (resMsgs & Hconv & E).
      exists resMsgs. split; [done|]. by rewrite E.
    + intros ->. done.
Qed.

Lemma timeout_keeps_received_witness :
  let chan := map (Fixtures.log_msg "$memphis_syslogs.broker.info") [3; 4; 5] in
  let env := mkSession "uid" (inr (mkStreamState 5 1 5)) None None chan in
  fst (run (GetSystemLogs "." insertion_sort [env] 1000 50 true 0 "" false))
  = Some (Done (mkSystemLogsResponse
                  [mkLog 5 "info" "line" "broker" (TimeUnix 5);
                   mkLog 4 "info" "line" "broker" (TimeUnix 4);
                   mkLog 3 "info" "line" "broker" (TimeUnix 3)], None)).
Proof.
  intros chan env.
  pose proof (timeout_keeps_received 3 Fixtures.json_Unmarshal insertion_sort range_by_key
                "." env [] (mkStreamState 5 1 5) "t1" 1000 50 true 0 "" false
                insertion_sort_ok range_by_key_ok eq_refl eq_refl eq_refl) as H.
  cbv zeta in H.
  change (log_window (mkStreamState 5 1 5) 1000 true 0 false) with (5, 1, 5) in H.
  cbv iota beta in H. destruct H as [_ H].
  destruct H as [H _]; [vm_compute; reflexivity|].
  destruct (H eq_refl) as (Hrun & _). rewrite Hrun. reflexivity.
Defined.

(** C7 as first stated fails for [GetSystemLogs] when the refetch test
    passes: the timer fires with one record of the two requested, the
    record is dropped, the nested call starts a new session, and the error
    of that session is what the caller gets. *)
Lemma timeout_then_refetch_error :
  let received := [Fixtures.log_msg "$memphis_syslogs.broker.info" 10] in
  let env1 := mkSession "a" (inr (mkStreamState 10 1 10)) None None received in
  let env2 := mkSession "b" (inl "stream not found") None None [] in
  log_window (mkStreamState 10 1 10) 2 false 10 false = (2, 9, 10)
  /\ fetched env1 2 = received
  /\ Z.of_nat (length received) < 2
  /\ fst (run (GetSystemLogs "." insertion_sort [env1; env2] 2 1000 false 10 "" false))
     = Some (Done (mkSystemLogsResponse [], Some "stream not found"))
  /\ fst (run (GetSystemLogs "." insertion_sort [env1; env2] 2 1000 false 10 "" false))
     <> Some (Done (mkSystemLogsResponse
                      [mkLog 10 "info" "line" "broker" (TimeUnix 10)], None)).
Proof.
  cbv zeta. split; [reflexivity|]. split; [reflexivity|]. split; [reflexivity|].
  split; [by vm_compute|]. by vm_compute.
Qed.

(** ** The main overview *)

Section OverviewFacts.

Context {ExtendedStation : Type}.
Variable r : TaskResults ExtendedStation.
Variable k8sEnv : bool.

Lemma has_run_In t (s : Shared ExtendedStation) : has_run t s = true <-> In t (finished s).
Proof.
  unfold has_run. rewrite existsb_exists. split.
  - intros (x & Hin & Heq). by destruct t, x.
  - intros Hin. exists t. split; [done|]. by destruct t.
Qed.

Lemma all_tasks_finished (s : Shared ExtendedStation) :
  overview_inv r s -> wg s = 0 -> forall t, has_run t s = true.
Proof.
  intros [Hwg Hnd _ _ _] H0 t. apply has_run_In.
  destruct (finished s) as [|a [|b [|c [|x l]]]]; cbn in Hwg; try lia.
  apply NoDup_cons in Hnd as [Ha Hnd]. apply NoDup_cons in Hnd as [Hb _].
  rewrite !list_elem_of_In in *. cbn in *.
  destruct a, b, c, t; tauto.
Qed.

Lemma run_task_fields t (s : Shared ExtendedStation) :
  wg (run_task r t s) = wg s - 1
  /\ finished (run_task r t s) = t :: finished s
  /\ returned (run_task r t s) = returned s
  /\ generalErr (run_task r t s)
     = match task_failed r t with
       | Some e => Some e
       | None => generalErr s
       end.
Proof.
  unfold run_task, task_failed.
  destruct t, r as [[[[st tm] td] [e1|]] [[sc me] [e2|]] [bt [e3|]]]; done.
Qed.

Lemma after_Wait_fields (s : Shared ExtendedStation) :
  wg (after_Wait k8sEnv s) = wg s
  /\ finished (after_Wait k8sEnv s) = finished s
  /\ generalErr (after_Wait k8sEnv s) = generalErr s
  /\ exists d, returned (after_Wait k8sEnv s) = Some (d, generalErr s)
       /\ (generalErr s <> None -> d = zero_MainOverviewData).
Proof.
  unfold after_Wait. destruct (generalErr s) as [e|] eqn:He; cbn.
  - repeat split; try done. eexists. split; done.
  - repeat split; try done. eexists. split; done.
Qed.

Lemma step_inv s s' : overview_inv r s -> step r k8sEnv s s' -> overview_inv r s'.
Proof.
  intros Hinv Hstep. pose proof Hinv as [Hwg Hnd Hfrom Hset Hret].
  destruct Hstep as [t s Hnot|s H0 Hnone].
  - destruct (run_task_fields t s) as (Ewg & Efin & Eret & Eerr).
    split.
    + rewrite Ewg, Efin, Hwg. cbn [length]. lia.
    + rewrite Efin. apply NoDup_cons. split; [|done].
      rewrite list_elem_of_In, <- has_run_In. by rewrite Hnot.
    + intros e. rewrite Eerr, Efin. destruct (task_failed r t) as [e0|] eqn:Hf.
      * intros [= <-]. exists t. split; [by left|done].
      * intros He. destruct (Hfrom e He) as (t' & Hin & Ht'). exists t'.
        split; [by right|done].
    + intros t' e. rewrite Eerr, Efin. intros [<-|Hin] Hf.
      * by rewrite Hf.
      * destruct (task_failed r t); [done|]. by eapply Hset.
    + intros d e. rewrite Eret. intros Hsome.
      destruct (Hret d e Hsome) as (Hz & _).
      rewrite (all_tasks_finished s Hinv Hz t) in Hnot. done.
  - destruct (after_Wait_fields s) as (Ewg & Efin & Eerr & d0 & Eret & Hzero).
    split.
    + by rewrite Ewg, Efin.
    + by rewrite Efin.
    + intros e. rewrite Eerr, Efin. apply Hfrom.
    + intros t e. rewrite Eerr, Efin. apply Hset.
    + intros d e. rewrite Eret, Ewg, Eerr. intros [= <- <-]. done.
Qed.

Lemma init_inv : overview_inv r init_Shared.
Proof.
  split; cbn; try done.
  apply NoDup_nil_2.
Qed.

Lemma steps_inv s0 s : overview_inv r s0 -> steps r k8sEnv s0 s -> overview_inv r s.
Proof.
  intros H0. induction 1 as [s|s1 s2 s3 _ IH Hstep]; [done|].
  eapply step_inv; [|exact Hstep]. by apply IH.
Qed.

End OverviewFacts.

Lemma steps_first {ExtendedStation : Type} (r : TaskResults ExtendedStation)
    (k8sEnv : bool) (s0 s1 s : Shared ExtendedStation) :
  step r k8sEnv s0 s1 -> steps r k8sEnv s1 s -> steps r k8sEnv s0 s.
Proof.
  intros Hfirst. induction 1 as [s|s1 s2 s3 _ IHs Hstep].
  - eapply steps_more; [constructor|done].
  - eapply steps_more; [|exact Hstep]. by apply IHs.
Qed.

Lemma schedule_steps {ExtendedStation : Type} (r : TaskResults ExtendedStation)
    (k8sEnv : bool) (schedule : list Task) : forall s0,
  returned s0 = None ->
  let s := fold_left (fun s t => if has_run t s then s else run_task r t s) schedule s0 in
  steps r k8sEnv s0 s /\ returned s = None.
Proof.
  induction schedule as [|t schedule IH]; intros s0 Hnone; cbn.
  - split; [constructor|done].
  - destruct (has_run t s0) eqn:Hrun; [by apply IH|].
    destruct (run_task_fields r t s0) as (_ & _ & Eret & _).
    destruct (IH (run_task r t s0)) as [Hsteps Hret]; [by rewrite Eret|].
    split; [|done].
    eapply steps_first; [|exact Hsteps]. by constructor.
Qed.

(** Every result of the executable composer is one the scheduler can
    produce. *)
Lemma getMainOverviewDataDetails_steps {ExtendedStation : Type}
    (r : TaskResults ExtendedStation) (k8sEnv : bool) (schedule : list Task) res :
  getMainOverviewDataDetails r k8sEnv schedule = Some res ->
  exists s, steps r k8sEnv init_Shared s /\ returned s = Some res.
Proof.
  unfold getMainOverviewDataDetails.
  destruct (schedule_steps r k8sEnv schedule init_Shared eq_refl) as [Hsteps Hnone].
  set (s := fold_left _ schedule init_Shared) in *.
  destruct (Z.eqb_spec (wg s) 0) as [H0|]; [|done].
  intros Hres. exists (after_Wait k8sEnv s). split; [|done].
  eapply steps_more; [exact Hsteps|]. by constructor.
Qed.

Lemma schedule_has_run {ExtendedStation : Type} (r : TaskResults ExtendedStation)
    (schedule : list Task) : forall s0 t,
  In t schedule \/ has_run t s0 = true ->
  has_run t (fold_left (fun s t => if has_run t s then s else run_task r t s)
               schedule s0) = true.
Proof.
  induction schedule as [|u schedule IH]; intros s0 t Hin; cbn.
  - by destruct Hin.
  - apply IH. destruct Hin as [[<-|Hin]|Hrun]; [|by left|].
    + right. destruct (has_run u s0) eqn:Hu; [done|].
      apply has_run_In. destruct (run_task_fields r u s0) as (_ & -> & _). by left.
    + right. destruct (has_run u s0) eqn:Hu; [done|].
      apply has_run_In. destruct (run_task_fields r u s0) as (_ & -> & _).
      right. by apply has_run_In.
Qed.

(** Once the three goroutines have run, the counter of the wait group is
    back at zero. *)
Lemma all_finished_wg {ExtendedStation : Type} (r : TaskResults ExtendedStation)
    (s : Shared ExtendedStation) :
  overview_inv r s -> (forall t, has_run t s = true) -> wg s = 0.
Proof.
  intros [Hwg Hnd _ _ _] Hall. rewrite Hwg.
  pose proof (proj1 (has_run_In StationsTask s) (Hall StationsTask)) as H1.
  pose proof (proj1 (has_run_In ComponentsTask s) (Hall ComponentsTask)) as H2.
  pose proof (proj1 (has_run_In ThroughputTask s) (Hall ThroughputTask)) as H3.
  destruct (finished s) as [|a [|b [|c [|x l]]]]; cbn [length In] in *.
  - done.
  - exfalso. destruct H1 as [->|[]]. by destruct H2 as [H2|[]].
  - exfalso. clear Hwg Hnd Hall.
    destruct a, b;
      repeat match goal with
             | H : _ \/ _ |- _ => destruct H as [H|H]; try discriminate H
             | H : False |- _ => destruct H
             end.
  - done.
  - exfalso. clear Hwg Hall H1 H2 H3.
    apply NoDup_cons in Hnd as [Ha Hnd]. apply NoDup_cons in Hnd as [Hb Hnd].
    apply NoDup_cons in Hnd as [Hc _].
    rewrite !list_elem_of_In in *. cbn [In] in *.
    destruct a, b, c, x; tauto.
Qed.

(** C2.  Whenever [getMainOverviewDataDetails] returns, each of the three
    goroutines has run to its [wg.Done()]; if at least one of the three
    sub-queries failed, what is returned is the error of a failed
    sub-query together with the zero [MainOverviewData], so that an error
    never comes with a payload; and under every schedule that lets the
    three goroutines run the call does return, in one of the ways the
    scheduler allows. *)
Theorem overview_error_has_no_payload {ExtendedStation : Type}
    (r : TaskResults ExtendedStation) (k8sEnv : bool) :
  (forall s d e,
     steps r k8sEnv init_Shared s ->
     returned s = Some (d, e) ->
     (forall t, has_run t s = true)
     /\ ((exists t, is_Some (task_failed r t)) ->
         d = zero_MainOverviewData
         /\ exists t err, task_failed r t = Some err /\ e = Some err)
     /\ (e <> None -> d = zero_MainOverviewData))
  /\ (forall schedule,
        (forall t, In t schedule) ->
        exists s d e,
          getMainOverviewDataDetails r k8sEnv schedule = Some (d, e)
          /\ steps r k8sEnv init_Shared s
          /\ returned s = Some (d, e)).
Proof.
  split.
  - intros s d e Hsteps Hret.
    pose proof (steps_inv r k8sEnv _ _ (init_inv r) Hsteps) as Hinv.
    pose proof Hinv as [_ _ Hfrom Hset Hreturned].
    destruct (Hreturned d e Hret) as (H0 & He & Hzero).
    pose proof (all_tasks_finished r s Hinv H0) as Hall.
    split; [done|]. split; [|done].
    intros (t & err & Hfail).
    assert (Hne : generalErr s <> None).
    { apply (Hset t err); [|done]. apply has_run_In, Hall. }
    rewrite <- He in Hne. split; [by apply Hzero|].
    destruct e as [err'|]; [|done].
    destruct (Hfrom err') as (t' & _ & Ht'); [done|]. eauto.
  - intros schedule Hfull.
    destruct (schedule_steps r k8sEnv schedule init_Shared eq_refl) as [Hsteps Hnone].
    assert (Hdone : getMainOverviewDataDetails r k8sEnv schedule
                    = returned
                        (after_Wait k8sEnv
                           (fold_left (fun s t => if has_run t s then s else run_task r t s)
                              schedule init_Shared))).
    { unfold getMainOverviewDataDetails.
      rewrite (all_finished_wg r _ (steps_inv r k8sEnv _ _ (init_inv r) Hsteps)); [done|].
      intros t. apply schedule_has_run. by left. }
    set (s := fold_left _ schedule init_Shared) in *.
    destruct (after_Wait_fields k8sEnv s) as (_ & _ & _ & d & Eret & _).
    exists (after_Wait k8sEnv s), d, (generalErr s).
    split; [by rewrite Hdone|]. split; [|done].
    eapply steps_more; [exact Hsteps|]. apply step_return; [|done].
    apply (all_finished_wg r); [by eapply steps_inv; [apply init_inv|]|].
    intros t. apply schedule_has_run. by left.
Qed.

Example overview_inventory_fails :
  forall schedule,
    In schedule [[StationsTask; ComponentsTask; ThroughputTask];
                 [StationsTask; ThroughputTask; ComponentsTask];
                 [ComponentsTask; StationsTask; ThroughputTask];
                 [ComponentsTask; ThroughputTask; StationsTask];
                 [ThroughputTask; StationsTask; ComponentsTask];
                 [ThroughputTask; ComponentsTask; StationsTask]] ->
    getMainOverviewDataDetails (ExtendedStation := string)
      (mkTaskResults ([], 0, 0, Some "X") ([], true, None)
         ([mkBrokerThroughputResponse "total" [] []], None))
      true schedule
    = Some (zero_MainOverviewData, Some "X").
Proof.
  intros schedule Hin. cbn in Hin.
  repeat (destruct Hin as [<-|Hin]; [reflexivity|]). done.
Qed.

Lemma overview_error_has_no_payload_witness :
  let r := mkTaskResults (ExtendedStation := string) ([], 0, 0, Some "X") ([], true, None)
             ([mkBrokerThroughputResponse "total" [] []], None) in
  let s := after_Wait true
             (run_task r ThroughputTask
                (run_task r StationsTask (run_task r ComponentsTask init_Shared))) in
  steps r true init_Shared s
  /\ returned s = Some (zero_MainOverviewData, Some "X")
  /\ forall t, has_run t s = true.
Proof.
  intros r s.
  assert (Hsteps : steps r true init_Shared s).
  { eapply steps_more; [|by apply step_return].
    eapply steps_more; [|by apply (step_task _ r true ThroughputTask)].
    eapply steps_more; [|by apply (step_task _ r true StationsTask)].
    eapply steps_more; [|by apply (step_task _ r true ComponentsTask)].
    apply steps_refl. }
  split; [exact Hsteps|]. split; [reflexivity|].
  apply (proj1 (overview_error_has_no_payload r true) s zero_MainOverviewData (Some "X")
           Hsteps eq_refl).
Defined.

(** * Further properties of the handlers *)

(** ** Classification of one pod *)

Lemma above_any (k cpu memory storage : Z) :
  (k <? cpu) || (k <? memory) || (k <? storage) = (k <? Z.max cpu (Z.max memory storage)).
Proof.
  destruct (Z.ltb_spec k cpu), (Z.ltb_spec k memory), (Z.ltb_spec k storage),
    (Z.ltb_spec k (Z.max cpu (Z.max memory storage))); cbn; try done; lia.
Qed.

Lemma checkPodStatus_worst cpu memory storage :
  checkPodStatus cpu memory storage
  = let worst := Z.max cpu (Z.max memory storage) in
    if 99 <? worst then unhealthyStatus
    else if 94 <? worst then dangerousStatus
    else if 84 <? worst then riskyStatus
    else healthyStatus.
Proof. unfold checkPodStatus. by rewrite !above_any. Qed.

(** X1.  The status of a pod depends on the largest of its three
    percentages only, and it never gets less severe when a percentage
    grows. *)
Theorem checkPodStatus_monotone (cpu memory storage cpu' memory' storage' : Z) :
  cpu <= cpu' -> memory <= memory' -> storage <= storage' ->
  checkPodStatus cpu memory storage
  = checkPodStatus (Z.max cpu (Z.max memory storage)) 0 0
  /\ severity (checkPodStatus cpu memory storage)
     <= severity (checkPodStatus cpu' memory' storage').
Proof.
  intros Hc Hm Hs. split.
  - rewrite !checkPodStatus_worst. cbv zeta.
    set (w := Z.max cpu (Z.max memory storage)).
    destruct (Z.ltb_spec 99 w), (Z.ltb_spec 99 (Z.max w (Z.max 0 0))); try lia; [done|].
    destruct (Z.ltb_spec 94 w), (Z.ltb_spec 94 (Z.max w (Z.max 0 0))); try lia; [done|].
    destruct (Z.ltb_spec 84 w), (Z.ltb_spec 84 (Z.max w (Z.max 0 0))); try lia; done.
  - rewrite !checkPodStatus_worst. cbv zeta.
    set (w := Z.max cpu (Z.max memory storage)).
    set (w' := Z.max cpu' (Z.max memory' storage')).
    assert (Hw : w <= w') by (subst w w'; lia).
    destruct (Z.ltb_spec 99 w), (Z.ltb_spec 99 w'), (Z.ltb_spec 94 w), (Z.ltb_spec 94 w'),
      (Z.ltb_spec 84 w), (Z.ltb_spec 84 w'); cbn; lia.
Qed.

Lemma checkPodStatus_monotone_witness :
  severity (checkPodStatus 85 10 10) <= severity (checkPodStatus 95 10 10).
Proof.
  apply (checkPodStatus_monotone 85 10 10 95 10 10); lia.
Defined.

(** X2.  Putting one component into its struct and rolling the struct up
    gives back the status class of the component; for a component whose
    status was computed by [checkPodStatus] that is its status itself. *)
Theorem one_component_rollup (comp : SysComponent) (cpu memory storage : Z) :
  severity (checkCompStatus (getComponentsStructByOneComp comp)) = severity (Status comp)
  /\ (Status comp = checkPodStatus cpu memory storage ->
      checkCompStatus (getComponentsStructByOneComp comp) = Status comp).
Proof.
  split.
  - unfold getComponentsStructByOneComp, severity at 2.
    destruct (String.eqb (Status comp) unhealthyStatus); [done|].
    destruct (String.eqb (Status comp) dangerousStatus); [done|].
    by destruct (String.eqb (Status comp) riskyStatus).
  - intros H. unfold getComponentsStructByOneComp. rewrite H. unfold checkPodStatus.
    destruct ((99 <? cpu) || (99 <? memory) || (99 <? storage)); [done|].
    destruct ((94 <? cpu) || (94 <? memory) || (94 <? storage)); [done|].
    by destruct ((84 <? cpu) || (84 <? memory) || (84 <? storage)).
Qed.

Lemma one_component_rollup_witness :
  let stat := mkCompStats 0%float 0%float 95 in
  let comp := mkSysComponent "memphis-0" stat stat stat true (checkPodStatus 95 10 10) in
  checkCompStatus (getComponentsStructByOneComp comp) = "dangerous".
Proof.
  intros stat comp.
  apply (one_component_rollup comp 95 10 10). reflexivity.
Defined.

(** ** Families *)

Lemma filter_filter_same {A : Type} (f : A -> bool) (l : list A) :
  List.filter f (List.filter f l) = List.filter f l.
Proof.
  induction l as [|x l IH]; cbn; [done|].
  destruct (f x) eqn:Hx; cbn; [|done]. by rewrite Hx, IH.
Qed.

(** X3.  As long as the subtraction of line 1232 does not wrap, a family
    shows after padding as many components as the larger of the desired
    count and the number of matching components; a family with fewer
    matching components than desired is rolled up as unhealthy whatever
    the status of its members; and components that do not match the
    family have no influence on the result. *)
Theorem getRelevantComponents_padding_rollup (name : string)
    (components : list SysComponent) (desired : Z) :
  is_i64 desired ->
  let res := getRelevantComponents name components desired in
  let matched := List.filter (family_match name) components in
  (- two63 <= desired - Z.of_nat (length matched) ->
   bucket_total res = Z.max desired (Z.of_nat (length matched)))
  /\ (Z.of_nat (length matched) < desired -> checkCompStatus res = "unhealthy")
  /\ getRelevantComponents name matched desired = res.
Proof.
  intros Hd res matched. unfold is_i64 in Hd.
  assert (Hres : res = getRelevantComponents name matched desired).
  { subst res. rewrite !getRelevantComponents_eq. subst matched.
    by rewrite !filter_filter_same. }
  split; [|split; [|done]].
  - intros Hlow. subst res. rewrite getRelevantComponents_eq. fold matched.
    unfold bucket_total. cbn.
    rewrite wrap_i64_small by (unfold is_i64; lia).
    pose proof (status_classes_length matched) as Hlen.
    rewrite length_app, length_replicate. lia.
  - intros Hlt. subst res. rewrite getRelevantComponents_eq. fold matched.
    rewrite wrap_i64_small by (unfold is_i64; lia).
    unfold checkCompStatus. cbn.
    rewrite length_app, length_replicate.
    destruct (Z.ltb_spec 0 (Z.of_nat (length (List.filter is_unhealthy matched)
                                      + Z.to_nat (desired - Z.of_nat (length matched)))));
      [done|lia].
Qed.

Lemma getRelevantComponents_padding_rollup_witness :
  let stat := mkCompStats 0%float 0%float 10 in
  let broker n := mkSysComponent n stat stat stat true "healthy" in
  checkCompStatus (getRelevantComponents "memphis" [broker "memphis-0"; broker "memphis-1"] 3)
  = "unhealthy".
Proof.
  intros stat broker.
  assert (Hd : is_i64 3) by (by vm_compute).
  apply (getRelevantComponents_padding_rollup "memphis"
           [broker "memphis-0"; broker "memphis-1"] 3 Hd).
  vm_compute. reflexivity.
Defined.

(** ** Ports of a family *)

Lemma ports_inner_spec ports : forall mPorts res,
  ports_seen mPorts res ->
  let '(mPorts', res') := ports_inner ports mPorts res in
  ports_seen mPorts' res' /\ forall p, In p res' <-> In p res \/ In p ports.
Proof.
  induction ports as [|port ports IH]; intros mPorts res [Hnd Hseen]; cbn.
  - split; [by split|]. tauto.
  - destruct (default false (mPorts !! port)) eqn:Hp; cbn.
    + specialize (IH mPorts res (conj Hnd Hseen)).
      destruct (ports_inner ports mPorts res) as [mPorts' res'].
      destruct IH as [Hinv Hin]. split; [done|].
      intros p. rewrite Hin. apply Hseen in Hp. split; [tauto|].
      intros [H|[<-|H]]; tauto.
    + assert (Hnew : ports_seen (<[port:=true]> mPorts) (res ++ [port])).
      { split.
        - apply NoDup_app. split; [done|]. split; [|apply NoDup_singleton].
          intros x Hx Hx'. apply list_elem_of_singleton in Hx'. subst x.
          apply list_elem_of_In, Hseen in Hx. congruence.
        - intros p. rewrite in_app_iff. cbn. destruct (decide (port = p)) as [->|Hne].
          + rewrite lookup_insert_eq. cbn. tauto.
          + rewrite lookup_insert_ne by done. rewrite Hseen. tauto. }
      specialize (IH _ _ Hnew).
      destruct (ports_inner ports (<[port:=true]> mPorts) (res ++ [port]))
        as [mPorts' res'].
      destruct IH as [Hinv Hin]. split; [done|].
      intros p. rewrite Hin, in_app_iff. cbn. tauto.
Qed.

Lemma ports_loop_spec name entries : forall mPorts res,
  ports_seen mPorts res ->
  let '(mPorts', res') := ports_loop name entries mPorts res in
  ports_seen mPorts' res'
  /\ forall p, In p res' <->
       In p res \/ exists key ports,
                     In (key, ports) entries /\ port_match name key = true /\ In p ports.
Proof.
  induction entries as [|[key ports] entries IH]; intros mPorts res Hinv; cbn.
  - split; [done|]. intros p. split; [tauto|]. intros [H|(? & ? & [] & _)]. done.
  - destruct (port_match name key) eqn:Hm.
    + pose proof (ports_inner_spec ports mPorts res Hinv) as H1.
      destruct (ports_inner ports mPorts res) as [mPorts1 res1].
      destruct H1 as [Hinv1 Hin1]. specialize (IH mPorts1 res1 Hinv1).
      destruct (ports_loop name entries mPorts1 res1) as [mPorts' res'].
      destruct IH as [Hinv' Hin']. split; [done|].
      intros p. rewrite Hin', Hin1. split.
      * intros [[H|H]|(k & ps & Hk & Hmk & Hp)]; [by left| |].
        -- right. exists key, ports. auto.
        -- right. exists k, ps. auto.
      * intros [H|(k & ps & [[= <- <-]|Hk] & Hmk & Hp)]; [tauto|tauto|].
        right. exists k, ps. auto.
    + specialize (IH mPorts res Hinv).
      destruct (ports_loop name entries mPorts res) as [mPorts' res'].
      destruct IH as [Hinv' Hin']. split; [done|].
      intros p. rewrite Hin'. split.
      * intros [H|(k & ps & Hk & Hmk & Hp)]; [by left|]. right. exists k, ps. auto.
      * intros [H|(k & ps & [[= <- <-]|Hk] & Hmk & Hp)]; [tauto|congruence|].
        right. exists k, ps. auto.
Qed.

(** X4.  Whatever the order in which the runtime yields the entries of
    [portsMap], [getRelevantPorts] returns each port of a matching key
    exactly once and no other port; two orders give the same ports up to
    their order. *)
Theorem getRelevantPorts_distinct_union (name : string) (portsMap : gmap string (list Z))
    (entries entries' : list (string * list Z)) :
  Permutation entries (map_to_list portsMap) ->
  Permutation entries' (map_to_list portsMap) ->
  NoDup (getRelevantPorts name entries)
  /\ (forall p, In p (getRelevantPorts name entries) <->
        exists key ports,
          portsMap !! key = Some ports /\ port_match name key = true /\ In p ports)
  /\ Permutation (getRelevantPorts name entries) (getRelevantPorts name entries').
Proof.
  intros Hperm Hperm'.
  assert (Hspec : forall es, Permutation es (map_to_list portsMap) ->
            NoDup (getRelevantPorts name es)
            /\ forall p, In p (getRelevantPorts name es) <->
                 exists key ports,
                   portsMap !! key = Some ports /\ port_match name key = true /\ In p ports).
  { intros es Hes. unfold getRelevantPorts.
    assert (H0 : ports_seen ∅ []).
    { split; [apply NoDup_nil_2|]. intros p. rewrite lookup_empty. cbn. split; [done|tauto]. }
    pose proof (ports_loop_spec name es ∅ [] H0) as H.
    destruct (ports_loop name es ∅ []) as [mPorts' res']. cbn.
    destruct H as [[Hnd _] Hin]. split; [done|].
    intros p. rewrite Hin. split.
    - intros [[]|(k & ps & Hk & Hmk & Hp)]. exists k, ps. split; [|done].
      apply elem_of_map_to_list, list_elem_of_In. by eapply Permutation_in.
    - intros (k & ps & Hk & Hmk & Hp). right. exists k, ps. split; [|done].
      eapply Permutation_in; [symmetry; exact Hes|].
      by apply list_elem_of_In, elem_of_map_to_list. }
  destruct (Hspec entries Hperm) as [Hnd Hin].
  destruct (Hspec entries' Hperm') as [Hnd' Hin'].
  split; [done|]. split; [done|].
  apply NoDup_Permutation; [done|done|].
  intros p. rewrite !list_elem_of_In, Hin, Hin'. done.
Qed.

Lemma getRelevantPorts_distinct_union_witness :
  let portsMap : gmap string (list Z) :=
    {[ "memphis-0" := [6666; 9000]; "memphis-1" := [9000; 7770];
       "memphis-metadata-0" := [5432] ]} in
  NoDup (getRelevantPorts "memphis" (map_to_list portsMap))
  /\ Permutation (getRelevantPorts "memphis" (map_to_list portsMap))
       (getRelevantPorts "memphis" (rev (map_to_list portsMap))).
Proof.
  intros portsMap.
  destruct (getRelevantPorts_distinct_union "memphis" portsMap (map_to_list portsMap)
              (rev (map_to_list portsMap))) as (Hnd & _ & Hperm).
  - reflexivity.
  - symmetry. apply Permutation_rev.
  - split; [exact Hnd|exact Hperm].
Defined.

Example getRelevantPorts_brokers :
  getRelevantPorts "memphis"
    [("memphis-0", [6666; 9000]); ("memphis-metadata-0", [5432]); ("memphis-1", [9000; 7770])]
  = [6666; 9000; 7770].
Proof. vm_compute. reflexivity. Qed.

(** ** Minikube labels *)

(** X5.  [checkIsMinikube] answers true exactly when some key of the
    labels, in lower case, contains "minikube"; the order in which the
    runtime yields the keys does not matter. *)
Theorem checkIsMinikube_any_order (strings_ToLower : string -> string)
    (keys keys' : list string) :
  Permutation keys keys' ->
  checkIsMinikube strings_ToLower keys = checkIsMinikube strings_ToLower keys'
  /\ (checkIsMinikube strings_ToLower keys = true <->
      exists key, In key keys /\ strings_Contains (strings_ToLower key) "minikube" = true).
Proof.
  assert (Hex : forall l, checkIsMinikube strings_ToLower l
                          = existsb (fun key => strings_Contains (strings_ToLower key)
                                                  "minikube") l).
  { induction l as [|key l IH]; cbn; [done|]. rewrite IH.
    by destruct (strings_Contains (strings_ToLower key) "minikube"). }
  intros Hperm. rewrite !Hex. split.
  - induction Hperm as [|x l l' _ IH|x y l|l l' l'' _ IH1 _ IH2]; cbn.
    + done.
    + by rewrite IH.
    + rewrite !orb_assoc. f_equal. apply orb_comm.
    + congruence.
  - rewrite existsb_exists. done.
Qed.

Lemma checkIsMinikube_any_order_witness :
  checkIsMinikube id ["kubernetes.io/os"; "minikube.k8s.io/name"]
  = checkIsMinikube id ["minikube.k8s.io/name"; "kubernetes.io/os"].
Proof.
  destruct (checkIsMinikube_any_order id ["kubernetes.io/os"; "minikube.k8s.io/name"]
              ["minikube.k8s.io/name"; "kubernetes.io/os"] (perm_swap _ _ _)) as [H _].
  exact H.
Defined.

(** ** The page of a log query *)

(** X6.  Outside [getAll], the amount in force is the smallest of the
    message count, the amount asked for and, when counting back from a
    known sequence, that sequence; and when at least one record is asked
    for, the page starts at a sequence of at least 1 and ends at the known
    sequence (at the last sequence of the stream in the tail mode), or
    covers everything from sequence 1 when the amount reaches past it. *)
Theorem log_window_page (state : StreamState) (amount lastKnownSeq : Z) (fromLast : bool) :
  is_u64 (LastSeq state) -> is_u64 lastKnownSeq ->
  let '(amount', startSeq, lastKnownSeq') :=
    log_window state amount fromLast lastKnownSeq false in
  lastKnownSeq' = (if fromLast then LastSeq state else lastKnownSeq)
  /\ amount' = (if fromLast then Z.min (Msgs state) amount
               else Z.min (Z.min (Msgs state) amount) lastKnownSeq)
  /\ (1 <= amount' ->
      1 <= startSeq /\ startSeq + amount' - 1 = Z.max lastKnownSeq' amount').
Proof.
  unfold is_u64, log_window, min_uint64, u64_add, u64_sub, wrap_u64.
  change two64 with 18446744073709551616. intros HL Hk.
  assert (Hmin : (if Msgs state <? amount then Msgs state else amount)
                 = Z.min (Msgs state) amount).
  { destruct (Z.ltb_spec (Msgs state) amount); lia. }
  rewrite Hmin. set (capped := Z.min (Msgs state) amount). clearbody capped. clear Hmin.
  destruct fromLast.
  - split; [done|]. split; [done|]. intros Ha.
    destruct (Z.leb_spec (LastSeq state) capped) as [Hle|Hlt]; [lia|].
    rewrite (Z.mod_small (LastSeq state - capped)) by lia.
    rewrite Z.mod_small by lia. lia.
  - destruct (Z.leb_spec lastKnownSeq capped) as [Hle|Hlt].
    + split; [done|]. split; [lia|]. lia.
    + split; [done|]. split; [lia|]. intros Ha.
      rewrite (Z.mod_small (lastKnownSeq - capped)) by lia.
      rewrite Z.mod_small by lia. lia.
Qed.

Lemma log_window_page_witness :
  log_window (mkStreamState 250 1 250) 50 false 120 false = (50, 71, 120)
  /\ 71 + 50 - 1 = Z.max 120 50.
Proof.
  split; [reflexivity|].
  pose proof (log_window_page (mkStreamState 250 1 250) 50 120 false) as H.
  change (log_window (mkStreamState 250 1 250) 50 false 120 false) with (50, 71, 120) in H.
  cbv iota beta in H.
  destruct H as (_ & _ & H); [unfold is_u64, two64; cbn; lia ..|].
  apply H. lia.
Defined.

(** ** What a log query can return *)

Lemma seq_asc_ok : less_ok seq_asc.
Proof. unfold seq_asc. split; intros; lia. Qed.

Lemma seq_desc_ok : less_ok seq_desc.
Proof. unfold seq_desc. split; intros; lia. Qed.

Lemma In_take {A : Type} (l : list A) : forall n y, In y (take n l) -> In y l.
Proof.
  induction l as [|x l IH]; intros [|n] y Hy; cbn in *; try done.
  destruct Hy as [->|Hy]; [by left|]. right. by eapply IH.
Qed.

Lemma ordered_take {A : Type} (less : A -> A -> bool) (l : list A) : forall n,
  ordered less l -> ordered less (take n l).
Proof.
  unfold ordered. induction l as [|x l IH]; intros [|n] Hs; cbn; try constructor.
  - apply IH. by inversion Hs.
  - inversion Hs as [|? ? _ Hall]; subst.
    apply List.Forall_forall. intros y Hy. rewrite List.Forall_forall in Hall.
    apply Hall. by eapply In_take.
Qed.

(** Any result of a log query arises in one of three ways. *)
Lemma GetSystemLogs_result tsep sort_Slice timeout filterSubject getAll envs :
  forall amount fromLast lastKnownSeq log0 out log,
  GetSystemLogs tsep sort_Slice envs amount timeout fromLast lastKnownSeq filterSubject
    getAll log0 = (Some out, log) ->
  (exists env e,
      In env envs
      /\ (memphisStreamInfo env = inl e \/ memphisAddConsumer env = Some e
          \/ subscribeOnAcc env = Some e)
      /\ out = Done (mkSystemLogsResponse [], Some e))
  \/ (exists env, In env envs /\ out = Panic index_out_of_range)
  \/ (exists env resMsgs amount',
        In env envs
        /\ logs_loop tsep (fetched env amount') [] = Some resMsgs
        /\ out = Done (mkSystemLogsResponse (logs_order sort_Slice getAll resMsgs), None)).
Proof.
  induction envs as [|env envs IH]; intros amount fromLast lastKnownSeq log0 out log Hrun.
  { cbn in Hrun. unfold mret, Eff_ret in Hrun. by inversion Hrun. }
  destruct (memphisStreamInfo env) as [err|state] eqn:Hinfo.
  { cbn [GetSystemLogs] in Hrun. revert Hrun. run_eff. rewrite Hinfo. cbn.
    intros [= <- <-]. left. exists env, err. split; [by left|]. tauto. }
  destruct (memphisAddConsumer env) as [err|] eqn:Hadd.
  { cbn [GetSystemLogs] in Hrun. revert Hrun. run_eff. rewrite Hinfo.
    destruct (log_window state amount fromLast lastKnownSeq getAll) as [[? ?] ?].
    cbn. rewrite Hadd. cbn.
    intros [= <- <-]. left. exists env, err. split; [by left|]. tauto. }
  destruct (subscribeOnAcc env) as [err|] eqn:Hsub.
  { cbn [GetSystemLogs] in Hrun. revert Hrun. run_eff. rewrite Hinfo.
    destruct (log_window state amount fromLast lastKnownSeq getAll) as [[? ?] ?].
    cbn. rewrite Hadd. cbn. rewrite Hsub. cbn.
    intros [= <- <-]. left. exists env, err. split; [by left|]. tauto. }
  rewrite (GetSystemLogs_session _ _ _ _ _ _ _ _ _ _ state) in Hrun by done.
  destruct (log_window state amount fromLast lastKnownSeq getAll)
    as [[amount' startSeq] lastKnownSeq'].
  destruct (refetch (fetched env amount') amount' state startSeq).
  - destruct (IH _ _ _ _ _ _ Hrun) as [(e0 & e & Hin & He & ->)|[(e0 & Hin & ->)
                                        |(e0 & r & a & Hin & Hl & ->)]].
    + left. exists e0, e. split; [by right|]. tauto.
    + right. left. exists e0. split; [by right|done].
    + right. right. exists e0, r, a. split; [by right|]. tauto.
  - destruct (logs_loop tsep (fetched env amount') []) as [resMsgs|] eqn:Hloop.
    + inversion Hrun; subst. right. right. exists env, resMsgs, amount'.
      split; [by left|]. tauto.
    + inversion Hrun; subst. right. left. exists env. split; [by left|done].
Qed.

(** X7.  A log query that ends without an error returns its records in
    ascending order of sequence in the [getAll] mode, and otherwise in
    descending order and never more than one hundred of them. *)
Theorem GetSystemLogs_sorted_capped (tsep : ascii) (sort_Slice : Sorter)
    (envs : list Session) (amount timeout : Z) (fromLast : bool) (lastKnownSeq : Z)
    (filterSubject : string) (getAll : bool) (resp : SystemLogsResponse) :
  sorter_ok sort_Slice ->
  fst (run (GetSystemLogs tsep sort_Slice envs amount timeout fromLast lastKnownSeq
              filterSubject getAll)) = Some (Done (resp, None)) ->
  if getAll then ordered seq_asc (Logs resp)
  else ordered seq_desc (Logs resp) /\ (length (Logs resp) <= 100)%nat.
Proof.
  intros Hsort Hrun. unfold run in Hrun.
  destruct (GetSystemLogs tsep sort_Slice envs amount timeout fromLast lastKnownSeq
              filterSubject getAll []) as [out log] eqn:E.
  cbn in Hrun. subst out.
  destruct (GetSystemLogs_result _ _ _ _ _ _ _ _ _ _ _ _ E)
    as [(e0 & e & _ & _ & [=])|[(e0 & _ & [=])|(e0 & r & a & _ & _ & [= ->])]].
  cbn. unfold logs_order. destruct getAll.
  - by apply (Hsort _ seq_asc r), seq_asc_ok.
  - pose proof (proj2 (Hsort _ seq_desc r) seq_desc_ok) as Hord.
    fold seq_desc. destruct (Nat.ltb_spec 100 (length (sort_Slice Log seq_desc r))).
    + split; [by apply ordered_take|]. rewrite length_take. lia.
    + split; [done|lia].
Qed.

Lemma GetSystemLogs_sorted_capped_witness :
  let resp := mkSystemLogsResponse
                [mkLog 203 "info" "line" "broker" (TimeUnix 203);
                 mkLog 202 "info" "line" "broker" (TimeUnix 202);
                 mkLog 201 "info" "line" "broker" (TimeUnix 201)] in
  ordered seq_desc (Logs resp) /\ (length (Logs resp) <= 100)%nat.
Proof.
  intros resp.
  apply (GetSystemLogs_sorted_capped "." insertion_sort
           [mkSession "uid" (inr (mkStreamState 250 1 250)) None None
              (map (Fixtures.log_msg "$memphis_syslogs.broker.info") [201; 202; 203])]
           3 1000 true 0 "" false resp insertion_sort_ok).
  vm_compute. reflexivity.
Defined.

(** X8.  A log query that ends with an error returns no records with it,
    and the error is, unchanged, the one that the stream lookup, the
    creation of the consumer or the subscription gave in one of the
    sessions. *)
Theorem GetSystemLogs_error_verbatim (tsep : ascii) (sort_Slice : Sorter)
    (envs : list Session) (amount timeout : Z) (fromLast : bool) (lastKnownSeq : Z)
    (filterSubject : string) (getAll : bool) (resp : SystemLogsResponse) (e : error) :
  fst (run (GetSystemLogs tsep sort_Slice envs amount timeout fromLast lastKnownSeq
              filterSubject getAll)) = Some (Done (resp, Some e)) ->
  Logs resp = []
  /\ exists env,
       In env envs
       /\ (memphisStreamInfo env = inl e \/ memphisAddConsumer env = Some e
           \/ subscribeOnAcc env = Some e).
Proof.
  intros Hrun. unfold run in Hrun.
  destruct (GetSystemLogs tsep sort_Slice envs amount timeout fromLast lastKnownSeq
              filterSubject getAll []) as [out log] eqn:E.
  cbn in Hrun. subst out.
  destruct (GetSystemLogs_result _ _ _ _ _ _ _ _ _ _ _ _ E)
    as [(e0 & e' & Hin & He & [= -> ->])|[(e0 & _ & [=])|(e0 & r & a & _ & _ & [=])]].
  split; [done|]. by exists e0.
Qed.

Lemma GetSystemLogs_error_verbatim_witness :
  exists env,
    In env [mkSession "uid" (inr (mkStreamState 250 1 250)) (Some "consumer limit") None []]
    /\ (memphisStreamInfo env = inl "consumer limit"
        \/ memphisAddConsumer env = Some "consumer limit"
        \/ subscribeOnAcc env = Some "consumer limit").
Proof.
  apply (GetSystemLogs_error_verbatim "." insertion_sort
           [mkSession "uid" (inr (mkStreamState 250 1 250)) (Some "consumer limit") None []]
           3 1000 true 0 "" false (mkSystemLogsResponse []) "consumer limit").
  reflexivity.
Defined.




(** X10.  In the [getAll] mode a log query never starts over: it uses one
    session, asks the consumer to start at the first sequence of the
    stream, and requests as many records as the stream holds. *)
Theorem getAll_single_session (tsep : ascii) (sort_Slice : Sorter) (env : Session)
    (envs : list Session) (amount timeout : Z) (fromLast : bool) (lastKnownSeq : Z)
    (filterSubject : string) :
  exists out log,
    run (GetSystemLogs tsep sort_Slice (env :: envs) amount timeout fromLast lastKnownSeq
           filterSubject true) = (Some out, log)
    /\ calls_of log = 1%nat
    /\ forall state,
         memphisStreamInfo env = inr state ->
         memphisAddConsumer env = None ->
         subscribeOnAcc env = None ->
         log = logs_effects env (Msgs state) (FirstSeq state) filterSubject
         /\ requests_of log = [Msgs state].
Proof.
  unfold run.
  destruct (memphisStreamInfo env) as [err|state] eqn:Hinfo.
  { cbn [GetSystemLogs]. run_eff. rewrite Hinfo. cbn. eexists _, _.
    split; [done|]. split; [done|]. done. }
  destruct (memphisAddConsumer env) as [err|] eqn:Hadd.
  { cbn [GetSystemLogs]. run_eff. rewrite Hinfo. cbn. rewrite Hadd. cbn. eexists _, _.
    split; [done|]. split; [done|]. done. }
  destruct (subscribeOnAcc env) as [err|] eqn:Hsub.
  { cbn [GetSystemLogs]. run_eff. rewrite Hinfo. cbn. rewrite Hadd. cbn. rewrite Hsub. cbn.
    eexists _, _. split; [done|]. split; [done|]. done. }
  rewrite (GetSystemLogs_session _ _ _ _ _ _ _ _ _ _ state) by done.
  unfold log_window. cbv iota beta zeta.
  assert (Hre : refetch (fetched env (Msgs state)) (Msgs state) state (FirstSeq state) = false).
  { unfold refetch. rewrite Z.ltb_irrefl. by rewrite andb_false_r. }
  rewrite Hre. cbn [app].
  destruct (logs_loop tsep (fetched env (Msgs state)) []); eexists _, _;
    (split; [done|]); (split; [done|]); intros st [= <-] _ _; done.
Qed.

Lemma getAll_single_session_witness :
  requests_of
    (snd (run (GetSystemLogs "." insertion_sort
                 [Fixtures.session (mkStreamState 2 1 2)
                    (map (Fixtures.log_msg "$memphis_syslogs.broker.info") [1; 2])]
                 3 1000 true 0 "" true)))
  = [2].
Proof.
  destruct (getAll_single_session "." insertion_sort
              (Fixtures.session (mkStreamState 2 1 2)
                 (map (Fixtures.log_msg "$memphis_syslogs.broker.info") [1; 2]))
              [] 3 1000 true 0 "") as (out & log & Hrun & _ & H).
  rewrite Hrun. cbn [snd].
  destruct (H (mkStreamState 2 1 2) eq_refl eq_refl eq_refl) as [_ Hreq].
  exact Hreq.
Defined.

(** ** Subjects of the log records *)

(** X11.  Converting a fetched message into a log record panics with an
    index out of range exactly when its subject holds no separator; a
    subject with one separator gives the source "broker". *)
Theorem log_of_msg_subject (tsep : ascii) (msg : StoredMsg) :
  (log_of_msg tsep msg = None <-> count_char tsep (msg_Subject msg) = 0%nat)
  /\ (count_char tsep (msg_Subject msg) = 1%nat ->
      exists l, log_of_msg tsep msg = Some l /\ log_Source l = "broker").
Proof.
  unfold log_of_msg.
  pose proof (strings_Split_length (msg_Subject msg) tsep) as Hlen.
  destruct (strings_Split (msg_Subject msg) tsep) as [|t0 [|t1 [|t2 [|t3 rest]]]];
    cbn in *; split; try (split; [done|lia]); try lia; try (intros; lia).
  - split; [lia|done].
  - intros _. eexists. split; done.
Qed.

Lemma log_of_msg_subject_witness :
  exists l,
    log_of_msg "." (Fixtures.log_msg "$memphis_syslogs.info" 7) = Some l
    /\ log_Source l = "broker".
Proof.
  apply (log_of_msg_subject "." (Fixtures.log_msg "$memphis_syslogs.info" 7)).
  reflexivity.
Defined.

(** ** What a throughput query can return *)

Lemma fetched_prefix env amount :
  exists rest,
    responseChan env = fetched env amount ++ rest
    /\ Z.of_nat (length (fetched env amount))
       = Z.max 0 (Z.min amount (Z.of_nat (length (responseChan env)))).
Proof.
  rewrite fetched_take. exists (drop (Z.to_nat amount) (responseChan env)).
  rewrite take_drop, length_take. split; [done|]. lia.
Qed.

(** X12.  The reading loop keeps the messages that arrive before the
    timer fires, in their order of arrival, and never more than the
    amount asked for. *)
Theorem read_loop_is_prefix (chan msgs : list StoredMsg) (amount : Z) :
  exists kept rest,
    read_loop chan 0 amount msgs = msgs ++ kept
    /\ chan = kept ++ rest
    /\ Z.of_nat (length kept) = Z.max 0 (Z.min amount (Z.of_nat (length chan)))
    /\ (Z.of_nat (length chan) < amount -> kept = chan).
Proof.
  exists (take (Z.to_nat amount) chan), (drop (Z.to_nat amount) chan).
  rewrite read_loop_take, Z.sub_0_r, take_drop, length_take.
  split; [done|]. split; [done|]. split; [lia|].
  intros Hlt. apply take_ge. lia.
Qed.

Lemma read_loop_is_prefix_witness :
  exists kept rest,
    read_loop [Fixtures.sample "b1:t1=10/1" 7; Fixtures.sample "b2:t1=5/2" 7] 0 5 []
    = [] ++ kept
    /\ [Fixtures.sample "b1:t1=10/1" 7; Fixtures.sample "b2:t1=5/2" 7] = kept ++ rest
    /\ kept = [Fixtures.sample "b1:t1=10/1" 7; Fixtures.sample "b2:t1=5/2" 7].
Proof.
  destruct (read_loop_is_prefix
              [Fixtures.sample "b1:t1=10/1" 7; Fixtures.sample "b2:t1=5/2" 7] [] 5)
    as (kept & rest & H1 & H2 & _ & H4).
  exists kept, rest. split; [exact H1|]. split; [exact H2|].
  apply H4. cbn. lia.
Defined.

(** X13.  A throughput query never returns rows together with an error:
    with an error the list is empty, and the error is the one of the
    stream lookup, of the creation of the consumer, of the subscription
    or of the decoder on a fetched payload; without an error the list
    starts with the row named "total", whose two series have length [W]. *)
Theorem GetBrokersThroughputs_error_or_rows (W : nat)
    (json_Unmarshal : string -> error + BrokerThroughput) (sort_Slice : Sorter)
    (rangeMap : gmap string BrokerThroughputResponse -> list BrokerThroughputResponse)
    (env : Session) (tenantName : string) (rows : list BrokerThroughputResponse)
    (err : option error) :
  sorter_ok sort_Slice ->
  fst (run (GetBrokersThroughputs W json_Unmarshal sort_Slice rangeMap env tenantName))
  = Done (rows, err) ->
  match err with
  | Some e =>
      rows = []
      /\ (memphisStreamInfo env = inl e \/ memphisAddConsumer env = Some e
          \/ subscribeOnAcc env = Some e
          \/ exists msg, In msg (responseChan env) /\ json_Unmarshal (msg_Data msg) = inl e)
  | None =>
      exists total rest,
        rows = total :: rest /\ btr_Name total = "total"
        /\ length (btr_Read total) = W /\ length (btr_Write total) = W
  end.
Proof.
  intros Hsort Hres.
  destruct (GetBrokersThroughputs_result W json_Unmarshal sort_Slice rangeMap env tenantName)
    as [(e & He & Hsrc)|(state & m & _ & _ & [Hp|(total & Ht & Hn & HR & HW)])];
    cbv zeta in *; rewrite Hres in *.
  - inversion He; subst. split; [done|].
    destruct Hsrc as [H|[H|[H|(state & msg & _ & Hin & Hm)]]]; try tauto.
    do 3 right. exists msg. split; [|done].
    apply (Permutation_in _ (proj1 (Hsort _ msg_less _))) in Hin.
    rewrite fetched_take in Hin. by eapply In_take.
  - done.
  - inversion Ht; subst. by exists total, (rangeMap m).
Qed.

Lemma GetBrokersThroughputs_error_or_rows_witness :
  [] = ([] : list BrokerThroughputResponse)
  /\ (memphisStreamInfo (Fixtures.session (mkStreamState 1 1 1) [Fixtures.sample "?" 7])
      = inl "invalid character"
      \/ memphisAddConsumer (Fixtures.session (mkStreamState 1 1 1) [Fixtures.sample "?" 7])
         = Some "invalid character"
      \/ subscribeOnAcc (Fixtures.session (mkStreamState 1 1 1) [Fixtures.sample "?" 7])
         = Some "invalid character"
      \/ exists msg,
           In msg (responseChan (Fixtures.session (mkStreamState 1 1 1)
                                   [Fixtures.sample "?" 7]))
           /\ Fixtures.json_Unmarshal (msg_Data msg) = inl "invalid character").
Proof.
  apply (GetBrokersThroughputs_error_or_rows 3 Fixtures.json_Unmarshal insertion_sort
           range_by_key (Fixtures.session (mkStreamState 1 1 1) [Fixtures.sample "?" 7])
           "t1" [] (Some "invalid character") insertion_sort_ok).
  vm_compute. reflexivity.
Defined.

(** ** The rows of the brokers *)

Lemma extend_row_aligned json_Unmarshal tenantName name x l :
  row_aligned (extend_row json_Unmarshal tenantName
                 (mkBrokerThroughputResponse name [] []) (x :: l)).
Proof.
  unfold row_aligned, extend_row. cbn [btr_Read btr_Write app].
  rewrite !length_map. split; [done|]. split; [cbn; lia|].
  intros i r w Hr Hw.
  change (map (read_entry json_Unmarshal tenantName) (x :: l))
    with (read_entry json_Unmarshal tenantName <$> (x :: l)) in Hr.
  change (map (write_entry json_Unmarshal tenantName) (x :: l))
    with (write_entry json_Unmarshal tenantName <$> (x :: l)) in Hw.
  rewrite list_lookup_fmap in Hr. rewrite list_lookup_fmap in Hw.
  destruct ((x :: l) !! i) as [msg|]; [|done].
  cbn in Hr, Hw. inversion Hr; inversion Hw. done.
Qed.

(** X14.  In the list a throughput query returns, every row after the
    total belongs to a broker with at least one fetched sample: its read
    and write series are equally long, are not empty and carry the same
    time at every index; and no two rows have the same name. *)
Theorem broker_rows_aligned (W : nat)
    (json_Unmarshal : string -> error + BrokerThroughput) (sort_Slice : Sorter)
    (rangeMap : gmap string BrokerThroughputResponse -> list BrokerThroughputResponse)
    (env : Session) (tenantName : string) (total : BrokerThroughputResponse)
    (rows : list BrokerThroughputResponse) :
  range_ok rangeMap ->
  fst (run (GetBrokersThroughputs W json_Unmarshal sort_Slice rangeMap env tenantName))
  = Done (total :: rows, None) ->
  Forall row_aligned rows /\ NoDup (map btr_Name rows).
Proof.
  intros Hrange Hres.
  destruct (GetBrokersThroughputs_rows _ _ _ _ _ _ _ _ Hrange Hres)
    as (state & m & _ & -> & Hdec & Hmap & Hrows).
  split.
  - apply List.Forall_forall. intros t Hin.
    destruct (Hrows t Hin) as (name & x & l & _ & _ & ->). apply extend_row_aligned.
  - assert (Hkeyed : forall kv, In kv (map_to_list m) -> btr_Name (snd kv) = fst kv).
    { intros [k t] Hin. apply list_elem_of_In, elem_of_map_to_list in Hin. cbn.
      destruct (throughput_map_lookup json_Unmarshal tenantName
                  (sort_Slice _ msg_less (fetched env (Msgs state))) ∅ Hdec)
        as (m2 & E & Hl).
      assert (m2 = m) as -> by congruence.
      rewrite Hl, lookup_empty in Hin. unfold row_of in Hin.
      destruct (List.filter (from_broker json_Unmarshal k) _) as [|y l2]; [done|].
      by inversion Hin. }
    eapply NoDup_Permutation_proper.
    { apply Permutation_map. apply (Hrange m). }
    rewrite map_map.
    rewrite (map_ext_in _ fst); [apply NoDup_fst_map_to_list|].
    intros kv Hin. by apply Hkeyed.
Qed.

Lemma broker_rows_aligned_witness :
  Forall row_aligned
    [mkBrokerThroughputResponse "b1" [mkThroughputReadResponse (TimeUnix 7) 10]
       [mkThroughputWriteResponse (TimeUnix 7) 1];
     mkBrokerThroughputResponse "b2" [mkThroughputReadResponse (TimeUnix 7) 5]
       [mkThroughputWriteResponse (TimeUnix 7) 2]].
Proof.
  apply (broker_rows_aligned 3 Fixtures.json_Unmarshal insertion_sort range_by_key
           (Fixtures.session (mkStreamState 2 1 2)
              [Fixtures.sample "b1:t1=10/1" 7; Fixtures.sample "b2:t1=5/2" 7]) "t1"
           (mkBrokerThroughputResponse "total"
              [mkThroughputReadResponse (TimeUnix 7) 15;
               mkThroughputReadResponse TimeZero 0; mkThroughputReadResponse TimeZero 0]
              [mkThroughputWriteResponse (TimeUnix 7) 3;
               mkThroughputWriteResponse TimeZero 0; mkThroughputWriteResponse TimeZero 0])
           _ range_by_key_ok).
  vm_compute. reflexivity.
Defined.

Lemma ordered_map_read json_Unmarshal tenantName (l : list StoredMsg) :
  ordered msg_less l ->
  StronglySorted (fun a b => Time_Before (trr_Timestamp b) (trr_Timestamp a) = false)
    (map (read_entry json_Unmarshal tenantName) l).
Proof.
  unfold ordered. induction 1 as [|x l Hs IH Hall]; cbn; constructor; [done|].
  apply List.Forall_forall. intros r Hr. apply in_map_iff in Hr as (y & <- & Hy).
  rewrite List.Forall_forall in Hall. by apply Hall.
Qed.

(** X15.  Within the row of a broker the times never go back: the
    samples of a broker appear in ascending order of time, whatever their
    order of arrival. *)
Theorem broker_rows_ascending (W : nat)
    (json_Unmarshal : string -> error + BrokerThroughput) (sort_Slice : Sorter)
    (rangeMap : gmap string BrokerThroughputResponse -> list BrokerThroughputResponse)
    (env : Session) (tenantName : string) (total : BrokerThroughputResponse)
    (rows : list BrokerThroughputResponse) :
  sorter_ok sort_Slice -> range_ok rangeMap ->
  fst (run (GetBrokersThroughputs W json_Unmarshal sort_Slice rangeMap env tenantName))
  = Done (total :: rows, None) ->
  Forall row_ascending rows.
Proof.
  intros Hsort Hrange Hres.
  destruct (GetBrokersThroughputs_rows _ _ _ _ _ _ _ _ Hrange Hres)
    as (state & m & _ & -> & _ & _ & Hrows).
  apply List.Forall_forall. intros t Hin.
  destruct (Hrows t Hin) as (name & x & l & _ & Hf & ->).
  unfold row_ascending, extend_row. cbn [btr_Read app]. rewrite <- Hf.
  apply ordered_map_read, ordered_filter.
  apply (Hsort _ msg_less), msg_less_ok.
Qed.

Lemma broker_rows_ascending_witness :
  Forall row_ascending
    [mkBrokerThroughputResponse "b1"
       [mkThroughputReadResponse (TimeUnix 7) 10; mkThroughputReadResponse (TimeUnix 9) 20]
       [mkThroughputWriteResponse (TimeUnix 7) 1; mkThroughputWriteResponse (TimeUnix 9) 2]].
Proof.
  apply (broker_rows_ascending 2 Fixtures.json_Unmarshal insertion_sort range_by_key
           (Fixtures.session (mkStreamState 2 1 2)
              [Fixtures.sample "b1:t1=20/2" 9; Fixtures.sample "b1:t1=10/1" 7]) "t1"
           (mkBrokerThroughputResponse "total"
              [mkThroughputReadResponse (TimeUnix 7) 10; mkThroughputReadResponse (TimeUnix 9) 20]
              [mkThroughputWriteResponse (TimeUnix 7) 1;
               mkThroughputWriteResponse (TimeUnix 9) 2])
           _ insertion_sort_ok range_by_key_ok).
  vm_compute. reflexivity.
Defined.

(** ** No sample is lost *)

Lemma samples_in_perm rows rows' :
  Permutation rows rows' -> samples_in rows = samples_in rows'.
Proof.
  induction 1 as [|x l l' _ IH|x y l|l l' l'' _ IH1 _ IH2]; cbn; lia.
Qed.

Lemma samples_in_insert (m : gmap string BrokerThroughputResponse) name e :
  samples_in (map snd (map_to_list (<[name:=e]> m)))
  = (length (btr_Read e)
     + samples_in (map snd (map_to_list (delete name m))))%nat.
Proof.
  rewrite <- insert_delete_eq.
  rewrite (samples_in_perm _ (map snd ((name, e) :: map_to_list (delete name m)))).
  - done.
  - apply Permutation_map, map_to_list_insert, lookup_delete_eq.
Qed.

Lemma samples_in_lookup (m : gmap string BrokerThroughputResponse) name :
  samples_in (map snd (map_to_list m))
  = (match m !! name with Some e => length (btr_Read e) | None => 0 end
     + samples_in (map snd (map_to_list (delete name m))))%nat.
Proof.
  destruct (m !! name) as [e|] eqn:He.
  - rewrite (samples_in_perm _ (map snd ((name, e) :: map_to_list (delete name m)))).
    + done.
    + apply Permutation_map. symmetry. by apply map_to_list_delete.
  - by rewrite delete_id.
Qed.

Lemma throughput_entry_samples tenantName ts bt m :
  samples_in (map snd (map_to_list (throughput_entry tenantName ts bt m)))
  = S (samples_in (map snd (map_to_list m))).
Proof.
  rewrite (samples_in_lookup (throughput_entry tenantName ts bt m) (bt_Name bt)).
  rewrite (samples_in_lookup m (bt_Name bt)).
  rewrite throughput_entry_lookup, decide_True by done. cbv zeta.
  assert (Hdel : delete (bt_Name bt) (throughput_entry tenantName ts bt m)
                 = delete (bt_Name bt) m).
  { apply map_eq. intros k. destruct (decide (k = bt_Name bt)) as [->|Hne].
    - by rewrite !lookup_delete_eq.
    - rewrite !lookup_delete_ne by done. rewrite throughput_entry_lookup.
      by rewrite decide_False. }
  rewrite Hdel. destruct (m !! bt_Name bt) as [e|]; cbn; rewrite ?length_app; cbn; lia.
Qed.

Lemma throughput_map_samples json_Unmarshal tenantName msgs : forall m m',
  throughput_map json_Unmarshal tenantName msgs m = inr m' ->
  samples_in (map snd (map_to_list m'))
  = (samples_in (map snd (map_to_list m)) + length msgs)%nat.
Proof.
  induction msgs as [|msg msgs IH]; intros m m' H; cbn in H.
  - inversion H; subst. cbn. lia.
  - destruct (json_Unmarshal (msg_Data msg)) as [err|bt]; [done|].
    rewrite (IH _ _ H), throughput_entry_samples. cbn. lia.
Qed.

(** X16.  No fetched sample is lost and none is duplicated: the entries
    of the rows after the total, taken together, are the entries of the
    fetched samples, each with its time and the value of the tenant, up
    to their order, for the bytes read and for the bytes written; so the
    rows hold as many samples as were fetched, which is the smaller of
    the number of messages that arrived in time and the number the
    stream held. *)
Theorem broker_rows_hold_every_sample (W : nat)
    (json_Unmarshal : string -> error + BrokerThroughput) (sort_Slice : Sorter)
    (rangeMap : gmap string BrokerThroughputResponse -> list BrokerThroughputResponse)
    (env : Session) (tenantName : string) (total : BrokerThroughputResponse)
    (rows : list BrokerThroughputResponse) :
  sorter_ok sort_Slice -> range_ok rangeMap ->
  fst (run (GetBrokersThroughputs W json_Unmarshal sort_Slice rangeMap env tenantName))
  = Done (total :: rows, None) ->
  exists state,
    memphisStreamInfo env = inr state
    /\ Permutation (concat (map btr_Read rows))
         (map (read_entry json_Unmarshal tenantName) (fetched env (Msgs state)))
    /\ Permutation (concat (map btr_Write rows))
         (map (write_entry json_Unmarshal tenantName) (fetched env (Msgs state)))
    /\ samples_in rows = length (fetched env (Msgs state))
    /\ Z.of_nat (samples_in rows)
       = Z.max 0 (Z.min (Msgs state) (Z.of_nat (length (responseChan env)))).
Proof.
  intros Hsort Hrange Hres.
  destruct (GetBrokersThroughputs_rows _ _ _ _ _ _ _ _ Hrange Hres)
    as (state & m & Hinfo & -> & _ & Hmap & _).
  exists state. split; [done|].
  destruct (Hsort _ msg_less (fetched env (Msgs state))) as [Hperm _].
  destruct (throughput_map_entries _ _ _ _ _ Hmap) as [HR HW].
  rewrite map_to_list_empty in HR, HW. cbn in HR, HW.
  split; [|split].
  { rewrite (concat_map_perm _ _ _ (Hrange m)), HR. by apply Permutation_map. }
  { rewrite (concat_map_perm _ _ _ (Hrange m)), HW. by apply Permutation_map. }
  assert (Hcount : samples_in (rangeMap m) = length (fetched env (Msgs state))).
  { rewrite (samples_in_perm _ _ (Hrange m)), (throughput_map_samples _ _ _ _ _ Hmap).
    rewrite map_to_list_empty. cbn.
    apply Permutation_length, (Hsort _ msg_less). }
  split; [done|]. rewrite Hcount.
  destruct (fetched_prefix env (Msgs state)) as (rest & _ & Hlen). done.
Qed.

Lemma broker_rows_hold_every_sample_witness :
  exists state,
    memphisStreamInfo (Fixtures.session (mkStreamState 2 1 2)
                         [Fixtures.sample "b1:t1=10/1" 7; Fixtures.sample "b2:t1=5/2" 7])
    = inr state
    /\ Permutation
         (concat (map btr_Read
            [mkBrokerThroughputResponse "b1" [mkThroughputReadResponse (TimeUnix 7) 10]
               [mkThroughputWriteResponse (TimeUnix 7) 1];
             mkBrokerThroughputResponse "b2" [mkThroughputReadResponse (TimeUnix 7) 5]
               [mkThroughputWriteResponse (TimeUnix 7) 2]]))
         (map (read_entry Fixtures.json_Unmarshal "t1")
            (fetched (Fixtures.session (mkStreamState 2 1 2)
                        [Fixtures.sample "b1:t1=10/1" 7; Fixtures.sample "b2:t1=5/2" 7])
               (Msgs state))).
Proof.
  destruct (broker_rows_hold_every_sample 3 Fixtures.json_Unmarshal insertion_sort
              range_by_key
              (Fixtures.session (mkStreamState 2 1 2)
                 [Fixtures.sample "b1:t1=10/1" 7; Fixtures.sample "b2:t1=5/2" 7]) "t1"
              (mkBrokerThroughputResponse "total"
                 [mkThroughputReadResponse (TimeUnix 7) 15;
                  mkThroughputReadResponse TimeZero 0; mkThroughputReadResponse TimeZero 0]
                 [mkThroughputWriteResponse (TimeUnix 7) 3;
                  mkThroughputWriteResponse TimeZero 0; mkThroughputWriteResponse TimeZero 0])
              [mkBrokerThroughputResponse "b1" [mkThroughputReadResponse (TimeUnix 7) 10]
                 [mkThroughputWriteResponse (TimeUnix 7) 1];
               mkBrokerThroughputResponse "b2" [mkThroughputReadResponse (TimeUnix 7) 5]
                 [mkThroughputWriteResponse (TimeUnix 7) 2]]
              insertion_sort_ok range_by_key_ok) as (state & H1 & H2 & _).
  - vm_compute. reflexivity.
  - exists state. split; [exact H1|exact H2].
Defined.

(** X17.  With no sample to aggregate, because the stream holds no
    message or because none arrives before the timer fires, the result is
    the row "total" alone, [W] entries of zero time and zero value, and
    no error. *)
Theorem no_samples_total_of_zeros (W : nat)
    (json_Unmarshal : string -> error + BrokerThroughput) (sort_Slice : Sorter)
    (rangeMap : gmap string BrokerThroughputResponse -> list BrokerThroughputResponse)
    (env : Session) (tenantName : string) (state : StreamState) :
  sorter_ok sort_Slice -> range_ok rangeMap ->
  memphisStreamInfo env = inr state ->
  memphisAddConsumer env = None ->
  subscribeOnAcc env = None ->
  Msgs state <= 0 \/ responseChan env = [] ->
  fst (run (GetBrokersThroughputs W json_Unmarshal sort_Slice rangeMap env tenantName))
  = Done ([mkBrokerThroughputResponse "total"
             (replicate W (mkThroughputReadResponse TimeZero 0))
             (replicate W (mkThroughputWriteResponse TimeZero 0))], None).
Proof.
  intros Hsort Hrange H1 H2 H3 Hempty.
  rewrite (GetBrokersThroughputs_reads _ _ _ _ _ _ state) by done. cbn [fst].
  assert (Hf : fetched env (Msgs state) = []).
  { rewrite fetched_take. destruct Hempty as [Hle| ->]; [|by rewrite take_nil].
    replace (Z.to_nat (Msgs state)) with 0%nat by lia. done. }
  rewrite Hf.
  assert (Hs : sort_Slice _ msg_less [] = []).
  { apply Permutation_nil. symmetry. apply (Hsort _ msg_less []). }
  rewrite Hs. cbn.
  assert (Hr : rangeMap ∅ = []).
  { apply Permutation_nil. symmetry. rewrite (Hrange ∅), map_to_list_empty. done. }
  rewrite Hr. done.
Qed.

Lemma no_samples_total_of_zeros_witness :
  fst (run (GetBrokersThroughputs 2 Fixtures.json_Unmarshal insertion_sort range_by_key
              (Fixtures.session (mkStreamState 0 0 0) []) "t1"))
  = Done ([mkBrokerThroughputResponse "total"
             (replicate 2 (mkThroughputReadResponse TimeZero 0))
             (replicate 2 (mkThroughputWriteResponse TimeZero 0))], None).
Proof.
  apply (no_samples_total_of_zeros 2 Fixtures.json_Unmarshal insertion_sort range_by_key
           (Fixtures.session (mkStreamState 0 0 0) []) "t1" (mkStreamState 0 0 0)
           insertion_sort_ok range_by_key_ok eq_refl eq_refl eq_refl).
  left. cbn. lia.
Defined.

(** ** The main overview when every sub-query succeeds *)

Section OverviewSuccess.

Context {ExtendedStation : Type}.
Variable r : TaskResults ExtendedStation.
Variable k8sEnv : bool.
Hypothesis all_succeed : forall t, task_failed r t = None.

Let data_inv (s : Shared ExtendedStation) : Prop :=
  generalErr s = None
  /\ (returned s = None ->
      mainOverviewData s
      = partial_overview r (has_run StationsTask s) (has_run ComponentsTask s)
          (has_run ThroughputTask s))
  /\ (forall d e, returned s = Some (d, e) -> d = composite_overview r k8sEnv /\ e = None).

Lemma step_data s s' :
  overview_inv r s -> data_inv s -> step r k8sEnv s s' -> data_inv s'.
Proof.
  intros Hinv (Herr & Hdata & Hret) Hstep.
  pose proof (all_succeed StationsTask) as F1.
  pose proof (all_succeed ComponentsTask) as F2.
  pose proof (all_succeed ThroughputTask) as F3.
  destruct Hstep as [t s Hnot|s H0 Hnone].
  - destruct (returned s) as [[d e]|] eqn:Hr.
    { pose proof Hinv as [_ _ _ _ Hreturned].
      destruct (Hreturned d e Hr) as (Hz & _).
      pose proof (all_tasks_finished r s Hinv Hz t) as Hall.
      congruence. }
    specialize (Hdata eq_refl).
    destruct (run_task_fields r t s) as (_ & Efin & Eret & Eerr).
    unfold data_inv. rewrite Eerr, (all_succeed t), Eret, Hr.
    split; [done|]. split; [|done]. intros _.
    assert (Hflag : forall u, has_run u (run_task r t s) = Task_eqb u t || has_run u s).
    { intros u. unfold has_run. by rewrite Efin. }
    rewrite !Hflag. clear Hflag Efin Eret Eerr Hret Hinv.
    unfold run_task, partial_overview, task_failed in *.
    destruct r as [[[[st tm] td] e1] [[sc me] e2] [bt e3]].
    cbn in F1, F2, F3. subst e1 e2 e3. cbn in *.
    destruct t; cbn; rewrite Hdata; cbn; rewrite ?Hnot; cbn; done.
  - unfold data_inv, after_Wait. rewrite Herr. cbn. split; [done|]. split; [done|].
    intros d e [= <- <-]. split; [|done].
    rewrite (Hdata Hnone).
    rewrite !(all_tasks_finished r s Hinv H0).
    unfold partial_overview, composite_overview.
    destruct r as [[[[st tm] td] e1] [[sc me] e2] [bt e3]]. done.
Qed.

Lemma steps_data s : steps r k8sEnv init_Shared s -> data_inv s.
Proof.
  intros Hsteps.
  remember init_Shared as s0 eqn:Hs0.
  induction Hsteps as [s|s1 s2 s3 Hsteps IH Hstep].
  - subst s. unfold data_inv, partial_overview. cbn.
    destruct r as [[[[st tm] td] e1] [[sc me] e2] [bt e3]]. done.
  - subst s1. eapply step_data; [|by apply IH|exact Hstep].
    eapply steps_inv; [apply init_inv|exact Hsteps].
Qed.

End OverviewSuccess.

(** X18.  When the three sub-queries succeed, the main overview is the
    same under every schedule of the goroutines: no error, and the
    payload made of the stations with their count and the two message
    totals, the components with the metrics flag, the throughput rows
    and the environment flag. *)
Theorem overview_success_composite {ExtendedStation : Type}
    (r : TaskResults ExtendedStation) (k8sEnv : bool) (s : Shared ExtendedStation)
    (d : MainOverviewData ExtendedStation) (e : option error) :
  (forall t, task_failed r t = None) ->
  steps r k8sEnv init_Shared s ->
  returned s = Some (d, e) ->
  e = None /\ d = composite_overview r k8sEnv.
Proof.
  intros Hok Hsteps Hret.
  destruct (steps_data r k8sEnv Hok s Hsteps) as (_ & _ & H).
  destruct (H d e Hret). done.
Qed.

Lemma overview_success_composite_witness :
  let r := mkTaskResults (ExtendedStation := string) (["s1"; "s2"], 10, 1, None)
             ([], true, None) ([mkBrokerThroughputResponse "total" [] []], None) in
  let s := after_Wait true
             (run_task r StationsTask
                (run_task r ThroughputTask (run_task r ComponentsTask init_Shared))) in
  returned s
  = Some (mkMainOverviewData string 2 10 1 [] ["s1"; "s2"] true
            [mkBrokerThroughputResponse "total" [] []] true, None).
Proof.
  intros r s.
  assert (Hsteps : steps r true init_Shared s).
  { eapply steps_more; [|by apply step_return].
    eapply steps_more; [|by apply (step_task _ r true StationsTask)].
    eapply steps_more; [|by apply (step_task _ r true ThroughputTask)].
    eapply steps_more; [|by apply (step_task _ r true ComponentsTask)].
    apply steps_refl. }
  destruct (returned s) as [[d e]|] eqn:Hret; [|discriminate].
  destruct (overview_success_composite r true s d e) as [-> ->]; try done.
  by intros [].
Defined.

(** ** Validation of schemas *)

(** X20.  A new schema passes the check of its type and the check of its
    content exactly when the type is "protobuf" and the parser accepts
    the content; the check of the content alone accepts any content for
    every other type, supported or not, and what it rejects it rejects
    with the error of the parser behind a fixed prefix. *)
Theorem schema_validation (pbparser_Parse : string -> option error)
    (schemaContent schemaType : string) :
  (validateSchemaType schemaType = None
   /\ validateSchemaContent pbparser_Parse schemaContent schemaType = None
   <-> schemaType = "protobuf" /\ pbparser_Parse schemaContent = None)
  /\ (schemaType <> "protobuf" ->
      validateSchemaContent pbparser_Parse schemaContent schemaType = None)
  /\ (forall err,
        validateSchemaContent pbparser_Parse schemaContent schemaType = Some err ->
        exists cause,
          pbparser_Parse schemaContent = Some cause
          /\ err = String.append "Your Proto file is invalid: " cause).
Proof.
  unfold validateSchemaType, validateSchemaContent, validateProtobufContent.
  destruct (String.eqb_spec schemaType "protobuf") as [->|Hne].
  - destruct (pbparser_Parse schemaContent) as [cause|]; split; try split; try done.
    + intros [_ [=]].
    + intros [_ [=]].
    + intros err [= <-]. by exists cause.
  - split; [|split; [done|done]]. split; [|tauto].
    destruct (String.eqb schemaType "avro" || String.eqb schemaType "json");
      intros [[=] _].
Qed.

Lemma schema_validation_witness :
  validateSchemaContent (fun _ => Some "syntax error") "message {" "yaml" = None.
Proof.
  apply (schema_validation (fun _ => Some "syntax error") "message {" "yaml").
  discriminate.
Defined.

(** ** Sessions of a log query that get released *)

Lemma count_effects_app p log1 log2 :
  count_effects p (log1 ++ log2) = (count_effects p log1 + count_effects p log2)%nat.
Proof. unfold count_effects. by rewrite List.filter_app, length_app. Qed.

(** What the effects of any number of nested calls add up to. *)
Lemma GetSystemLogs_effects tsep sort_Slice timeout filterSubject getAll envs :
  forall amount fromLast lastKnownSeq log0,
  exists extra,
    snd (GetSystemLogs tsep sort_Slice envs amount timeout fromLast lastKnownSeq
           filterSubject getAll log0) = log0 ++ extra
    /\ count_effects is_request extra = count_effects is_unsubscribe extra
    /\ count_effects is_request extra = count_effects is_removal extra
    /\ (count_effects is_removal extra <= count_effects is_create extra
        <= count_effects is_removal extra + 1)%nat
    /\ forall delay stream durable,
         In (E_AfterFunc_memphisRemoveConsumer delay stream durable) extra ->
         delay = 500 /\ stream = syslogsStreamName /\ created extra durable = true.
Proof.
  induction envs as [|env envs IH]; intros amount fromLast lastKnownSeq log0.
  { exists []. cbn. unfold mret, Eff_ret. cbn. rewrite app_nil_r.
    split; [done|]. split; [done|]. split; [done|]. split; [cbn; lia|]. by intros ? ? ? []. }
  destruct (memphisStreamInfo env) as [err|state] eqn:Hinfo.
  { cbn [GetSystemLogs]. run_eff. rewrite Hinfo. cbn. eexists. split; [done|].
    split; [done|]. split; [done|]. split; [cbn; lia|].
    intros ? ? ? Hin; cbn in Hin.
    repeat (destruct Hin as [Hin|Hin]; try discriminate Hin). done. }
  destruct (memphisAddConsumer env) as [err|] eqn:Hadd.
  { cbn [GetSystemLogs]. run_eff. rewrite Hinfo.
    destruct (log_window state amount fromLast lastKnownSeq getAll) as [[? ?] ?].
    cbn. rewrite Hadd. cbn. rewrite <- app_assoc. eexists. split; [done|].
    split; [done|]. split; [done|]. split; [cbn; lia|].
    intros ? ? ? Hin; cbn in Hin.
    repeat (destruct Hin as [Hin|Hin]; try discriminate Hin). done. }
  destruct (subscribeOnAcc env) as [err|] eqn:Hsub.
  { cbn [GetSystemLogs]. run_eff. rewrite Hinfo.
    destruct (log_window state amount fromLast lastKnownSeq getAll) as [[? ?] ?].
    cbn. rewrite Hadd. cbn. rewrite Hsub. cbn. rewrite <- !app_assoc. eexists.
    split; [done|]. split; [done|]. split; [done|]. split; [cbn; lia|].
    intros ? ? ? Hin; cbn in Hin.
    repeat (destruct Hin as [Hin|Hin]; try discriminate Hin). done. }
  rewrite (GetSystemLogs_session _ _ _ _ _ _ _ _ _ _ state) by done.
  destruct (log_window state amount fromLast lastKnownSeq getAll)
    as [[amount' startSeq] lastKnownSeq'].
  cbv zeta. set (session := logs_effects env amount' startSeq filterSubject).
  assert (Hsession : forall delay stream durable,
            In (E_AfterFunc_memphisRemoveConsumer delay stream durable) session ->
            delay = 500 /\ stream = syslogsStreamName /\ created session durable = true).
  { intros delay stream durable Hin. subst session. unfold logs_effects in Hin.
    cbn in Hin. repeat (destruct Hin as [Hin|Hin]; try discriminate Hin); [|done].
    inversion Hin; subst. cbn. by rewrite String.eqb_refl. }
  destruct (refetch (fetched env amount') amount' state startSeq).
  - destruct (IH (u64_mul amount' 2) false lastKnownSeq' (log0 ++ session))
      as (extra & E & H1 & H2 & H3 & H4).
    exists (session ++ extra). rewrite E, <- app_assoc. split; [done|].
    rewrite !count_effects_app.
    change (count_effects is_request session) with 1%nat.
    change (count_effects is_unsubscribe session) with 1%nat.
    change (count_effects is_removal session) with 1%nat.
    change (count_effects is_create session) with 1%nat.
    split; [lia|]. split; [lia|]. split; [lia|].
    intros delay stream durable Hin. apply in_app_iff in Hin as [Hin|Hin].
    + destruct (Hsession _ _ _ Hin) as (-> & -> & Hc). split; [done|]. split; [done|].
      unfold created in *. rewrite existsb_app, Hc. done.
    + destruct (H4 _ _ _ Hin) as (-> & -> & Hc). split; [done|]. split; [done|].
      unfold created in *. rewrite existsb_app, Hc. apply orb_true_r.
  - exists session. split.
    { by destruct (logs_loop tsep (fetched env amount') []). }
    split; [done|]. split; [done|]. split; [cbn; lia|]. done.
Qed.

(** X21.  Through any number of refetches, every session of a log query
    that sends its fetch request is unsubscribed and has the removal of
    its own consumer scheduled 500 ms later; at most one consumer, that
    of the last session, is created without a removal being scheduled. *)
Theorem GetSystemLogs_sessions_released (tsep : ascii) (sort_Slice : Sorter)
    (envs : list Session) (amount timeout : Z) (fromLast : bool) (lastKnownSeq : Z)
    (filterSubject : string) (getAll : bool) :
  let log := snd (run (GetSystemLogs tsep sort_Slice envs amount timeout fromLast
                         lastKnownSeq filterSubject getAll)) in
  count_effects is_request log = count_effects is_unsubscribe log
  /\ count_effects is_request log = count_effects is_removal log
  /\ (count_effects is_removal log <= count_effects is_create log
      <= count_effects is_removal log + 1)%nat
  /\ forall delay stream durable,
       In (E_AfterFunc_memphisRemoveConsumer delay stream durable) log ->
       delay = 500 /\ stream = syslogsStreamName /\ created log durable = true.
Proof.
  cbv zeta. unfold run.
  destruct (GetSystemLogs_effects tsep sort_Slice timeout filterSubject getAll envs
              amount fromLast lastKnownSeq []) as (extra & -> & H).
  exact H.
Qed.

Example GetSystemLogs_five_sessions_released :
  let env := mkSession "uid" (inr (mkStreamState 100 1 100)) None None [] in
  let log := snd (run (GetSystemLogs "." insertion_sort (replicate 5 env)
                         10 1000 false 100 "" false)) in
  count_effects is_create log = 5%nat /\ count_effects is_removal log = 5%nat.
Proof. cbv zeta. split; by vm_compute. Qed.

(** ** The time axis of the total *)

Lemma total_add_read_time rs : forall i totalRead,
  (i + length rs <= length totalRead)%nat ->
  exists totalRead',
    total_add_read i rs totalRead = Some totalRead'
    /\ forall j c, totalRead !! j = Some c ->
         exists c', totalRead' !! j = Some c'
           /\ trr_Timestamp c'
              = match (if (i <=? j)%nat then rs !! (j - i)%nat else None) with
                | Some r => trr_Timestamp r
                | None => trr_Timestamp c
                end.
Proof.
  induction rs as [|r rs IH]; intros i totalRead Hlen; cbn.
  - exists totalRead. split; [done|]. intros j c Hj. exists c. split; [done|].
    rewrite lookup_nil. by destruct (i <=? j)%nat.
  - cbn in Hlen.
    destruct (lookup_lt_is_Some_2 totalRead i ltac:(lia)) as [cur Hcur]. rewrite Hcur.
    set (new := mkThroughputReadResponse (trr_Timestamp r)
                  (i64_add (trr_Read cur) (trr_Read r))).
    destruct (IH (S i) (<[i:=new]> totalRead)) as (t' & Ht' & Hv').
    { rewrite length_insert. lia. }
    exists t'. split; [done|]. intros j c Hj.
    destruct (decide (i = j)) as [->|Hne].
    + destruct (Hv' j new) as (c' & Hc' & Hts).
      { rewrite list_lookup_insert_eq; [done|lia]. }
      exists c'. split; [done|]. rewrite Hts.
      replace (S j <=? j)%nat with false by (symmetry; apply Nat.leb_gt; lia).
      by rewrite Nat.leb_refl, Nat.sub_diag.
    + destruct (Hv' j c) as (c' & Hc' & Hts).
      { by rewrite list_lookup_insert_ne. }
      exists c'. split; [done|]. rewrite Hts.
      destruct (Nat.leb_spec (S i) j) as [Hle|Hgt].
      * replace (i <=? j)%nat with true by (symmetry; apply Nat.leb_le; lia).
        replace (j - i)%nat with (S (j - S i)) by lia. done.
      * replace (i <=? j)%nat with false by (symmetry; apply Nat.leb_gt; lia). done.
Qed.

Lemma total_loop_fits rows : forall throughputs totalRead totalWrite res,
  total_loop rows throughputs totalRead totalWrite = Some res ->
  Forall (fun t => (length (btr_Read t) <= length totalRead)%nat
                   /\ (length (btr_Write t) <= length totalWrite)%nat) rows.
Proof.
  induction rows as [|t rows IH]; intros thr tR tW res H; [constructor|].
  cbn in H.
  destruct (total_add_read 0 (btr_Read t) tR) as [tR1|] eqn:E1; [|done].
  destruct (total_add_write 0 (btr_Write t) tW) as [tW1|] eqn:E2; [|done].
  pose proof (total_add_read_length _ _ _ _ E1) as L1.
  pose proof (total_add_write_length _ _ _ _ E2) as L2.
  constructor.
  - split.
    + destruct (Nat.le_gt_cases (length (btr_Read t)) (length tR)) as [|Hgt]; [done|].
      rewrite total_add_read_panics in E1; [done|cbn; lia|lia].
    + destruct (Nat.le_gt_cases (length (btr_Write t)) (length tW)) as [|Hgt]; [done|].
      rewrite total_add_write_panics in E2; [done|cbn; lia|lia].
  - apply IH in H. by rewrite L1, L2 in H.
Qed.

Lemma total_loop_time rows : forall throughputs totalRead totalWrite thr' tR' tW',
  total_loop rows throughputs totalRead totalWrite = Some (thr', tR', tW') ->
  forall j c, totalRead !! j = Some c ->
    exists c', tR' !! j = Some c' /\ trr_Timestamp c' = read_time rows j (trr_Timestamp c).
Proof.
  induction rows as [|t rows IH]; intros thr tR tW thr' tR' tW' H j c Hj; cbn in H.
  - inversion H; subst. by exists c.
  - pose proof (total_loop_fits (t :: rows) thr tR tW _ H) as Hfit.
    inversion Hfit as [|? ? [HtR _] _]; subst.
    destruct (total_add_read_time (btr_Read t) 0 tR) as (tR1 & E1 & V1); [cbn; lia|].
    cbn in H. rewrite E1 in H.
    destruct (total_add_write 0 (btr_Write t) tW) as [tW1|]; [|done].
    destruct (V1 j c Hj) as (c1 & Hc1 & Hts1).
    destruct (IH _ _ _ _ _ _ H j c1 Hc1) as (c' & Hc' & Hts').
    exists c'. split; [done|]. rewrite Hts', Hts1. cbn. by rewrite Nat.sub_0_r.
Qed.

Lemma read_time_none rows i : forall start,
  Forall (fun t => btr_Read t !! i = None) rows -> read_time rows i start = start.
Proof.
  induction rows as [|t rows IH]; intros start H; cbn; [done|].
  inversion H as [|? ? Ht Hrest]; subst. rewrite Ht. by apply IH.
Qed.

Lemma read_time_last rows t i r : forall start,
  btr_Read t !! i = Some r -> read_time (rows ++ [t]) i start = trr_Timestamp r.
Proof.
  induction rows as [|u rows IH]; intros start H; cbn.
  - by rewrite H.
  - by apply IH.
Qed.

(** X22.  At each index the total carries the time of the last row, in
    the order in which the runtime yields the rows, that reaches the
    index; where no row reaches it the time stays the zero time. *)
Theorem total_row_time_axis (W : nat)
    (json_Unmarshal : string -> error + BrokerThroughput) (sort_Slice : Sorter)
    (rangeMap : gmap string BrokerThroughputResponse -> list BrokerThroughputResponse)
    (env : Session) (tenantName : string) (total : BrokerThroughputResponse)
    (rows : list BrokerThroughputResponse) (i : nat) :
  fst (run (GetBrokersThroughputs W json_Unmarshal sort_Slice rangeMap env tenantName))
  = Done (total :: rows, None) ->
  (i < W)%nat ->
  trr_Timestamp <$> btr_Read total !! i = Some (read_time rows i TimeZero)
  /\ (Forall (fun t => btr_Read t !! i = None) rows ->
      trr_Timestamp <$> btr_Read total !! i = Some TimeZero)
  /\ (forall front t r, rows = front ++ [t] -> btr_Read t !! i = Some r ->
      trr_Timestamp <$> btr_Read total !! i = Some (trr_Timestamp r)).
Proof.
  intros Hres Hi.
  assert (Htime : trr_Timestamp <$> btr_Read total !! i = Some (read_time rows i TimeZero)).
  { destruct (GetBrokersThroughputs_result W json_Unmarshal sort_Slice rangeMap env
                tenantName) as [(e & He & _)|(state & m & _ & _ & H)];
      cbv zeta in *; rewrite Hres in *; [done|].
    clear H. revert Hres.
    unfold GetBrokersThroughputs. run_eff.
    destruct (memphisStreamInfo env); cbn; [done|].
    destruct (memphisAddConsumer env); cbn; [done|].
    destruct (subscribeOnAcc env); cbn; [done|].
    destruct (throughput_map _ _ _ _) as [|m']; cbn; [done|].
    unfold throughput_rows.
    destruct (total_loop (rangeMap m') [] _ _) as [[[thr tR] tW]|] eqn:El; [|done].
    intros [= <- <-].
    pose proof (total_loop_shape _ _ _ _ _ _ _ El) as (-> & _ & _).
    destruct (total_loop_time _ _ _ _ _ _ _ El i (mkThroughputReadResponse TimeZero 0))
      as (c' & Hc' & Hts).
    { apply lookup_replicate. auto. }
    cbn. rewrite Hc'. cbn. by rewrite Hts. }
  split; [done|]. split.
  - intros Hnone. by rewrite Htime, read_time_none.
  - intros front t r -> Hr. by rewrite Htime, (read_time_last _ _ _ r).
Qed.

Lemma total_row_time_axis_witness :
  trr_Timestamp <$>
    [mkThroughputReadResponse (TimeUnix 8) 15;
     mkThroughputReadResponse TimeZero 0; mkThroughputReadResponse TimeZero 0] !! 0%nat
  = Some (TimeUnix 8).
Proof.
  apply (total_row_time_axis 3 Fixtures.json_Unmarshal insertion_sort range_by_key
           (Fixtures.session (mkStreamState 2 1 2)
              [Fixtures.sample "b1:t1=10/1" 7; Fixtures.sample "b2:t1=5/2" 8]) "t1"
           (mkBrokerThroughputResponse "total"
              [mkThroughputReadResponse (TimeUnix 8) 15;
               mkThroughputReadResponse TimeZero 0; mkThroughputReadResponse TimeZero 0]
              [mkThroughputWriteResponse (TimeUnix 8) 3;
               mkThroughputWriteResponse TimeZero 0; mkThroughputWriteResponse TimeZero 0])
           [mkBrokerThroughputResponse "b1" [mkThroughputReadResponse (TimeUnix 7) 10]
              [mkThroughputWriteResponse (TimeUnix 7) 1];
            mkBrokerThroughputResponse "b2" [mkThroughputReadResponse (TimeUnix 8) 5]
              [mkThroughputWriteResponse (TimeUnix 8) 2]] 0).
  - vm_compute. reflexivity.
  - lia.
Defined.
